(** * Query execution orchestration: Query and QueryService

    A shallow embedding of the query service of Azure Data Studio
    (the [Query] class, the [QueryService] class and the interfaces
    around them) together with the properties of its behaviour.

    Objects of the program are modelled as the program has them:
    - the two registries of [QueryService] ([queryProviders] and
      [queries], both [Map<string, _>]) are [gmap string _];
    - [Query] objects and result set objects are mutable and shared by
      reference, so they live in heaps and are named by locations;
    - a provider is an object outside the service: it is known by its
      readonly [id] and by its identity, and the listeners that the
      service has subscribed to its six events are kept per object;
    - a thrown exception keeps every assignment made before it, so the
      monad of methods returns the state in both outcomes;
    - an [async] method is cut at its [await]: one definition for the
      part that runs before it, one for the part that runs when the
      awaited promise is fulfilled;
    - JavaScript numbers used as indices, counts and time stamps are
      integers ([Z]). *)

From Stdlib Require Import Ascii.
From stdpp Require Import gmap strings list pretty.

Open Scope Z_scope.

(** ** Data model *)

(** Locations of the two heaps. *)
Abbreviation loc := nat (only parsing).

Inductive QueryState := EXECUTING | NOT_EXECUTING.

Global Instance QueryState_eq_dec : EqDecision QueryState.
Proof. solve_decision. Defined.

(** [URI] is used through [toString()] only. *)
Record URI := mkURI { toString : string }.

Record IResultMessage := mkMessage {
  message : string;
  isError : option bool
}.

Inductive ColumnType := XML | JSON | UNKNOWN.

Record IColumn := mkColumn {
  title : string;
  type : ColumnType
}.

Record IResultSetSummary := mkSummary {
  resultIndex : Z;
  batchIndex : Z;
  rowCount : Z;
  columns : list IColumn;
  completed : bool
}.

Record IFetchSubsetParams := mkFetchParams {
  fp_resultIndex : Z;
  fp_batchIndex : Z;
  fp_startIndex : Z;
  fp_rowCount : Z
}.

(** An [IResultSet] object. Its [fetch] member is a closure over the
    query that created it and over the two indices of the summary; the
    three captured values stand for it. *)
Record IResultSet := mkResultSet {
  rs_columns : list IColumn;
  rs_id : string;
  rs_rowCount : Z;
  rs_completed : option bool;
  rs_fetch_this : loc;
  rs_fetch_resultIndex : Z;
  rs_fetch_batchIndex : Z
}.

(** The payload of [handleMessage]: one message or an array of them. *)
Definition Messages : Type := IResultMessage + list IResultMessage.

(** Values of an option map [{ [key: string]: number | string | boolean }]. *)
Inductive Scalar :=
| SString (s : string)
| SNumber (n : Z)
| SBoolean (b : bool).

(** A [Query] object (private fields of the class). *)
Record Query := mkQuery {
  associatedFile : URI;
  _state : QueryState;
  _messages : list IResultMessage;
  _resultSets : list loc;
  _startTime : option Z;
  _endTime : option Z
}.

Definition set_state (s : QueryState) (q : Query) : Query :=
  mkQuery (associatedFile q) s (_messages q) (_resultSets q) (_startTime q) (_endTime q).
Definition set_messages (m : list IResultMessage) (q : Query) : Query :=
  mkQuery (associatedFile q) (_state q) m (_resultSets q) (_startTime q) (_endTime q).
Definition set_resultSets (r : list loc) (q : Query) : Query :=
  mkQuery (associatedFile q) (_state q) (_messages q) r (_startTime q) (_endTime q).
Definition set_startTime (t : option Z) (q : Query) : Query :=
  mkQuery (associatedFile q) (_state q) (_messages q) (_resultSets q) t (_endTime q).
Definition set_endTime (t : option Z) (q : Query) : Query :=
  mkQuery (associatedFile q) (_state q) (_messages q) (_resultSets q) (_startTime q) t.

Definition set_rowCount (n : Z) (r : IResultSet) : IResultSet :=
  mkResultSet (rs_columns r) (rs_id r) n (rs_completed r)
    (rs_fetch_this r) (rs_fetch_resultIndex r) (rs_fetch_batchIndex r).
Definition set_completed (c : option bool) (r : IResultSet) : IResultSet :=
  mkResultSet (rs_columns r) (rs_id r) (rs_rowCount r) c
    (rs_fetch_this r) (rs_fetch_resultIndex r) (rs_fetch_batchIndex r).

(** The six events of [IQueryProvider]. *)
Inductive EventKind :=
| KMessage | KResultSetAvailable | KResultSetUpdated
| KBatchStart | KBatchComplete | KQueryComplete.

Global Instance EventKind_eq_dec : EqDecision EventKind.
Proof. solve_decision. Defined.

Definition allKinds : list EventKind :=
  [KMessage; KResultSetAvailable; KResultSetUpdated;
   KBatchStart; KBatchComplete; KQueryComplete].

(** An [IQueryProvider] object: its readonly [id] and the identity of the
    object. Two providers may carry the same [id]. *)
Record IQueryProvider := mkProvider {
  id : string;
  obj : nat
}.

Global Instance IQueryProvider_eq_dec : EqDecision IQueryProvider.
Proof. solve_decision. Defined.

(** The [IDisposable] built by [registerProvider]: the combination of the
    six subscriptions made on [d_provider], all carrying the token
    [d_token], and of the deletion of [d_provider.id] from the registry. *)
Record IDisposable := mkDisposable {
  d_provider : IQueryProvider;
  d_token : nat
}.

Record ProviderStub := mkStub {
  provider : IQueryProvider;
  disposable : IDisposable
}.

(** What a provider event carries ([IQueryProviderEvent & ...]). *)
Inductive ProviderEvent :=
| EvMessage (connectionId : string) (messages : Messages)
| EvResultSetAvailable (connectionId : string) (e : IResultSetSummary)
| EvResultSetUpdated (connectionId : string) (e : IResultSetSummary)
| EvBatchStart (connectionId : string) (executionStart : Z) (index : Z)
| EvBatchComplete (connectionId : string) (executionEnd : Z)
| EvQueryComplete (connectionId : string).

Definition kindOf (ev : ProviderEvent) : EventKind :=
  match ev with
  | EvMessage _ _ => KMessage
  | EvResultSetAvailable _ _ => KResultSetAvailable
  | EvResultSetUpdated _ _ => KResultSetUpdated
  | EvBatchStart _ _ _ => KBatchStart
  | EvBatchComplete _ _ => KBatchComplete
  | EvQueryComplete _ => KQueryComplete
  end.

(** ** Effects that leave the service *)

(** Calls made on a provider. *)
Inductive ProviderCall :=
| RunQuery (connectionId : string)
| CancelQuery (connectionId : string)
| FetchSubset (connectionId : string) (params : IFetchSubsetParams)
| SetExecutionOptions (connectionId : string) (options : gmap string Scalar).

(** What the emitters of a [Query] fire. *)
Inductive QueryEvent :=
| DidStateChange (s : QueryState)
| OnMessage (e : Messages)
| OnResultSetAvailable (rs : loc)
| OnResultSetUpdated (rs : loc)
| OnQueryComplete.

Inductive Effect :=
| Fired (q : loc) (ev : QueryEvent)
| Called (p : IQueryProvider) (c : ProviderCall).

(** ** Exceptions *)

Inductive Exn :=
| Error (msg : string)
| TypeError.

(** ** The state of the program *)

Record World := mkWorld {
  directory : gmap string string;
  queryProviders : gmap string ProviderStub;
  queries : gmap string loc;
  queryHeap : list Query;
  resultSetHeap : list IResultSet;
  listeners : gmap nat (list (EventKind * nat));
  nextToken : nat;
  trace : list Effect
}.

Definition upd_queryProviders (f : gmap string ProviderStub → gmap string ProviderStub)
    (w : World) : World :=
  mkWorld (directory w) (f (queryProviders w)) (queries w) (queryHeap w)
    (resultSetHeap w) (listeners w) (nextToken w) (trace w).
Definition upd_queries (f : gmap string loc → gmap string loc) (w : World) : World :=
  mkWorld (directory w) (queryProviders w) (f (queries w)) (queryHeap w)
    (resultSetHeap w) (listeners w) (nextToken w) (trace w).
Definition upd_queryHeap (f : list Query → list Query) (w : World) : World :=
  mkWorld (directory w) (queryProviders w) (queries w) (f (queryHeap w))
    (resultSetHeap w) (listeners w) (nextToken w) (trace w).
Definition upd_resultSetHeap (f : list IResultSet → list IResultSet) (w : World) : World :=
  mkWorld (directory w) (queryProviders w) (queries w) (queryHeap w)
    (f (resultSetHeap w)) (listeners w) (nextToken w) (trace w).
Definition upd_listeners
    (f : gmap nat (list (EventKind * nat)) → gmap nat (list (EventKind * nat)))
    (w : World) : World :=
  mkWorld (directory w) (queryProviders w) (queries w) (queryHeap w)
    (resultSetHeap w) (f (listeners w)) (nextToken w) (trace w).
Definition upd_nextToken (f : nat → nat) (w : World) : World :=
  mkWorld (directory w) (queryProviders w) (queries w) (queryHeap w)
    (resultSetHeap w) (listeners w) (f (nextToken w)) (trace w).
Definition upd_trace (f : list Effect → list Effect) (w : World) : World :=
  mkWorld (directory w) (queryProviders w) (queries w) (queryHeap w)
    (resultSetHeap w) (listeners w) (nextToken w) (f (trace w)).

(** ** The monad of methods: state that survives an exception *)

Definition M (A : Type) : Type := World → World * (Exn + A).

Global Instance M_ret : MRet M := λ A a w, (w, inr a).
Global Instance M_bind : MBind M := λ A B k m w,
  match m w with
  | (w', inr a) => k a w'
  | (w', inl e) => (w', inl e)
  end.

Definition throw {A} (e : Exn) : M A := λ w, (w, inl e).
Definition get : M World := λ w, (w, inr w).
Definition modify (f : World → World) : M unit := λ w, (f w, inr tt).

(** An emitter of a query fires, a call reaches a provider: both are
    recorded, in order. *)
Definition fire (this : loc) (ev : QueryEvent) : M unit :=
  modify (upd_trace (λ t, t ++ [Fired this ev])).
Definition call (p : IQueryProvider) (c : ProviderCall) : M unit :=
  modify (upd_trace (λ t, t ++ [Called p c])).

(** Reading the object at a location. A method runs on an object that
    exists; on a location outside the heap it stops with [TypeError]. *)
Definition this_ (this : loc) : M Query := λ w,
  match queryHeap w !! this with
  | Some q => (w, inr q)
  | None => (w, inl TypeError)
  end.

(** A field assignment [this.f = v]. *)
Definition assign (this : loc) (f : Query → Query) : M unit :=
  modify (upd_queryHeap (alter f this)).

(** ** QueryService: the helpers used by Query *)

Module ServiceHelpers.

(** Modelled from the spec: [getProviderIdFromUri] of the connection
    management service, the connection directory, is a lookup from the
    identity of a document to the identity of a provider, or to none;
    [directory] holds that lookup and [None] is [undefined]. *)
Definition getProviderIdFromUri (w : World) (uri : string) : option string :=
  directory w !! uri.

(** Keys of [queryProviders] are strings, so [get(undefined)] finds
    nothing. *)
Definition withProvider (file : URI) : M IQueryProvider :=
  w ← get;
  let providerId := getProviderIdFromUri w (toString file) in
  let providerStub := providerId ≫= (λ p, queryProviders w !! p) in
  match providerStub with
  | None =>
      throw (Error ("Query provider could not be found: "
                      +:+ default "undefined" providerId))
  | Some stub => mret (provider stub)
  end.

Definition executeQuery (file : URI) : M unit :=
  p ← withProvider file;
  call p (RunQuery (toString file)).

Definition cancelQuery (file : URI) : M unit :=
  p ← withProvider file;
  call p (CancelQuery (toString file)).

Definition fetchData (file : URI) (params : IFetchSubsetParams) : M unit :=
  p ← withProvider file;
  call p (FetchSubset (toString file) params).

Definition setExecutionOptions (file : URI) (options : gmap string Scalar) : M unit :=
  p ← withProvider file;
  call p (SetExecutionOptions (toString file) options).

End ServiceHelpers.

(** ** Query *)

Module Query.

(** The getters. *)
Definition state (q : Query) : QueryState := _state q.
Definition startTime (q : Query) : option Z := _startTime q.
Definition endTime (q : Query) : option Z :=
  if decide (state q = EXECUTING) then None else _endTime q.
Definition messages (q : Query) : list IResultMessage := _messages q.
(** [resultSets] returns the array of objects; here, the objects the
    array points to (an entry outside the heap, which no run of the
    service produces, is left out). *)
Definition resultSets (w : World) (q : Query) : list IResultSet :=
  omap (λ r, resultSetHeap w !! r) (_resultSets q).

Definition setState (state : QueryState) (this : loc) : M unit :=
  q ← this_ this;
  if decide (state ≠ Query.state q) then
    assign this (set_state state);;
    fire this (DidStateChange state)
  else mret tt.

(** [execute], up to its [await]: the promise of [runQuery] is pending
    when this returns [inr], and [execute] has rejected when it returns
    [inl]. *)
Definition execute_sync (this : loc) : M unit :=
  q ← this_ this;
  if decide (state q = EXECUTING) then
    throw (Error "Query already executing")
  else
    assign this (set_resultSets []);;
    assign this (set_messages []);;
    assign this (set_startTime None);;
    assign this (set_endTime None);;
    ServiceHelpers.executeQuery (associatedFile q).

(** [execute], after its [await], when the promise of [runQuery] is
    fulfilled; [now] is [Date.now()]. When that promise is rejected
    nothing more runs. *)
Definition execute_resume (now : Z) (this : loc) : M unit :=
  assign this (set_startTime (Some now));;
  setState EXECUTING this.

Definition handleMessage (e : Messages) (this : loc) : M unit :=
  q ← this_ this;
  match e with
  | inr es => assign this (set_messages (_messages q ++ es))
  | inl m => assign this (set_messages (_messages q ++ [m]))
  end;;
  fire this (OnMessage e).

(** [cancel], up to its [await]. *)
Definition cancel_sync (this : loc) : M unit :=
  q ← this_ this;
  ServiceHelpers.cancelQuery (associatedFile q).

(** [cancel], after its [await], with the text the provider answered. *)
Definition cancel_resume (message : string) (this : loc) : M unit :=
  handleMessage (inl (mkMessage message None)) this;;
  setState NOT_EXECUTING this.

(** The body of the method is empty. *)
Definition setExecutionOptions (options : gmap string Scalar) (this : loc) : M unit :=
  mret tt.

Definition fetch (params : IFetchSubsetParams) (this : loc) : M unit :=
  q ← this_ this;
  ServiceHelpers.fetchData (associatedFile q) params.

Definition encodeId (resultId batchId : Z) : string :=
  pretty resultId +:+ "_" +:+ pretty batchId.

(** The [fetch] member of a result set object. *)
Definition resultSet_fetch (rs : IResultSet) (offset count : Z) : M unit :=
  fetch (mkFetchParams (rs_fetch_resultIndex rs) (rs_fetch_batchIndex rs) offset count)
    (rs_fetch_this rs).

Definition handleResultSetAvailable (e : IResultSetSummary) (this : loc) : M unit :=
  w ← get;
  let resultSet := length (resultSetHeap w) in
  modify (upd_resultSetHeap (λ h, h ++
    [mkResultSet (columns e) (encodeId (resultIndex e) (batchIndex e))
       (rowCount e) (Some (completed e)) this (resultIndex e) (batchIndex e)]));;
  q ← this_ this;
  assign this (set_resultSets (_resultSets q ++ [resultSet]));;
  fire this (OnResultSetAvailable resultSet).

(** [this._resultSets.find(e => e.id === id)] *)
Definition findResultSet (id : string) (h : list IResultSet) (rs : list loc) : option loc :=
  snd <$> list_find (λ r, rs_id <$> h !! r = Some id) rs.

(** When [find] returns [undefined], the assignment of [rowCount] on it
    throws a [TypeError]. *)
Definition handleResultSetUpdated (e : IResultSetSummary) (this : loc) : M unit :=
  let id := encodeId (resultIndex e) (batchIndex e) in
  q ← this_ this;
  w ← get;
  match findResultSet id (resultSetHeap w) (_resultSets q) with
  | None => throw TypeError
  | Some resultSet =>
      modify (upd_resultSetHeap (alter (set_rowCount (rowCount e)) resultSet));;
      modify (upd_resultSetHeap (alter (set_completed (Some (completed e))) resultSet));;
      fire this (OnResultSetUpdated resultSet)
  end.

Definition handleQueryComplete (this : loc) : M unit :=
  setState NOT_EXECUTING this;;
  fire this OnQueryComplete.

Definition handleBatchStart (index executionStart : Z) (this : loc) : M unit :=
  if decide (index = 0) then assign this (set_startTime (Some executionStart))
  else mret tt.

Definition handleBatchEnd (executionEnd : Z) (this : loc) : M unit :=
  assign this (set_endTime (Some executionEnd)).

End Query.

(** ** QueryService *)

Module QueryService.

(** The implementation declares one parameter; a second argument passed
    through the interface ([forceNew?]) is not read. *)
Definition createOrGetQuery (associatedURI : URI) (forceNew : option bool) : M loc :=
  w ← get;
  match queries w !! toString associatedURI with
  | Some existing => mret existing
  | None =>
      let query := length (queryHeap w) in
      modify (upd_queryHeap (λ h, h ++
        [mkQuery associatedURI NOT_EXECUTING [] [] None None]));;
      modify (upd_queries <[toString associatedURI := query]>);;
      mret query
  end.

(** Modelled from the spec: subscribing to an event stream of a
    provider ([Event<T>] of vs/base/common/event) adds one listener to
    that stream, and the handle it returns removes that listener.
    A listener made by [registerProvider] is named by the kind of its
    stream and the token of the registration. *)
Definition subscribe (p : IQueryProvider) (k : EventKind) (token : nat) : M unit :=
  modify (upd_listeners (λ m, <[obj p := default [] (m !! obj p) ++ [(k, token)]]> m)).

Definition unsubscribe (p : IQueryProvider) (k : EventKind) (token : nat) : M unit :=
  modify (upd_listeners
    (alter (filter (λ l, l ≠ (k, token))) (obj p))).

Definition listenersOf (w : World) (p : IQueryProvider) : list (EventKind * nat) :=
  default [] (listeners w !! obj p).

Definition registerProvider (provider : IQueryProvider) : M IDisposable :=
  w ← get;
  let token := nextToken w in
  modify (upd_nextToken S);;
  subscribe provider KMessage token;;
  subscribe provider KResultSetAvailable token;;
  subscribe provider KResultSetUpdated token;;
  subscribe provider KBatchStart token;;
  subscribe provider KBatchComplete token;;
  subscribe provider KQueryComplete token;;
  let disposable := mkDisposable provider token in
  let providerStub := mkStub provider disposable in
  modify (upd_queryProviders <[id provider := providerStub]>);;
  mret disposable.

(** Modelled from the spec: [combinedDisposable] and [toDisposable] of
    vs/base/common/lifecycle; invoking the handle runs its seven parts
    in the order they were given. *)
Definition dispose (d : IDisposable) : M unit :=
  unsubscribe (d_provider d) KMessage (d_token d);;
  unsubscribe (d_provider d) KResultSetAvailable (d_token d);;
  unsubscribe (d_provider d) KResultSetUpdated (d_token d);;
  unsubscribe (d_provider d) KBatchStart (d_token d);;
  unsubscribe (d_provider d) KBatchComplete (d_token d);;
  unsubscribe (d_provider d) KQueryComplete (d_token d);;
  modify (upd_queryProviders (delete (id (d_provider d)))).

Definition findQuery (connectionId : string) : M loc :=
  w ← get;
  match queries w !! connectionId with
  | Some query => mret query
  | None => throw (Error ("Could not find query with connection " +:+ connectionId))
  end.

Definition onMessage (connectionId : string) (messages : Messages) : M unit :=
  findQuery connectionId ≫= Query.handleMessage messages.

Definition onResultSetAvailable (connectionId : string) (e : IResultSetSummary) : M unit :=
  findQuery connectionId ≫= Query.handleResultSetAvailable e.

Definition onResultSetUpdated (connectionId : string) (e : IResultSetSummary) : M unit :=
  findQuery connectionId ≫= Query.handleResultSetUpdated e.

Definition onBatchStart (connectionId : string) (executionStart index : Z) : M unit :=
  findQuery connectionId ≫= Query.handleBatchStart index executionStart.

Definition onBatchComplete (connectionId : string) (executionEnd : Z) : M unit :=
  findQuery connectionId ≫= Query.handleBatchEnd executionEnd.

Definition onQueryComplete (connectionId : string) : M unit :=
  findQuery connectionId ≫= Query.handleQueryComplete.

(** The listener that [registerProvider] attaches to the stream of the
    kind of [ev]. *)
Definition listener (ev : ProviderEvent) : M unit :=
  match ev with
  | EvMessage c m => onMessage c m
  | EvResultSetAvailable c e => onResultSetAvailable c e
  | EvResultSetUpdated c e => onResultSetUpdated c e
  | EvBatchStart c executionStart index => onBatchStart c executionStart index
  | EvBatchComplete c executionEnd => onBatchComplete c executionEnd
  | EvQueryComplete c => onQueryComplete c
  end.

(** Modelled from the spec: a provider that emits an event reaches
    every listener subscribed to the stream of that kind, in the order
    of subscription; what a listener throws does not keep the next one
    from running, and the outcomes are returned in order. *)
Fixpoint deliver (ls : list (EventKind * nat)) (ev : ProviderEvent) (w : World)
    : World * list (Exn + unit) :=
  match ls with
  | [] => (w, [])
  | (k, _) :: ls' =>
      if decide (k = kindOf ev) then
        let (w', r) := listener ev w in
        let (w'', rs) := deliver ls' ev w' in
        (w'', r :: rs)
      else deliver ls' ev w
  end.

Definition emit (p : IQueryProvider) (ev : ProviderEvent) (w : World)
    : World * list (Exn + unit) :=
  deliver (listenersOf w p) ev w.

End QueryService.

(** ** Definitions used by the statements *)

(** The query that [execute] leaves behind before it reaches the
    provider. *)
Definition cleared (q : Query) : Query :=
  mkQuery (associatedFile q) (_state q) [] [] None None.

(** The query that [execute] leaves behind once the provider has
    answered, from the query [q] it finds at that moment. *)
Definition started (now : Z) (q : Query) : Query :=
  mkQuery (associatedFile q) EXECUTING (_messages q) (_resultSets q)
    (Some now) (_endTime q).

(** ** Registrations *)

(** The six listeners that one call of [registerProvider] subscribes, in
    the order of subscription. *)
Definition sixListeners (token : nat) : list (EventKind * nat) :=
  (λ k, (k, token)) <$> allKinds.

(** The listeners of [ls] that do not come from the registration of
    [token]. *)
Definition withoutToken (token : nat) (ls : list (EventKind * nat))
    : list (EventKind * nat) :=
  filter (λ l, l.2 ≠ token) ls.

(** The tokens in use are below the next one to be handed out. *)
Definition tokens_fresh (w : World) : Prop :=
  ∀ o ls l, listeners w !! o = Some ls → l ∈ ls → (l.2 < nextToken w)%nat.

(** ** Concrete states, for the examples *)

Module Scenario.

Definition fileA : URI := mkURI "file:///a.sql".
Definition mssql : IQueryProvider := mkProvider "MSSQL" 0%nat.
Definition mssql' : IQueryProvider := mkProvider "MSSQL" 1%nat.
Definition hello : IResultMessage := mkMessage "hello" None.

Definition rs00 : IResultSet := mkResultSet [] "0_0" 5 (Some false) 0%nat 0 0.

(** The query of [fileA] after a first run: one message, one result
    set, both times known. *)
Definition idle : Query :=
  mkQuery fileA NOT_EXECUTING [hello] [0%nat] (Some 5) (Some 9).
Definition running : Query :=
  mkQuery fileA EXECUTING [hello] [0%nat] (Some 5) (Some 9).
(** The same query right after [execute]. *)
Definition fresh : Query :=
  mkQuery fileA EXECUTING [] [] (Some 5) None.

(** One query of [fileA] at location 0, the directory sending [fileA]
    to "MSSQL", and [mssql] registered or not. *)
Definition world (q : Query) (registered : bool) : World :=
  mkWorld {[ "file:///a.sql" := "MSSQL" ]}
    (if registered then {[ "MSSQL" := mkStub mssql (mkDisposable mssql 0%nat) ]} else ∅)
    {[ "file:///a.sql" := 0%nat ]}
    [q] [rs00]
    (if registered then {[ 0%nat := sixListeners 0%nat ]} else ∅)
    (if registered then 1%nat else 0%nat)
    [].

End Scenario.

(** ** Sequences of events *)

(** The batch events of one execution, as [handleBatchStart] and
    [handleBatchEnd] receive them. *)
Inductive BatchEvent :=
| BatchStart (index executionStart : Z)
| BatchEnd (executionEnd : Z).

Definition handleBatch (b : BatchEvent) (this : loc) : M unit :=
  match b with
  | BatchStart index executionStart => Query.handleBatchStart index executionStart this
  | BatchEnd executionEnd => Query.handleBatchEnd executionEnd this
  end.

Definition handleBatches (bs : list BatchEvent) (this : loc) (w : World) : World :=
  foldl (λ w b, (handleBatch b this w).1) w bs.

(** The start times carried by the batch-start events of index 0, and
    the end times carried by the batch-end events, in order. *)
Definition startsOfFirstBatch (bs : list BatchEvent) : list Z :=
  omap (λ b, match b with
             | BatchStart index t => if decide (index = 0) then Some t else None
             | BatchEnd _ => None
             end) bs.

Definition endsOfBatches (bs : list BatchEvent) : list Z :=
  omap (λ b, match b with BatchStart _ _ => None | BatchEnd t => Some t end) bs.

(** The last element of [l], and [d] when there is none. *)
Definition lastOr (d : option Z) (l : list Z) : option Z :=
  match last l with Some t => Some t | None => d end.

(** Provider events handled one after the other by the listeners of the
    service; an event whose handling throws leaves what it had assigned
    and the next one is handled. *)
Definition dispatchAll (evs : list ProviderEvent) (w : World) : World :=
  foldl (λ w ev, (QueryService.listener ev w).1) w evs.

(** ** Identities of result sets *)

(** The identities carried by the result sets of a query, in the order
    of the array. *)
Definition resultSetIds (w : World) (q : Query) : list string :=
  rs_id <$> Query.resultSets w q.

(** Every entry of the array of [q] is an object of the heap. *)
Definition allocated (w : World) (q : Query) : Prop :=
  Forall (λ r, (r < length (resultSetHeap w))%nat) (_resultSets q).

(** The identities announced to the query at [this] by the
    result-set-available events of [evs], in order. *)
Definition announcedTo (w : World) (this : loc) (evs : list ProviderEvent) : list string :=
  omap (λ ev,
    match ev with
    | EvResultSetAvailable c e =>
        if decide (queries w !! c = Some this)
        then Some (Query.encodeId (resultIndex e) (batchIndex e)) else None
    | _ => None
    end) evs.

(** A step that leaves the registry of queries, the objects of the
    result sets and the array of every query as they are. *)
Definition same_resultSets (w w' : World) : Prop :=
  queries w' = queries w ∧
  resultSetHeap w' = resultSetHeap w ∧
  ∀ i, _resultSets <$> queryHeap w' !! i = _resultSets <$> queryHeap w !! i.

(** A step that leaves the registry of queries as it is. *)
Definition same_registry (w w' : World) : Prop := queries w' = queries w.

(** A method all of whose runs relate the state before to the state
    after, whether it returns or throws. *)
Definition Preserves (R : relation World) {A} (m : M A) : Prop :=
  ∀ w, R w (m w).1.

Definition Keeps {A} (m : M A) : Prop := Preserves same_resultSets m.

(** No character of [s] is [c]. *)
Fixpoint free_of (c : Ascii.ascii) (s : string) : Prop :=
  match s with
  | EmptyString => True
  | String a s' => a ≠ c ∧ free_of c s'
  end.

(** ** Everything that can happen to the service *)

(** The calls of the consumers, of the providers and of the queries, and
    the moments at which an awaited answer of a provider arrives. *)
Inductive Op :=
| OpCreateOrGetQuery (uri : URI) (forceNew : option bool)
| OpRegisterProvider (p : IQueryProvider)
| OpDispose (d : IDisposable)
| OpEmit (p : IQueryProvider) (ev : ProviderEvent)
| OpExecute (this : loc)
| OpExecuteAnswered (now : Z) (this : loc)
| OpCancel (this : loc)
| OpCancelAnswered (message : string) (this : loc)
| OpSetExecutionOptions (options : gmap string Scalar) (this : loc)
| OpFetch (rs : IResultSet) (offset count : Z).

Definition runOp (o : Op) (w : World) : World :=
  match o with
  | OpCreateOrGetQuery uri forceNew => (QueryService.createOrGetQuery uri forceNew w).1
  | OpRegisterProvider p => (QueryService.registerProvider p w).1
  | OpDispose d => (QueryService.dispose d w).1
  | OpEmit p ev => (QueryService.emit p ev w).1
  | OpExecute this => (Query.execute_sync this w).1
  | OpExecuteAnswered now this => (Query.execute_resume now this w).1
  | OpCancel this => (Query.cancel_sync this w).1
  | OpCancelAnswered message this => (Query.cancel_resume message this w).1
  | OpSetExecutionOptions options this => (Query.setExecutionOptions options this w).1
  | OpFetch rs offset count => (Query.resultSet_fetch rs offset count w).1
  end.

Definition runOps (ops : list Op) (w : World) : World :=
  foldl (λ w o, runOp o w) w ops.

(** Every entry of the registry of queries of [w] is an entry of the one
    of [w']. *)
Definition registry_grows (w w' : World) : Prop :=
  ∀ k q, queries w !! k = Some q → queries w' !! k = Some q.

(** ** Well-formed states *)

(** The state of a service that has just been created, over a given
    connection directory. *)
Definition initial (dir : gmap string string) : World :=
  mkWorld dir ∅ ∅ [] [] ∅ 0%nat [].

(** Every query of the registry is an object of the heap, every entry of
    the array of every query is an object of the heap, and the tokens in
    use are below the next one. *)
Definition wf (w : World) : Prop :=
  (∀ k q, queries w !! k = Some q → (q < length (queryHeap w))%nat) ∧
  (∀ i q, queryHeap w !! i = Some q → allocated w q) ∧
  tokens_fresh w.

(** A step that leaves the registries and the listeners as they are,
    creates no query, removes no result set object and gives no query an
    entry it had not. *)
Definition within (w w' : World) : Prop :=
  queries w' = queries w ∧
  listeners w' = listeners w ∧
  nextToken w' = nextToken w ∧
  length (queryHeap w') = length (queryHeap w) ∧
  (length (resultSetHeap w) ≤ length (resultSetHeap w'))%nat ∧
  ∀ i q', queryHeap w' !! i = Some q' →
    ∃ q, queryHeap w !! i = Some q ∧ _resultSets q' ⊆ _resultSets q.

(** ** Definitions for the properties of routing and notification *)

(** The correlation key that a provider event carries. *)
Definition connectionIdOf (ev : ProviderEvent) : string :=
  match ev with
  | EvMessage c _ => c
  | EvResultSetAvailable c _ => c
  | EvResultSetUpdated c _ => c
  | EvBatchStart c _ _ => c
  | EvBatchComplete c _ => c
  | EvQueryComplete c => c
  end.

(** The messages that [handleMessage] pushes for a payload. *)
Definition pushed (e : Messages) : list IResultMessage :=
  match e with
  | inl m => [m]
  | inr ms => ms
  end.

(** The query that a cancellation answered with [message] leaves in
    place of [q], and the one that a completion leaves. *)
Definition cancelled (message : string) (q : Query) : Query :=
  mkQuery (associatedFile q) NOT_EXECUTING
    (_messages q ++ [mkMessage message None]) (_resultSets q)
    (_startTime q) (_endTime q).

Definition completed_ (q : Query) : Query :=
  mkQuery (associatedFile q) NOT_EXECUTING (_messages q) (_resultSets q)
    (_startTime q) (_endTime q).

(** The state-change notification that [setState NOT_EXECUTING] fires on
    a query found in state [s]. *)
Definition leftExecuting (this : loc) (s : QueryState) : list Effect :=
  if decide (s = EXECUTING) then [Fired this (DidStateChange NOT_EXECUTING)] else [].

(** The result set object that [handleResultSetAvailable] creates for
    the query at [this]. *)
Definition announced (this : loc) (e : IResultSetSummary) : IResultSet :=
  mkResultSet (columns e) (Query.encodeId (resultIndex e) (batchIndex e))
    (rowCount e) (Some (completed e)) this (resultIndex e) (batchIndex e).

(** Two states of one result set object: all but the row count and the
    completion flag is the same. *)
Definition same_shape (rs rs' : IResultSet) : Prop :=
  rs_id rs' = rs_id rs ∧
  rs_columns rs' = rs_columns rs ∧
  rs_fetch_this rs' = rs_fetch_this rs ∧
  rs_fetch_resultIndex rs' = rs_fetch_resultIndex rs ∧
  rs_fetch_batchIndex rs' = rs_fetch_batchIndex rs.

(** A step that keeps every result set object, in its shape. *)
Definition objects_kept (w w' : World) : Prop :=
  ∀ r rs, resultSetHeap w !! r = Some rs →
    ∃ rs', resultSetHeap w' !! r = Some rs' ∧ same_shape rs rs'.

(** The payloads of the message events of [evs] that are routed to the
    query at [this], in order, and the payloads that the query at [this]
    has notified its subscribers of. *)
Definition payloadsTo (w : World) (this : loc) (evs : list ProviderEvent) : list Messages :=
  omap (λ ev,
    match ev with
    | EvMessage c m => if decide (queries w !! c = Some this) then Some m else None
    | _ => None
    end) evs.

Definition messagesNotified (this : loc) (t : list Effect) : list Messages :=
  omap (λ e,
    match e with
    | Fired q (OnMessage m) => if decide (q = this) then Some m else None
    | _ => None
    end) t.

(** A step that pushes no message and notifies none. *)
Definition same_messages (w w' : World) : Prop :=
  queries w' = queries w ∧
  (∀ i, _messages <$> queryHeap w' !! i = _messages <$> queryHeap w !! i) ∧
  ∀ i, messagesNotified i (trace w') = messagesNotified i (trace w).

(** ** Definitions for the invariants of the service *)

(** A step that keeps every query object, with its document. *)
Definition files_kept (w w' : World) : Prop :=
  ∀ i Q, queryHeap w !! i = Some Q →
    ∃ Q', queryHeap w' !! i = Some Q' ∧ associatedFile Q' = associatedFile Q.

(** The registry of queries answers, for a key, a query of the heap
    whose document has that key as its string. *)
Definition coherent (w : World) : Prop :=
  ∀ k q, queries w !! k = Some q →
    ∃ Q, queryHeap w !! q = Some Q ∧ toString (associatedFile Q) = k.

(** The method of the query that handles a provider event. *)
Definition handlerOf (ev : ProviderEvent) (this : loc) : M unit :=
  match ev with
  | EvMessage _ m => Query.handleMessage m this
  | EvResultSetAvailable _ e => Query.handleResultSetAvailable e this
  | EvResultSetUpdated _ e => Query.handleResultSetUpdated e this
  | EvBatchStart _ executionStart index => Query.handleBatchStart index executionStart this
  | EvBatchComplete _ executionEnd => Query.handleBatchEnd executionEnd this
  | EvQueryComplete _ => Query.handleQueryComplete this
  end.

(** The states that the query at [this] has notified its subscribers
    of, in order. *)
Definition statesNotified (this : loc) (t : list Effect) : list QueryState :=
  omap (λ e,
    match e with
    | Fired q (DidStateChange s) => if decide (q = this) then Some s else None
    | _ => None
    end) t.

(** Each state of [l] differs from the one before it, [prev] being
    before the first. *)
Fixpoint alternates (prev : QueryState) (l : list QueryState) : Prop :=
  match l with
  | [] => True
  | s :: l' => s ≠ prev ∧ alternates s l'
  end.

(** The notifications of state follow the states: for every location,
    the states notified alternate from NOT_EXECUTING on, the last one is
    the state of the query, and nothing has been notified for a query
    that does not exist. *)
Definition protocol (w : World) : Prop :=
  ∀ this,
    alternates NOT_EXECUTING (statesNotified this (trace w)) ∧
    match queryHeap w !! this with
    | Some Q => _state Q = default NOT_EXECUTING (last (statesNotified this (trace w)))
    | None => statesNotified this (trace w) = []
    end.

Definition keeps_protocol (w w' : World) : Prop := protocol w → protocol w'.

(** A step that changes no state and notifies none. *)
Definition quiet (w w' : World) : Prop :=
  (∀ i, _state <$> queryHeap w' !! i = _state <$> queryHeap w !! i) ∧
  ∀ i, statesNotified i (trace w') = statesNotified i (trace w).

(** Every result set of a query is an object that this query created:
    its [fetch] is bound to the query. *)
Definition owned (w : World) : Prop :=
  ∀ i Q r rs,
    queryHeap w !! i = Some Q → r ∈ _resultSets Q →
    resultSetHeap w !! r = Some rs → rs_fetch_this rs = i.

(** A step that leaves the registries, the listeners and every query but
    the one at [this] as they are. *)
Definition only_at (this : loc) (w w' : World) : Prop :=
  directory w' = directory w ∧
  queryProviders w' = queryProviders w ∧
  queries w' = queries w ∧
  listeners w' = listeners w ∧
  ∀ i, i ≠ this → queryHeap w' !! i = queryHeap w !! i.
(** * Properties *)

(** ** Unfolding the monad *)

Ltac munfold :=
  unfold mbind, M_bind, mret, M_ret, throw, get, fire, call, assign, this_, modify in *.

(** Reduces the updates of the fields of a state, innermost first. *)
Ltac wsimpl :=
  cbv [upd_queryProviders upd_queries upd_queryHeap upd_resultSetHeap
       upd_listeners upd_nextToken upd_trace
       directory queryProviders queries queryHeap resultSetHeap listeners
       nextToken trace fst snd].

Lemma alter_at {A} (f : A → A) (l : list A) (i : nat) (x : A) :
  l !! i = Some x → alter f i l = <[i := f x]> l.
Proof.
  revert i; induction l as [|y l IH]; intros [|i] H; simplify_eq/=; [done|].
  f_equal. by apply IH.
Qed.

Lemma upd_queryHeap_alter w this f q :
  queryHeap w !! this = Some q →
  upd_queryHeap (alter f this) w = upd_queryHeap <[this := f q]> w.
Proof. intros H. unfold upd_queryHeap. by rewrite (alter_at _ _ _ _ H). Qed.

Lemma this_at w this q :
  queryHeap w !! this = Some q → this_ this w = (w, inr q).
Proof. intros H. unfold this_. by rewrite H. Qed.

(** Resolving the provider of a document reads the state and leaves it
    as it is. *)
Lemma withProvider_found w file pid stub :
  directory w !! toString file = Some pid →
  queryProviders w !! pid = Some stub →
  ServiceHelpers.withProvider file w = (w, inr (provider stub)).
Proof.
  intros Hd Hp. unfold ServiceHelpers.withProvider, ServiceHelpers.getProviderIdFromUri.
  munfold. rewrite Hd. simpl. by rewrite Hp.
Qed.

Lemma withProvider_missing w file :
  directory w !! toString file ≫= (λ p, queryProviders w !! p) = None →
  ServiceHelpers.withProvider file w =
    (w, inl (Error ("Query provider could not be found: "
                      +:+ default "undefined" (directory w !! toString file)))).
Proof.
  intros H. unfold ServiceHelpers.withProvider, ServiceHelpers.getProviderIdFromUri.
  munfold. by rewrite H.
Qed.


Lemma execute_sync_clears w this q :
  queryHeap w !! this = Some q →
  Query.state q ≠ EXECUTING →
  Query.execute_sync this w =
    ServiceHelpers.executeQuery (associatedFile q)
      (upd_queryHeap <[this := cleared q]> w).
Proof.
  intros Hq Hs. unfold Query.execute_sync.
  unfold mbind at 1, M_bind at 1. rewrite (this_at _ _ _ Hq).
  destruct (decide _) as [|_]; [done|].
  munfold. simpl. f_equal.
  unfold upd_queryHeap; simpl. f_equal.
  rewrite !list_alter_alter_eq. by apply alter_at.
Qed.

Lemma executeQuery_found w file pid stub :
  directory w !! toString file = Some pid →
  queryProviders w !! pid = Some stub →
  ServiceHelpers.executeQuery file w =
    (upd_trace (λ t, t ++ [Called (provider stub) (RunQuery (toString file))]) w, inr ()).
Proof.
  intros Hd Hp. unfold ServiceHelpers.executeQuery.
  unfold mbind, M_bind. by rewrite (withProvider_found _ _ _ _ Hd Hp).
Qed.

Lemma executeQuery_missing w file :
  directory w !! toString file ≫= (λ p, queryProviders w !! p) = None →
  ServiceHelpers.executeQuery file w =
    (w, inl (Error ("Query provider could not be found: "
                      +:+ default "undefined" (directory w !! toString file)))).
Proof.
  intros H. unfold ServiceHelpers.executeQuery.
  unfold mbind, M_bind. by rewrite (withProvider_missing _ _ H).
Qed.


Lemma setState_at w this q s :
  queryHeap w !! this = Some q →
  Query.setState s this w =
    if decide (s ≠ _state q) then
      (upd_trace (λ t, t ++ [Fired this (DidStateChange s)])
         (upd_queryHeap <[this := set_state s q]> w), inr ())
    else (w, inr ()).
Proof.
  intros Hq. unfold Query.setState.
  unfold mbind at 1, M_bind at 1. rewrite (this_at _ _ _ Hq).
  unfold Query.state. destruct (decide _); [|done].
  munfold. simpl. by rewrite (upd_queryHeap_alter _ _ _ _ Hq).
Qed.

Lemma execute_resume_at w this q now :
  queryHeap w !! this = Some q →
  Query.execute_resume now this w =
    (upd_trace
       (λ t, t ++ if decide (_state q = EXECUTING) then []
                  else [Fired this (DidStateChange EXECUTING)])
       (upd_queryHeap <[this := started now q]> w), inr ()).
Proof.
  intros Hq. unfold Query.execute_resume.
  unfold mbind, M_bind, assign, modify.
  assert (Hlt : (this < length (queryHeap w))%nat) by by eapply lookup_lt_Some.
  rewrite (upd_queryHeap_alter _ _ _ _ Hq).
  erewrite setState_at by (simpl; by apply list_lookup_insert_eq).
  destruct q as [f s m r st en]; simpl in *.
  destruct w, s; unfold upd_trace, upd_queryHeap, started, set_state; simpl.
  - by rewrite app_nil_r.
  - by rewrite list_insert_insert_eq.
Qed.

(** ** [execute] *)

(** C3: on a query that is EXECUTING, [execute] rejects in its
    synchronous part with the error "Query already executing" and the
    whole state is as before: the state of the query is still EXECUTING
    and its messages and result sets are neither cleared nor changed. *)
Theorem execute_already_executing w this q :
  queryHeap w !! this = Some q →
  Query.state q = EXECUTING →
  Query.execute_sync this w = (w, inl (Error "Query already executing")).
Proof.
  intros Hq Hs. unfold Query.execute_sync.
  unfold mbind, M_bind. rewrite (this_at _ _ _ Hq).
  by destruct (decide _).
Qed.

Lemma execute_already_executing_witness :
  Query.execute_sync 0%nat (Scenario.world Scenario.running true) =
    (Scenario.world Scenario.running true, inl (Error "Query already executing")).
Proof.
  apply (execute_already_executing _ 0%nat Scenario.running); reflexivity.
Defined.

(** C2, as stated, fails twice. A query that is NOT_EXECUTING and whose
    document has no registered provider never becomes EXECUTING; and
    with a registered provider, the state of the query is still
    NOT_EXECUTING when the synchronous part of [execute] is over. *)
Lemma execute_sync_not_yet_executing :
  ¬ (∀ w this q,
        queryHeap w !! this = Some q →
        Query.state q = NOT_EXECUTING →
        ∃ w', Query.execute_sync this w = (w', inr ())) ∧
  ¬ (∀ w this q pid stub,
        queryHeap w !! this = Some q →
        Query.state q = NOT_EXECUTING →
        directory w !! toString (associatedFile q) = Some pid →
        queryProviders w !! pid = Some stub →
        ∃ w' q', Query.execute_sync this w = (w', inr ()) ∧
                 queryHeap w' !! this = Some q' ∧
                 Query.messages q' = [] ∧
                 Query.resultSets w' q' = [] ∧
                 Query.state q' = EXECUTING).
Proof.
  split.
  - intros H.
    destruct (H (Scenario.world Scenario.idle false) 0%nat Scenario.idle
                eq_refl eq_refl) as (w' & Hw').
    vm_compute in Hw'. discriminate.
  - intros H.
    destruct (H (Scenario.world Scenario.idle true) 0%nat Scenario.idle
                "MSSQL" (mkStub Scenario.mssql (mkDisposable Scenario.mssql 0%nat))
                eq_refl eq_refl eq_refl eq_refl) as (w' & q' & Hw' & Hq' & _ & _ & Hs).
    vm_compute in Hw'. injection Hw' as <-.
    vm_compute in Hq'. injection Hq' as <-.
    discriminate.
Qed.

(** C2, amended: on a query that is NOT_EXECUTING and whose document
    resolves to a registered provider, the synchronous part of [execute]
    clears messages, result sets, start time and end time, and calls
    [runQuery] on that provider; the state is then still NOT_EXECUTING.
    When the provider's answer arrives, whatever the query holds by then,
    the start time becomes the time of that moment and the state becomes
    EXECUTING (a state change fires unless the state was EXECUTING
    already); messages and result sets are not touched by that step, so
    with nothing in between they are both empty. *)
Theorem execute_not_executing w this q pid stub :
  queryHeap w !! this = Some q →
  Query.state q = NOT_EXECUTING →
  directory w !! toString (associatedFile q) = Some pid →
  queryProviders w !! pid = Some stub →
  let w1 :=
    upd_trace (λ t, t ++ [Called (provider stub) (RunQuery (toString (associatedFile q)))])
      (upd_queryHeap <[this := cleared q]> w) in
  Query.execute_sync this w = (w1, inr ()) ∧
  queryHeap w1 !! this =
    Some (mkQuery (associatedFile q) NOT_EXECUTING [] [] None None) ∧
  (∀ now w2 q2,
      queryHeap w2 !! this = Some q2 →
      Query.execute_resume now this w2 =
        (upd_trace
           (λ t, t ++ if decide (_state q2 = EXECUTING) then []
                      else [Fired this (DidStateChange EXECUTING)])
           (upd_queryHeap <[this := started now q2]> w2), inr ())) ∧
  (∀ now,
      ∃ w3, Query.execute_resume now this w1 = (w3, inr ()) ∧
            queryHeap w3 !! this =
              Some (mkQuery (associatedFile q) EXECUTING [] [] (Some now) None) ∧
            trace w3 = trace w1 ++ [Fired this (DidStateChange EXECUTING)]).
Proof.
  intros Hq Hs Hd Hp w1.
  assert (Hlt : (this < length (queryHeap w))%nat) by by eapply lookup_lt_Some.
  assert (H1 : queryHeap w1 !! this =
               Some (mkQuery (associatedFile q) NOT_EXECUTING [] [] None None)).
  { subst w1. simpl. rewrite list_lookup_insert_eq by done.
    unfold cleared. unfold Query.state in Hs. by rewrite Hs. }
  split_and!.
  - rewrite (execute_sync_clears _ _ _ Hq) by (rewrite Hs; discriminate).
    by rewrite (executeQuery_found _ _ pid stub).
  - done.
  - intros now w2 q2 Hq2. by apply execute_resume_at.
  - intros now. eexists. split; [by apply execute_resume_at|]. split.
    + simpl. rewrite list_lookup_insert_eq; [done|].
      rewrite length_insert. done.
    + done.
Qed.

Lemma execute_not_executing_witness :
  ∃ w3, Query.execute_resume 1000 0%nat
          (Query.execute_sync 0%nat (Scenario.world Scenario.idle true)).1 = (w3, inr ()) ∧
        queryHeap w3 !! 0%nat =
          Some (mkQuery Scenario.fileA EXECUTING [] [] (Some 1000) None).
Proof.
  destruct (execute_not_executing (Scenario.world Scenario.idle true) 0%nat
              Scenario.idle "MSSQL" (mkStub Scenario.mssql (mkDisposable Scenario.mssql 0%nat))
              eq_refl eq_refl eq_refl eq_refl) as (Hs & _ & _ & Hr).
  destruct (Hr 1000) as (w3 & Hw3 & Hq3 & _).
  exists w3. rewrite Hs. split; [exact Hw3 | exact Hq3].
Defined.

(** C4, as stated, fails: with no provider to resolve, [execute] rejects
    but the messages, the result sets and the two times of the query
    have been cleared by then. *)
Lemma execute_no_provider_mutates :
  ¬ (∀ w this q,
        queryHeap w !! this = Some q →
        Query.state q = NOT_EXECUTING →
        directory w !! toString (associatedFile q)
          ≫= (λ p, queryProviders w !! p) = None →
        ∃ w' e, Query.execute_sync this w = (w', inl e) ∧
                queryHeap w' !! this = Some q).
Proof.
  intros H.
  destruct (H (Scenario.world Scenario.idle false) 0%nat Scenario.idle
              eq_refl eq_refl eq_refl) as (w' & e & Hw' & Hq').
  vm_compute in Hw'. injection Hw' as <- _.
  vm_compute in Hq'. discriminate.
Qed.

(** C4, amended: on a query that is NOT_EXECUTING and whose document
    resolves to no provider identity, or to an identity under which no
    provider is registered, [execute] rejects with the error "Query
    provider could not be found: ..." and calls no provider; the state of
    the query is still NOT_EXECUTING, and its messages, result sets,
    start time and end time have been cleared. *)
Theorem execute_no_provider w this q :
  queryHeap w !! this = Some q →
  Query.state q = NOT_EXECUTING →
  directory w !! toString (associatedFile q)
    ≫= (λ p, queryProviders w !! p) = None →
  Query.execute_sync this w =
    (upd_queryHeap
       <[this := mkQuery (associatedFile q) NOT_EXECUTING [] [] None None]> w,
     inl (Error ("Query provider could not be found: "
                   +:+ default "undefined"
                         (directory w !! toString (associatedFile q))))).
Proof.
  intros Hq Hs Hn.
  rewrite (execute_sync_clears _ _ _ Hq) by (rewrite Hs; discriminate).
  rewrite executeQuery_missing by done.
  unfold cleared. unfold Query.state in Hs. by rewrite Hs.
Qed.

Lemma execute_no_provider_witness :
  Query.execute_sync 0%nat (Scenario.world Scenario.idle false) =
    (upd_queryHeap
       <[0%nat := mkQuery Scenario.fileA NOT_EXECUTING [] [] None None]>
       (Scenario.world Scenario.idle false),
     inl (Error "Query provider could not be found: MSSQL")).
Proof.
  apply (execute_no_provider (Scenario.world Scenario.idle false) 0%nat Scenario.idle);
    reflexivity.
Defined.

(** ** Batch events and the two times *)

Lemma handleBatchStart_at w this q index t :
  queryHeap w !! this = Some q →
  Query.handleBatchStart index t this w =
    (if decide (index = 0) then upd_queryHeap <[this := set_startTime (Some t) q]> w
     else w, inr ()).
Proof.
  intros Hq. unfold Query.handleBatchStart. destruct (decide _); [|done].
  munfold. by rewrite (upd_queryHeap_alter _ _ _ _ Hq).
Qed.

Lemma handleBatchEnd_at w this q t :
  queryHeap w !! this = Some q →
  Query.handleBatchEnd t this w =
    (upd_queryHeap <[this := set_endTime (Some t) q]> w, inr ()).
Proof.
  intros Hq. unfold Query.handleBatchEnd. munfold.
  by rewrite (upd_queryHeap_alter _ _ _ _ Hq).
Qed.

Lemma lastOr_cons d x l : lastOr d (x :: l) = lastOr (Some x) l.
Proof. unfold lastOr. rewrite last_cons. by destruct (last l). Qed.

Lemma upd_queryHeap_twice w this (a b : Query) :
  upd_queryHeap <[this := b]> (upd_queryHeap <[this := a]> w) =
  upd_queryHeap <[this := b]> w.
Proof. unfold upd_queryHeap; simpl. by rewrite list_insert_insert_eq. Qed.

Lemma upd_queryHeap_same w this q :
  queryHeap w !! this = Some q → upd_queryHeap <[this := q]> w = w.
Proof.
  intros H. destruct w; unfold upd_queryHeap; simpl in *.
  by rewrite list_insert_id.
Qed.

Lemma upd_queryHeap_lookup w this q q0 :
  queryHeap w !! this = Some q0 →
  queryHeap (upd_queryHeap <[this := q]> w) !! this = Some q.
Proof.
  intros H. simpl. apply list_lookup_insert_eq. by eapply lookup_lt_Some.
Qed.

Lemma handleBatches_cons b bs this w :
  handleBatches (b :: bs) this w = handleBatches bs this (handleBatch b this w).1.
Proof. done. Qed.

Lemma handleBatches_at bs : ∀ w this q,
  queryHeap w !! this = Some q →
  handleBatches bs this w =
    upd_queryHeap
      <[this := set_endTime (lastOr (_endTime q) (endsOfBatches bs))
                  (set_startTime (lastOr (_startTime q) (startsOfFirstBatch bs)) q)]> w.
Proof.
  induction bs as [|b bs IH]; intros w this q Hq.
  - unfold handleBatches, lastOr; simpl. destruct q; simpl.
    symmetry. by apply upd_queryHeap_same.
  - rewrite handleBatches_cons. destruct b as [index t|t]; unfold handleBatch.
    + rewrite (handleBatchStart_at _ _ _ _ _ Hq).
      cbn [startsOfFirstBatch endsOfBatches omap list_omap].
      destruct (decide (index = 0)); cbn [fst].
      * erewrite IH by (by eapply upd_queryHeap_lookup).
        rewrite upd_queryHeap_twice, lastOr_cons. by destruct q.
      * by apply IH.
    + rewrite (handleBatchEnd_at _ _ _ _ Hq); cbn [fst].
      erewrite IH by (by eapply upd_queryHeap_lookup).
      cbn [startsOfFirstBatch endsOfBatches omap list_omap].
      rewrite upd_queryHeap_twice, lastOr_cons. by destruct q.
Qed.

(** C8: a batch-start event whose index is not 0 changes nothing, one of
    index 0 sets the start time; every batch-end event overwrites the
    end time; so after any sequence of batch events the start time is
    the one of the last batch-start of index 0 (the former one when
    there was none) and the end time is the one of the last batch-end;
    and the [endTime] getter answers unset on every query that is
    EXECUTING, whatever end time is recorded in it. *)
Theorem batch_times w this q :
  queryHeap w !! this = Some q →
  (∀ index t, index ≠ 0 → Query.handleBatchStart index t this w = (w, inr ())) ∧
  (∀ t, Query.handleBatchStart 0 t this w =
          (upd_queryHeap <[this := set_startTime (Some t) q]> w, inr ())) ∧
  (∀ t, Query.handleBatchEnd t this w =
          (upd_queryHeap <[this := set_endTime (Some t) q]> w, inr ())) ∧
  (∀ bs, handleBatches bs this w =
           upd_queryHeap
             <[this := set_endTime (lastOr (_endTime q) (endsOfBatches bs))
                         (set_startTime
                            (lastOr (_startTime q) (startsOfFirstBatch bs)) q)]> w) ∧
  (∀ f m r st en, Query.endTime (mkQuery f EXECUTING m r st en) = None) ∧
  (∀ f m r st en, Query.endTime (mkQuery f NOT_EXECUTING m r st en) = en).
Proof.
  intros Hq. split_and!.
  - intros index t Hi. rewrite (handleBatchStart_at _ _ _ _ _ Hq).
    by destruct (decide _).
  - intros t. by rewrite (handleBatchStart_at _ _ _ _ _ Hq).
  - intros t. by apply handleBatchEnd_at.
  - intros bs. by apply handleBatches_at.
  - done.
  - done.
Qed.

Lemma batch_times_witness :
  handleBatches [BatchStart 0 100; BatchStart 1 200; BatchEnd 50; BatchEnd 75] 0%nat
      (Scenario.world Scenario.running true) =
    upd_queryHeap
      <[0%nat := mkQuery Scenario.fileA EXECUTING [Scenario.hello] [0%nat]
                   (Some 100) (Some 75)]>
      (Scenario.world Scenario.running true) ∧
  Query.endTime
    (mkQuery Scenario.fileA EXECUTING [Scenario.hello] [0%nat] (Some 100) (Some 75)) = None.
Proof.
  destruct (batch_times (Scenario.world Scenario.running true) 0%nat Scenario.running
              eq_refl) as (_ & _ & _ & Hbs & Hget & _).
  split; [|apply Hget].
  exact (Hbs [BatchStart 0 100; BatchStart 1 200; BatchEnd 50; BatchEnd 75]).
Defined.

(** ** Result sets *)

Lemma findQuery_at w c this :
  queries w !! c = Some this → QueryService.findQuery c w = (w, inr this).
Proof. intros H. unfold QueryService.findQuery. munfold. by rewrite H. Qed.

Lemma findQuery_missing w c :
  queries w !! c = None →
  QueryService.findQuery c w =
    (w, inl (Error ("Could not find query with connection " +:+ c))).
Proof. intros H. unfold QueryService.findQuery. munfold. by rewrite H. Qed.

Lemma upd_resultSetHeap_alter w r f rs :
  resultSetHeap w !! r = Some rs →
  upd_resultSetHeap (alter f r) w = upd_resultSetHeap <[r := f rs]> w.
Proof. intros H. unfold upd_resultSetHeap. by rewrite (alter_at _ _ _ _ H). Qed.

(** What [find] answers is an entry of the array, the first whose object
    carries the identity. *)
Lemma findResultSet_Some id h refs r :
  Query.findResultSet id h refs = Some r →
  r ∈ refs ∧ ∃ rs, h !! r = Some rs ∧ rs_id rs = id.
Proof.
  unfold Query.findResultSet. intros H.
  destruct (list_find _ refs) as [[i x]|] eqn:Hf; simplify_eq/=.
  apply list_find_Some in Hf as (Hi & HP & _). split.
  - by eapply list_elem_of_lookup_2.
  - destruct (h !! r) as [rs|]; simplify_eq/=. by exists rs.
Qed.


Lemma handleResultSetUpdated_none w this q e :
  queryHeap w !! this = Some q →
  Query.findResultSet (Query.encodeId (resultIndex e) (batchIndex e))
    (resultSetHeap w) (_resultSets q) = None →
  Query.handleResultSetUpdated e this w = (w, inl TypeError).
Proof.
  intros Hq Hf. unfold Query.handleResultSetUpdated.
  unfold mbind at 1, M_bind at 1. rewrite (this_at _ _ _ Hq).
  unfold mbind, M_bind, get. by rewrite Hf.
Qed.

(** The object a result-set-updated event leaves in place of [rs]. *)
Lemma handleResultSetUpdated_some w this q e r rs :
  queryHeap w !! this = Some q →
  Query.findResultSet (Query.encodeId (resultIndex e) (batchIndex e))
    (resultSetHeap w) (_resultSets q) = Some r →
  resultSetHeap w !! r = Some rs →
  Query.handleResultSetUpdated e this w =
    (upd_trace (λ t, t ++ [Fired this (OnResultSetUpdated r)])
       (upd_resultSetHeap
          <[r := set_completed (Some (completed e)) (set_rowCount (rowCount e) rs)]> w),
     inr ()).
Proof.
  intros Hq Hf Hr. unfold Query.handleResultSetUpdated.
  unfold mbind at 1, M_bind at 1. rewrite (this_at _ _ _ Hq).
  unfold mbind at 1, M_bind at 1, get. rewrite Hf.
  munfold. rewrite (upd_resultSetHeap_alter _ _ _ _ Hr).
  erewrite upd_resultSetHeap_alter; last first.
  { simpl. apply list_lookup_insert_eq. by eapply lookup_lt_Some. }
  destruct w; unfold upd_trace, upd_resultSetHeap; simpl.
  by rewrite list_insert_insert_eq.
Qed.

Lemma handleResultSetAvailable_at w this q e :
  queryHeap w !! this = Some q →
  Query.handleResultSetAvailable e this w =
    (upd_trace (λ t, t ++ [Fired this (OnResultSetAvailable (length (resultSetHeap w)))])
       (upd_queryHeap
          <[this := set_resultSets (_resultSets q ++ [length (resultSetHeap w)]) q]>
          (upd_resultSetHeap (λ h, h ++
             [mkResultSet (columns e)
                (Query.encodeId (resultIndex e) (batchIndex e))
                (rowCount e) (Some (completed e)) this
                (resultIndex e) (batchIndex e)]) w)),
     inr ()).
Proof.
  intros Hq. unfold Query.handleResultSetAvailable.
  munfold. simpl. rewrite Hq.
  by erewrite upd_queryHeap_alter by done.
Qed.

Lemma findResultSet_cons id h r refs :
  Query.findResultSet id h (r :: refs) =
    if decide (rs_id <$> h !! r = Some id) then Some r
    else Query.findResultSet id h refs.
Proof.
  unfold Query.findResultSet. csimpl. case_decide; [done|].
  by destruct (list_find _ refs) as [[??]|].
Qed.








(** ** Relations that every run of a method preserves *)

Section Preservation.
Context (R : relation World) `{!Reflexive R, !Transitive R}.

Lemma Preserves_ret {A} (a : A) : Preserves R (mret a).
Proof. by intros w. Qed.

Lemma Preserves_throw {A} (e : Exn) : Preserves R (@throw A e).
Proof. by intros w. Qed.

Lemma Preserves_get : Preserves R get.
Proof. by intros w. Qed.

Lemma Preserves_this this : Preserves R (this_ this).
Proof. intros w. unfold this_. by destruct (_ !! _). Qed.

Lemma Preserves_modify (f : World → World) :
  (∀ w, R w (f w)) → Preserves R (modify f).
Proof. intros Hf w. apply Hf. Qed.

Lemma Preserves_bind {A B} (m : M A) (k : A → M B) :
  Preserves R m → (∀ a, Preserves R (k a)) → Preserves R (m ≫= k).
Proof.
  intros Hm Hk w. unfold mbind, M_bind.
  specialize (Hm w). destruct (m w) as [w' [e|a]]; [done|].
  etrans; [exact Hm | apply Hk].
Qed.
End Preservation.

(** Goes through the binds and the branches of a method and leaves the
    assignments, and the methods it calls, to be dealt with. *)
Ltac preserves :=
  repeat match goal with
  | |- Preserves _ (mret _) => apply Preserves_ret; apply _
  | |- Preserves _ (throw _) => apply Preserves_throw; apply _
  | |- Preserves _ get => apply Preserves_get; apply _
  | |- Preserves _ (this_ _) => apply Preserves_this; apply _
  | |- Preserves _ (fire _ _) => apply Preserves_modify; intros ?
  | |- Preserves _ (call _ _) => apply Preserves_modify; intros ?
  | |- Preserves _ (modify _) => apply Preserves_modify; intros ?
  | |- Preserves _ (_ ≫= _) => apply Preserves_bind; [apply _..| |intros ?]
  | |- Preserves _ (match ?x with _ => _ end) => destruct x
  end.

(** ** What a dispatched event does to the identities of result sets *)

Global Instance same_resultSets_refl : Reflexive same_resultSets.
Proof. done. Qed.

Global Instance same_resultSets_trans : Transitive same_resultSets.
Proof.
  intros w1 w2 w3 (Ha & Hb & Hc) (Ha' & Hb' & Hc'). split_and!; [congruence..|].
  intros i. by rewrite Hc', Hc.
Qed.

Lemma Keeps_assign this (f : Query → Query) :
  (∀ q, _resultSets (f q) = _resultSets q) → Keeps (assign this f).
Proof.
  intros Hf w. split_and!; [done..|]. intros i. simpl.
  rewrite list_lookup_alter. case_decide; [subst|done].
  destruct (queryHeap w !! i); simpl; [|done]. by rewrite Hf.
Qed.

Lemma Keeps_setState s this : Keeps (Query.setState s this).
Proof.
  unfold Keeps, Query.setState. preserves.
  - by apply Keeps_assign.
  - done.
Qed.

Lemma Keeps_handleMessage e this : Keeps (Query.handleMessage e this).
Proof.
  unfold Keeps, Query.handleMessage. preserves; try done; by apply Keeps_assign.
Qed.

Lemma Keeps_handleQueryComplete this : Keeps (Query.handleQueryComplete this).
Proof.
  unfold Keeps, Query.handleQueryComplete. preserves; [apply Keeps_setState | done].
Qed.

Lemma Keeps_handleBatchStart index t this : Keeps (Query.handleBatchStart index t this).
Proof.
  unfold Keeps, Query.handleBatchStart. preserves. by apply Keeps_assign.
Qed.

Lemma Keeps_handleBatchEnd t this : Keeps (Query.handleBatchEnd t this).
Proof. by apply Keeps_assign. Qed.

Lemma Keeps_findQuery c : Keeps (QueryService.findQuery c).
Proof. unfold Keeps, QueryService.findQuery. preserves. Qed.

Lemma Keeps_plain_listener ev :
  kindOf ev ≠ KResultSetAvailable → kindOf ev ≠ KResultSetUpdated →
  Keeps (QueryService.listener ev).
Proof.
  intros H1 H2. destruct ev; try done; unfold Keeps; cbn [QueryService.listener];
    unfold QueryService.onMessage, QueryService.onBatchStart,
      QueryService.onBatchComplete, QueryService.onQueryComplete;
    (apply Preserves_bind; [apply _..|apply Keeps_findQuery|intros ?]).
  - apply Keeps_handleMessage.
  - apply Keeps_handleBatchStart.
  - apply Keeps_handleBatchEnd.
  - apply Keeps_handleQueryComplete.
Qed.

(** Under [same_resultSets] a query keeps its identities. *)
Lemma same_resultSets_ids w w' this q :
  same_resultSets w w' →
  queryHeap w !! this = Some q → allocated w q →
  ∃ q', queryHeap w' !! this = Some q' ∧ allocated w' q' ∧
        resultSetIds w' q' = resultSetIds w q.
Proof.
  intros (_ & Hh & Hq) Hthis Hal. specialize (Hq this). rewrite Hthis in Hq.
  destruct (queryHeap w' !! this) as [q'|]; [|done].
  injection Hq as Hrefs.
  exists q'. unfold allocated, resultSetIds, Query.resultSets in *.
  by rewrite Hh, Hrefs.
Qed.

(** Reading the array after a push on the heap, and after an object has
    been replaced by one of the same identity. *)
Lemma resultSets_after_push (h : list IResultSet) (new : IResultSet) (refs : list loc) :
  Forall (λ r, (r < length h)%nat) refs →
  omap (λ r, (h ++ [new]) !! r) refs = omap (λ r, h !! r) refs.
Proof.
  intros Hv. apply list_omap_ext, Forall2_same_length_lookup. split; [done|].
  intros i r r' Hr Hr'. simplify_eq.
  rewrite lookup_app_l; [done|]. by eapply Forall_lookup_1 in Hv.
Qed.

Lemma ids_after_replace (h : list IResultSet) (r : loc) (rs rs' : IResultSet)
    (refs : list loc) :
  h !! r = Some rs → rs_id rs' = rs_id rs →
  rs_id <$> omap (λ x, <[r := rs']> h !! x) refs = rs_id <$> omap (λ x, h !! x) refs.
Proof.
  intros Hr Hid. rewrite !list_fmap_omap.
  apply list_omap_ext, Forall2_same_length_lookup. split; [done|].
  intros i x x' Hx Hx'. simplify_eq.
  destruct (decide (r = x)) as [->|].
  - rewrite list_lookup_insert_eq by (by eapply lookup_lt_Some).
    rewrite Hr; simpl. by rewrite Hid.
  - by rewrite list_lookup_insert_ne.
Qed.

(** The step of one result-set-available event, seen from the query at
    [this]. *)
Lemma available_step c e w this q :
  queryHeap w !! this = Some q → allocated w q →
  queries (QueryService.onResultSetAvailable c e w).1 = queries w ∧
  ∃ q', queryHeap (QueryService.onResultSetAvailable c e w).1 !! this = Some q' ∧
        allocated (QueryService.onResultSetAvailable c e w).1 q' ∧
        resultSetIds (QueryService.onResultSetAvailable c e w).1 q' =
          resultSetIds w q ++ announcedTo w this [EvResultSetAvailable c e].
Proof.
  intros Hq Hal. unfold QueryService.onResultSetAvailable, mbind, M_bind.
  unfold announcedTo; cbn [omap list_omap].
  destruct (queries w !! c) as [q0|] eqn:Hc.
  - rewrite (findQuery_at _ _ _ Hc).
    destruct (queryHeap w !! q0) as [Q0|] eqn:Hq0.
    + rewrite (handleResultSetAvailable_at _ _ _ _ Hq0). cbn [fst].
      split; [done|]. destruct (decide (q0 = this)) as [->|Hne].
      * rewrite decide_True by done. simplify_eq.
        eexists. split; [by eapply upd_queryHeap_lookup|].
        unfold allocated, resultSetIds, Query.resultSets in *; simpl. split.
        -- rewrite length_app; simpl. apply Forall_app. split.
           ++ eapply Forall_impl; [exact Hal|]. simpl; intros; lia.
           ++ apply Forall_singleton. lia.
        -- rewrite omap_app, fmap_app, resultSets_after_push by done.
           f_equal. simpl. by rewrite list_lookup_middle.
      * rewrite decide_False by congruence.
        exists q. unfold allocated, resultSetIds, Query.resultSets in *; simpl.
        rewrite list_lookup_insert_ne by done. split_and!; [done| |].
        -- rewrite length_app. eapply Forall_impl; [exact Hal|]. simpl; intros; lia.
        -- by rewrite resultSets_after_push, app_nil_r.
    + assert (q0 ≠ this) by congruence.
      rewrite decide_False by congruence.
      unfold Query.handleResultSetAvailable. munfold. simpl. rewrite Hq0. simpl.
      split; [done|].
      exists q. unfold allocated, resultSetIds, Query.resultSets in *; simpl.
      split_and!; [done| |].
      * rewrite length_app. eapply Forall_impl; [exact Hal|]. simpl; intros; lia.
      * by rewrite resultSets_after_push, app_nil_r.
  - rewrite (findQuery_missing _ _ Hc). cbn [fst].
    rewrite decide_False by congruence. rewrite app_nil_r. eauto.
Qed.

(** The step of one result-set-updated event: no array changes and no
    object changes its identity. *)
Lemma updated_step c e w this q :
  queryHeap w !! this = Some q → allocated w q →
  queries (QueryService.onResultSetUpdated c e w).1 = queries w ∧
  queryHeap (QueryService.onResultSetUpdated c e w).1 = queryHeap w ∧
  allocated (QueryService.onResultSetUpdated c e w).1 q ∧
  resultSetIds (QueryService.onResultSetUpdated c e w).1 q = resultSetIds w q.
Proof.
  intros Hq Hal. unfold QueryService.onResultSetUpdated, mbind, M_bind.
  destruct (queries w !! c) as [q0|] eqn:Hc.
  - rewrite (findQuery_at _ _ _ Hc).
    destruct (queryHeap w !! q0) as [Q0|] eqn:Hq0.
    + destruct (Query.findResultSet (Query.encodeId (resultIndex e) (batchIndex e))
                  (resultSetHeap w) (_resultSets Q0)) as [r|] eqn:Hf.
      * destruct (findResultSet_Some _ _ _ _ Hf) as (_ & rs & Hr & Hid).
        rewrite (handleResultSetUpdated_some _ _ _ _ _ _ Hq0 Hf Hr). cbn [fst].
        split_and!; [done..| |].
        -- unfold allocated in *; simpl. by rewrite length_insert.
        -- unfold resultSetIds, Query.resultSets; simpl.
           by apply ids_after_replace with rs.
      * by rewrite (handleResultSetUpdated_none _ _ _ _ Hq0 Hf).
    + unfold Query.handleResultSetUpdated, mbind, M_bind, this_.
      by rewrite Hq0.
  - by rewrite (findQuery_missing _ _ Hc).
Qed.

(** The step of any event. *)
Lemma listener_step ev w this q :
  queryHeap w !! this = Some q → allocated w q →
  queries (QueryService.listener ev w).1 = queries w ∧
  ∃ q', queryHeap (QueryService.listener ev w).1 !! this = Some q' ∧
        allocated (QueryService.listener ev w).1 q' ∧
        resultSetIds (QueryService.listener ev w).1 q' =
          resultSetIds w q ++ announcedTo w this [ev].
Proof.
  intros Hq Hal.
  assert (Hkeeps : ∀ m : M unit, Keeps m →
            queries (m w).1 = queries w ∧
            ∃ q', queryHeap (m w).1 !! this = Some q' ∧ allocated (m w).1 q' ∧
                  resultSetIds (m w).1 q' = resultSetIds w q ++ []).
  { intros m Hm. split; [apply Hm|]. rewrite app_nil_r.
    by apply (same_resultSets_ids w _ this q (Hm w)). }
  destruct ev as [c m|c e|c e|c t i|c t|c];
    try (by apply Hkeeps, Keeps_plain_listener).
  - by apply available_step.
  - destruct (updated_step c e w this q Hq Hal) as (H1 & H2 & H3 & H4).
    split; [done|]. exists q. cbn [QueryService.listener]. rewrite H2.
    unfold announcedTo; simpl. by rewrite app_nil_r.
Qed.

Lemma announcedTo_registry w w' this evs :
  queries w' = queries w → announcedTo w' this evs = announcedTo w this evs.
Proof. intros H. unfold announcedTo. by rewrite H. Qed.

Lemma dispatchAll_ids evs : ∀ w this q,
  queryHeap w !! this = Some q → allocated w q →
  ∃ q', queryHeap (dispatchAll evs w) !! this = Some q' ∧
        allocated (dispatchAll evs w) q' ∧
        resultSetIds (dispatchAll evs w) q' = resultSetIds w q ++ announcedTo w this evs.
Proof.
  induction evs as [|ev evs IH]; intros w this q Hq Hal.
  - exists q. unfold announcedTo; simpl. by rewrite app_nil_r.
  - destruct (listener_step ev w this q Hq Hal) as (Hreg & q1 & Hq1 & Hal1 & Hids1).
    destruct (IH _ this q1 Hq1 Hal1) as (q' & Hq' & Hal' & Hids').
    exists q'. change (dispatchAll (ev :: evs) w)
      with (dispatchAll evs (QueryService.listener ev w).1).
    split_and!; [done..|].
    rewrite Hids', Hids1, (announcedTo_registry _ _ _ _ Hreg), <- app_assoc.
    f_equal. unfold announcedTo. by rewrite <- omap_app.
Qed.

(** ** The composite identity *)

Lemma pretty_N_go_free (x : N) (s : string) :
  free_of "_"%char s → free_of "_"%char (pretty_N_go x s).
Proof.
  revert s. induction (N.lt_wf_0 x) as [x _ IH]; intros s Hs.
  assert (x = 0 ∨ 0 < x)%N as [->|?] by lia.
  - by rewrite pretty_N_go_0.
  - rewrite pretty_N_go_step by done. apply IH.
    { by apply N.div_lt. }
    simpl. split; [|done]. unfold pretty_N_char. by repeat case_match.
Qed.

Lemma pretty_N_free (x : N) : free_of "_"%char (pretty x).
Proof.
  unfold pretty, pretty_N. case_decide; [by simpl|].
  by apply pretty_N_go_free.
Qed.

Lemma pretty_Z_free (z : Z) : free_of "_"%char (pretty z).
Proof.
  destruct z as [|p|p]; unfold pretty, pretty_Z.
  - by simpl.
  - apply pretty_N_free.
  - simpl. split; [done|]. apply pretty_N_free.
Qed.

(** A string is cut in one way only at the first occurrence of a
    character. *)
Lemma cut_at_first c (s1 s2 t1 t2 : string) :
  free_of c s1 → free_of c s2 →
  s1 +:+ String c t1 = s2 +:+ String c t2 → s1 = s2 ∧ t1 = t2.
Proof.
  revert s2. induction s1 as [|a s1 IH]; intros [|b s2] H1 H2 Heq; simpl in *.
  - by simplify_eq.
  - destruct H2 as [Hb _]. by simplify_eq.
  - destruct H1 as [Ha _]. by simplify_eq.
  - destruct H1 as [_ H1], H2 as [_ H2]. simplify_eq.
    destruct (IH s2 H1 H2) as [-> ->]; done.
Qed.

(** Two pairs of indices with one encoded identity are one pair. *)
Lemma encodeId_inj a b c d :
  Query.encodeId a b = Query.encodeId c d → a = c ∧ b = d.
Proof.
  unfold Query.encodeId. intros H.
  apply cut_at_first in H as [Ha Hb]; [|apply pretty_Z_free..].
  split; by apply (inj pretty).
Qed.

(** ** Uniqueness of the identities *)

(** C5, as stated, fails: two result-set-available events under one
    identity leave two result sets of that identity. *)
Lemma resultSetAvailable_twice_duplicates :
  ¬ (∀ evs w this q,
        queryHeap w !! this = Some q → allocated w q →
        NoDup (resultSetIds w q) →
        ∃ q', queryHeap (dispatchAll evs w) !! this = Some q' ∧
              NoDup (resultSetIds (dispatchAll evs w) q')).
Proof.
  intros H.
  destruct (H [EvResultSetAvailable "file:///a.sql" (mkSummary 0 0 5 [] false);
               EvResultSetAvailable "file:///a.sql" (mkSummary 0 0 7 [] true)]
              (Scenario.world Scenario.fresh true) 0%nat Scenario.fresh
              eq_refl (Forall_nil_2 _) (NoDup_nil_2))
    as (q' & Hq' & Hnd).
  vm_compute in Hq'. injection Hq' as <-.
  vm_compute in Hnd.
  apply NoDup_cons in Hnd as [Hnotin _]. apply Hnotin. by left.
Qed.

(** C5, amended: a result-set-updated event changes no array of result
    sets and no identity, so it never appends an entry; a
    result-set-available event routed to a query always appends one
    entry, whether or not its identity is present already. After any
    sequence of dispatched provider events the identities of the result
    sets of a query are the former ones followed by those announced to it
    by the result-set-available events, in order; they are unique exactly
    when that list has no repetition, and two pairs of indices with the
    same identity are the same pair. *)
Theorem resultSet_identities evs w this q :
  queryHeap w !! this = Some q → allocated w q →
  (∀ c e,
     queryHeap (QueryService.onResultSetUpdated c e w).1 = queryHeap w ∧
     resultSetIds (QueryService.onResultSetUpdated c e w).1 q = resultSetIds w q) ∧
  (∀ c e, queries w !! c = Some this →
     ∃ q', queryHeap (QueryService.onResultSetAvailable c e w).1 !! this = Some q' ∧
           resultSetIds (QueryService.onResultSetAvailable c e w).1 q' =
             resultSetIds w q ++ [Query.encodeId (resultIndex e) (batchIndex e)]) ∧
  (∃ q', queryHeap (dispatchAll evs w) !! this = Some q' ∧
         resultSetIds (dispatchAll evs w) q' =
           resultSetIds w q ++ announcedTo w this evs ∧
         (NoDup (resultSetIds (dispatchAll evs w) q') ↔
          NoDup (resultSetIds w q ++ announcedTo w this evs))) ∧
  (∀ a b c d, Query.encodeId a b = Query.encodeId c d → a = c ∧ b = d).
Proof.
  intros Hq Hal. split_and!.
  - intros c e. destruct (updated_step c e w this q Hq Hal) as (_ & H2 & _ & H4).
    by split.
  - intros c e Hc.
    destruct (available_step c e w this q Hq Hal) as (_ & q' & Hq' & _ & Hids).
    exists q'. split; [done|]. rewrite Hids. unfold announcedTo; simpl.
    by rewrite decide_True.
  - destruct (dispatchAll_ids evs w this q Hq Hal) as (q' & Hq' & _ & Hids).
    exists q'. split_and!; [done..|]. by rewrite Hids.
  - apply encodeId_inj.
Qed.

Lemma resultSet_identities_witness :
  ∃ q', queryHeap
          (dispatchAll
             [EvResultSetAvailable "file:///a.sql" (mkSummary 0 0 5 [] false);
              EvResultSetUpdated "file:///a.sql" (mkSummary 0 0 9 [] true);
              EvResultSetAvailable "file:///a.sql" (mkSummary 0 0 7 [] true)]
             (Scenario.world Scenario.fresh true)) !! 0%nat = Some q' ∧
        resultSetIds
          (dispatchAll
             [EvResultSetAvailable "file:///a.sql" (mkSummary 0 0 5 [] false);
              EvResultSetUpdated "file:///a.sql" (mkSummary 0 0 9 [] true);
              EvResultSetAvailable "file:///a.sql" (mkSummary 0 0 7 [] true)]
             (Scenario.world Scenario.fresh true)) q' = ["0_0"; "0_0"].
Proof.
  destruct (resultSet_identities
              [EvResultSetAvailable "file:///a.sql" (mkSummary 0 0 5 [] false);
               EvResultSetUpdated "file:///a.sql" (mkSummary 0 0 9 [] true);
               EvResultSetAvailable "file:///a.sql" (mkSummary 0 0 7 [] true)]
              (Scenario.world Scenario.fresh true) 0%nat Scenario.fresh
              eq_refl (Forall_nil_2 _))
    as (_ & _ & (q' & Hq' & Hids & _) & _).
  exists q'. split; [exact Hq' | exact Hids].
Defined.

(** ** Registration of providers *)

Lemma registerProvider_at p w :
  QueryService.registerProvider p w =
    (mkWorld (directory w)
       (<[id p := mkStub p (mkDisposable p (nextToken w))]> (queryProviders w))
       (queries w) (queryHeap w) (resultSetHeap w)
       (<[obj p := QueryService.listenersOf w p ++ sixListeners (nextToken w)]>
          (listeners w))
       (S (nextToken w)) (trace w),
     inr (mkDisposable p (nextToken w))).
Proof.
  destruct w as [dir provs qs qh rh ls nt tr].
  unfold QueryService.registerProvider, QueryService.subscribe,
    QueryService.listenersOf.
  munfold. wsimpl.
  rewrite !lookup_insert_eq, !insert_insert_eq.
  cbv [from_option Datatypes.id]. by rewrite <- !app_assoc.
Qed.

(** The six filters of [dispose], one after the other. *)
Lemma unsubscribe_all token (ls : list (EventKind * nat)) :
  filter (λ l, l ≠ (KQueryComplete, token))
    (filter (λ l, l ≠ (KBatchComplete, token))
      (filter (λ l, l ≠ (KBatchStart, token))
        (filter (λ l, l ≠ (KResultSetUpdated, token))
          (filter (λ l, l ≠ (KResultSetAvailable, token))
            (filter (λ l, l ≠ (KMessage, token)) ls))))) =
  withoutToken token ls.
Proof.
  unfold withoutToken. rewrite !list_filter_filter.
  apply list_filter_iff. intros [k t]; simpl. split.
  - intros H Ht. subst t. decompose [and] H. destruct k; congruence.
  - intros H. split_and!; congruence.
Qed.

Lemma dispose_at d w :
  QueryService.dispose d w =
    (mkWorld (directory w)
       (delete (id (d_provider d)) (queryProviders w))
       (queries w) (queryHeap w) (resultSetHeap w)
       (alter (withoutToken (d_token d)) (obj (d_provider d)) (listeners w))
       (nextToken w) (trace w),
     inr ()).
Proof.
  destruct w as [dir provs qs qh rh ls nt tr].
  unfold QueryService.dispose, QueryService.unsubscribe.
  munfold. wsimpl.
  do 2 f_equal. rewrite !alter_alter_eq.
  apply alter_ext. intros l _. apply unsubscribe_all.
Qed.

Lemma listenersOf_dispose d w p :
  QueryService.listenersOf (QueryService.dispose d w).1 p =
    if decide (obj p = obj (d_provider d))
    then withoutToken (d_token d) (QueryService.listenersOf w p)
    else QueryService.listenersOf w p.
Proof.
  rewrite dispose_at. unfold QueryService.listenersOf; cbn [fst listeners].
  case_decide as Ho.
  - rewrite Ho, lookup_alter_eq. by destruct (listeners w !! _).
  - by rewrite lookup_alter_ne.
Qed.

Lemma withoutToken_app token (l1 l2 : list (EventKind * nat)) :
  withoutToken token (l1 ++ l2) = withoutToken token l1 ++ withoutToken token l2.
Proof. apply filter_app. Qed.

Lemma withoutToken_six token : withoutToken token (sixListeners token) = [].
Proof.
  unfold withoutToken, sixListeners, allKinds; simpl.
  by rewrite !filter_cons_False, filter_nil by (simpl; tauto).
Qed.

Lemma filter_all {A} (P : A → Prop) `{!∀ x, Decision (P x)} (l : list A) :
  Forall P l → filter P l = l.
Proof.
  induction 1 as [|x l Hx _ IH]; [done|].
  by rewrite filter_cons_True, IH.
Qed.

Lemma withoutToken_fresh w p :
  tokens_fresh w →
  withoutToken (nextToken w) (QueryService.listenersOf w p) =
    QueryService.listenersOf w p.
Proof.
  intros Hf. unfold withoutToken, QueryService.listenersOf.
  destruct (listeners w !! obj p) as [ls|] eqn:Hls; simpl; [|done].
  apply filter_all, Forall_forall. intros l Hl.
  specialize (Hf _ _ _ Hls Hl). lia.
Qed.

(** A provider whose listeners are those of one registration has each
    event handled once. *)
Lemma deliver_six token ev w :
  QueryService.deliver (sixListeners token) ev w =
    let (w', r) := QueryService.listener ev w in (w', [r]).
Proof.
  unfold sixListeners, allKinds.
  destruct ev; cbn [QueryService.deliver kindOf fmap list_fmap];
    repeat (rewrite decide_False by done);
    rewrite decide_True by done;
    destruct (QueryService.listener _ w) as [w' r];
    repeat (rewrite decide_False by done); done.
Qed.

Lemma registerProvider_result p w :
  (QueryService.registerProvider p w).2 = inr (mkDisposable p (nextToken w)).
Proof. by rewrite registerProvider_at. Qed.

Lemma registerProvider_nextToken p w :
  nextToken (QueryService.registerProvider p w).1 = S (nextToken w).
Proof. by rewrite registerProvider_at. Qed.

Lemma registerProvider_directory p w :
  directory (QueryService.registerProvider p w).1 = directory w.
Proof. by rewrite registerProvider_at. Qed.

Lemma registerProvider_queryProviders p w :
  queryProviders (QueryService.registerProvider p w).1 =
    <[id p := mkStub p (mkDisposable p (nextToken w))]> (queryProviders w).
Proof. by rewrite registerProvider_at. Qed.

Lemma listenersOf_register p w p' :
  QueryService.listenersOf (QueryService.registerProvider p w).1 p' =
    if decide (obj p' = obj p)
    then QueryService.listenersOf w p' ++ sixListeners (nextToken w)
    else QueryService.listenersOf w p'.
Proof.
  rewrite registerProvider_at. unfold QueryService.listenersOf; cbn [fst listeners].
  case_decide as Ho.
  - by rewrite Ho, lookup_insert_eq.
  - by rewrite lookup_insert_ne.
Qed.

(** What two registrations under one identity leave behind. *)
Lemma registerProvider_twice_at w p1 p2 :
  id p1 = id p2 → obj p1 ≠ obj p2 →
  let w2 := (QueryService.registerProvider p2 (QueryService.registerProvider p1 w).1).1 in
  queryProviders w2 !! id p1 = Some (mkStub p2 (mkDisposable p2 (S (nextToken w)))) ∧
  QueryService.listenersOf w2 p1 =
    QueryService.listenersOf w p1 ++ sixListeners (nextToken w) ∧
  QueryService.listenersOf w2 p2 =
    QueryService.listenersOf w p2 ++ sixListeners (S (nextToken w)).
Proof.
  intros Hid Hobj w2. subst w2. split_and!.
  - rewrite registerProvider_queryProviders, registerProvider_nextToken, Hid.
    apply lookup_insert_eq.
  - rewrite !listenersOf_register.
    rewrite (decide_False (P := obj p1 = obj p2)) by done.
    by rewrite decide_True.
  - rewrite !listenersOf_register, registerProvider_nextToken.
    rewrite (decide_True (P := obj p2 = obj p2)) by done.
    by rewrite decide_False.
Qed.

(** C1, as stated, fails: after a second provider has been registered
    under the identity of a first one, the first one still has its six
    listeners, and a message it emits is handled. *)
Lemma reregistration_keeps_old_listeners :
  ¬ (∀ w p1 p2 ev,
        id p1 = id p2 → obj p1 ≠ obj p2 →
        QueryService.listenersOf w p1 = [] →
        let w2 :=
          (QueryService.registerProvider p2
             (QueryService.registerProvider p1 w).1).1 in
        QueryService.listenersOf w2 p1 = [] ∧
        QueryService.emit p1 ev w2 = (w2, [])).
Proof.
  intros H.
  destruct (H (Scenario.world Scenario.idle false) Scenario.mssql Scenario.mssql'
              (EvMessage "file:///a.sql" (inl (mkMessage "late" None)))
              eq_refl ltac:(discriminate) eq_refl) as [Hl _].
  vm_compute in Hl. discriminate.
Qed.

(** C1, amended: a second registration under the identity of a first
    one replaces the entry of the registry, so the documents of that
    identity resolve to the provider registered last; it revokes nothing:
    each of the two providers has, after it, the listeners it had before
    and the six of its own registration, and an event emitted by either
    is handled by the service, once when the provider had no listener
    before. *)
Theorem registerProvider_twice w p1 p2 :
  id p1 = id p2 → obj p1 ≠ obj p2 →
  let w2 := (QueryService.registerProvider p2 (QueryService.registerProvider p1 w).1).1 in
  queryProviders w2 !! id p1 = Some (mkStub p2 (mkDisposable p2 (S (nextToken w)))) ∧
  (∀ file, directory w !! toString file = Some (id p1) →
     ServiceHelpers.withProvider file w2 = (w2, inr p2)) ∧
  QueryService.listenersOf w2 p1 =
    QueryService.listenersOf w p1 ++ sixListeners (nextToken w) ∧
  QueryService.listenersOf w2 p2 =
    QueryService.listenersOf w p2 ++ sixListeners (S (nextToken w)) ∧
  (∀ ev, QueryService.listenersOf w p1 = [] →
     QueryService.emit p1 ev w2 =
       let (w', r) := QueryService.listener ev w2 in (w', [r])) ∧
  (∀ ev, QueryService.listenersOf w p2 = [] →
     QueryService.emit p2 ev w2 =
       let (w', r) := QueryService.listener ev w2 in (w', [r])).
Proof.
  intros Hid Hobj w2.
  destruct (registerProvider_twice_at w p1 p2 Hid Hobj) as (Hreg & Hl1 & Hl2).
  fold w2 in Hreg, Hl1, Hl2. split_and!; [done| |done|done| |].
  - intros file Hd.
    apply (withProvider_found w2 file (id p1)
             (mkStub p2 (mkDisposable p2 (S (nextToken w))))); [|done].
    subst w2. by rewrite !registerProvider_directory.
  - intros ev Hnone. unfold QueryService.emit.
    rewrite Hl1, Hnone. apply deliver_six.
  - intros ev Hnone. unfold QueryService.emit.
    rewrite Hl2, Hnone. apply deliver_six.
Qed.

Lemma registerProvider_twice_witness :
  let w2 :=
    (QueryService.registerProvider Scenario.mssql'
       (QueryService.registerProvider Scenario.mssql
          (Scenario.world Scenario.idle false)).1).1 in
  queryProviders w2 !! "MSSQL" =
    Some (mkStub Scenario.mssql' (mkDisposable Scenario.mssql' 1%nat)) ∧
  QueryService.listenersOf w2 Scenario.mssql = sixListeners 0%nat ∧
  QueryService.emit Scenario.mssql
      (EvMessage "file:///a.sql" (inl (mkMessage "late" None))) w2 =
    let (w', r) :=
      QueryService.listener
        (EvMessage "file:///a.sql" (inl (mkMessage "late" None))) w2 in
    (w', [r]).
Proof.
  intros w2.
  destruct (registerProvider_twice (Scenario.world Scenario.idle false)
              Scenario.mssql Scenario.mssql' eq_refl ltac:(discriminate))
    as (Hreg & _ & Hl1 & _ & Hemit & _).
  split_and!; [exact Hreg | exact Hl1 | exact (Hemit _ eq_refl)].
Defined.

(** ** The revocation handle *)

(** C10: invoking a handle returned by [registerProvider] deletes
    whatever the registry holds under the identity of the provider of
    that handle, and nothing else of the registry. So, when a second
    provider has been registered under the identity of a first one,
    invoking the handle of the first registration deletes the entry of
    the second provider, removes the listeners of the first registration
    from the first provider, and leaves the second provider subscribed. *)
Theorem dispose_deletes_by_identity w p1 p2 :
  id p1 = id p2 → obj p1 ≠ obj p2 → tokens_fresh w →
  let r1 := QueryService.registerProvider p1 w in
  let r2 := QueryService.registerProvider p2 r1.1 in
  let d1 := mkDisposable p1 (nextToken w) in
  let d2 := mkDisposable p2 (S (nextToken w)) in
  let w3 := (QueryService.dispose d1 r2.1).1 in
  (∀ d w0,
     (QueryService.dispose d w0).2 = inr () ∧
     queryProviders (QueryService.dispose d w0).1 !! id (d_provider d) = None ∧
     ∀ k, k ≠ id (d_provider d) →
       queryProviders (QueryService.dispose d w0).1 !! k = queryProviders w0 !! k) ∧
  r1.2 = inr d1 ∧ r2.2 = inr d2 ∧
  queryProviders r2.1 !! id p2 = Some (mkStub p2 d2) ∧
  queryProviders w3 !! id p2 = None ∧
  QueryService.listenersOf w3 p1 = QueryService.listenersOf w p1 ∧
  QueryService.listenersOf w3 p2 =
    QueryService.listenersOf w p2 ++ sixListeners (S (nextToken w)).
Proof.
  intros Hid Hobj Hfresh r1 r2 d1 d2 w3.
  destruct (registerProvider_twice_at w p1 p2 Hid Hobj) as (Hreg & Hl1 & Hl2).
  split_and!.
  - intros d w0. rewrite dispose_at. cbn [fst snd queryProviders].
    split_and!; [done|apply lookup_delete_eq|].
    intros k Hk. by apply lookup_delete_ne.
  - apply registerProvider_result.
  - subst r2 d2 r1. by rewrite registerProvider_result, registerProvider_nextToken.
  - by rewrite <- Hid.
  - subst w3 d1. rewrite dispose_at. cbn [fst queryProviders d_provider].
    rewrite <- Hid. apply lookup_delete_eq.
  - subst w3 d1. rewrite listenersOf_dispose. cbn [d_provider d_token].
    rewrite decide_True by done. subst r2 r1. rewrite Hl1.
    by rewrite withoutToken_app, withoutToken_fresh, withoutToken_six, app_nil_r.
  - subst w3 d1. rewrite listenersOf_dispose. cbn [d_provider d_token].
    rewrite decide_False by done. exact Hl2.
Qed.

Lemma dispose_deletes_by_identity_witness :
  let w2 :=
    (QueryService.registerProvider Scenario.mssql'
       (QueryService.registerProvider Scenario.mssql
          (Scenario.world Scenario.idle false)).1).1 in
  let w3 := (QueryService.dispose (mkDisposable Scenario.mssql 0%nat) w2).1 in
  queryProviders w2 !! "MSSQL" =
    Some (mkStub Scenario.mssql' (mkDisposable Scenario.mssql' 1%nat)) ∧
  queryProviders w3 !! "MSSQL" = None ∧
  QueryService.listenersOf w3 Scenario.mssql = [] ∧
  QueryService.listenersOf w3 Scenario.mssql' = sixListeners 1%nat.
Proof.
  intros w2 w3.
  assert (Hfresh : tokens_fresh (Scenario.world Scenario.idle false)).
  { intros o ls l Hls. vm_compute in Hls. discriminate. }
  destruct (dispose_deletes_by_identity (Scenario.world Scenario.idle false)
              Scenario.mssql Scenario.mssql' eq_refl ltac:(discriminate) Hfresh)
    as (_ & _ & _ & H2 & H3 & Hl1 & Hl2).
  split_and!; [exact H2 | exact H3 | exact Hl1 | exact Hl2].
Defined.

(** ** The registry of queries *)

Global Instance same_registry_refl : Reflexive same_registry.
Proof. done. Qed.

Global Instance same_registry_trans : Transitive same_registry.
Proof. unfold same_registry. intros w1 w2 w3 H1 H2. congruence. Qed.

Create HintDb preserve.

(** As [preserves], and closes what the lemmas proved so far close. *)
Ltac registry :=
  preserves;
  repeat match goal with
  | |- Preserves _ (assign _ _) => apply Preserves_modify; intros ?
  | |- same_registry _ _ => done
  | |- Preserves _ _ => solve [auto with preserve]
  end.

Lemma Registry_withProvider file : Preserves same_registry (ServiceHelpers.withProvider file).
Proof. unfold ServiceHelpers.withProvider. registry. Qed.
#[local] Hint Resolve Registry_withProvider : preserve.

Lemma Registry_executeQuery file : Preserves same_registry (ServiceHelpers.executeQuery file).
Proof. unfold ServiceHelpers.executeQuery. registry. Qed.

Lemma Registry_cancelQuery file : Preserves same_registry (ServiceHelpers.cancelQuery file).
Proof. unfold ServiceHelpers.cancelQuery. registry. Qed.

Lemma Registry_fetchData file params :
  Preserves same_registry (ServiceHelpers.fetchData file params).
Proof. unfold ServiceHelpers.fetchData. registry. Qed.
#[local] Hint Resolve Registry_executeQuery Registry_cancelQuery Registry_fetchData
  : preserve.

Lemma Registry_setState s this : Preserves same_registry (Query.setState s this).
Proof. unfold Query.setState. registry. Qed.
#[local] Hint Resolve Registry_setState : preserve.

Lemma Registry_handleMessage e this : Preserves same_registry (Query.handleMessage e this).
Proof. unfold Query.handleMessage. registry. Qed.
#[local] Hint Resolve Registry_handleMessage : preserve.

Lemma Registry_execute_sync this : Preserves same_registry (Query.execute_sync this).
Proof. unfold Query.execute_sync. registry. Qed.

Lemma Registry_execute_resume now this :
  Preserves same_registry (Query.execute_resume now this).
Proof. unfold Query.execute_resume. registry. Qed.

Lemma Registry_cancel_sync this : Preserves same_registry (Query.cancel_sync this).
Proof. unfold Query.cancel_sync. registry. Qed.

Lemma Registry_cancel_resume message this :
  Preserves same_registry (Query.cancel_resume message this).
Proof. unfold Query.cancel_resume. registry. Qed.

Lemma Registry_fetch params this : Preserves same_registry (Query.fetch params this).
Proof. unfold Query.fetch. registry. Qed.

Lemma Registry_handleResultSetAvailable e this :
  Preserves same_registry (Query.handleResultSetAvailable e this).
Proof. unfold Query.handleResultSetAvailable. registry. Qed.

Lemma Registry_handleResultSetUpdated e this :
  Preserves same_registry (Query.handleResultSetUpdated e this).
Proof. unfold Query.handleResultSetUpdated. cbv zeta. registry. Qed.

Lemma Registry_handleQueryComplete this :
  Preserves same_registry (Query.handleQueryComplete this).
Proof. unfold Query.handleQueryComplete. registry. Qed.

Lemma Registry_handleBatchStart index t this :
  Preserves same_registry (Query.handleBatchStart index t this).
Proof. unfold Query.handleBatchStart. registry. Qed.

Lemma Registry_handleBatchEnd t this :
  Preserves same_registry (Query.handleBatchEnd t this).
Proof. unfold Query.handleBatchEnd. registry. Qed.

Lemma Registry_findQuery c : Preserves same_registry (QueryService.findQuery c).
Proof. unfold QueryService.findQuery. registry. Qed.

#[local] Hint Resolve Registry_handleResultSetAvailable Registry_handleResultSetUpdated
  Registry_handleQueryComplete Registry_handleBatchStart Registry_handleBatchEnd
  Registry_findQuery : preserve.

Lemma Registry_listener ev : Preserves same_registry (QueryService.listener ev).
Proof.
  destruct ev; cbn [QueryService.listener];
    unfold QueryService.onMessage, QueryService.onResultSetAvailable,
      QueryService.onResultSetUpdated, QueryService.onBatchStart,
      QueryService.onBatchComplete, QueryService.onQueryComplete; registry.
Qed.

Lemma deliver_registry ls ev : ∀ w,
  queries (QueryService.deliver ls ev w).1 = queries w.
Proof.
  induction ls as [|[k t] ls IH]; intros w; [done|].
  cbn [QueryService.deliver]. destruct (decide _); [|apply IH].
  pose proof (Registry_listener ev w) as Hl.
  destruct (QueryService.listener ev w) as [w' r].
  specialize (IH w'). destruct (QueryService.deliver ls ev w') as [w'' rs].
  simpl in *. unfold same_registry in Hl. congruence.
Qed.

Lemma createOrGetQuery_existing uri forceNew w q :
  queries w !! toString uri = Some q →
  QueryService.createOrGetQuery uri forceNew w = (w, inr q).
Proof. intros H. unfold QueryService.createOrGetQuery. munfold. by rewrite H. Qed.

Lemma createOrGetQuery_new uri forceNew w :
  queries w !! toString uri = None →
  QueryService.createOrGetQuery uri forceNew w =
    (upd_queries <[toString uri := length (queryHeap w)]>
       (upd_queryHeap (λ h, h ++ [mkQuery uri NOT_EXECUTING [] [] None None]) w),
     inr (length (queryHeap w))).
Proof. intros H. unfold QueryService.createOrGetQuery. munfold. by rewrite H. Qed.

(** What [createOrGetQuery] returns is, after the call, the entry of the
    registry for the document. *)
Lemma createOrGetQuery_registered uri forceNew w :
  ∃ q, (QueryService.createOrGetQuery uri forceNew w).2 = inr q ∧
       queries (QueryService.createOrGetQuery uri forceNew w).1 !! toString uri = Some q.
Proof.
  destruct (queries w !! toString uri) as [q|] eqn:Hq.
  - exists q. by rewrite (createOrGetQuery_existing _ _ _ _ Hq).
  - exists (length (queryHeap w)). rewrite (createOrGetQuery_new _ _ _ Hq).
    split; [done|]. cbn [fst queries upd_queries]. apply lookup_insert_eq.
Qed.

Lemma runOp_registry o w : registry_grows w (runOp o w).
Proof.
  assert (Hsame : ∀ m : M unit, Preserves same_registry m → registry_grows w (m w).1).
  { intros m Hm k q Hk. by rewrite (Hm w). }
  destruct o; cbn [runOp].
  - intros k q Hk. destruct (queries w !! toString uri) as [q0|] eqn:Hq.
    + by rewrite (createOrGetQuery_existing _ _ _ _ Hq).
    + rewrite (createOrGetQuery_new _ _ _ Hq). cbn [fst queries upd_queries].
      rewrite lookup_insert_ne; [done|]. congruence.
  - intros k q Hk. by rewrite registerProvider_at.
  - intros k q Hk. by rewrite dispose_at.
  - intros k q Hk. unfold QueryService.emit. by rewrite deliver_registry.
  - apply Hsame, Registry_execute_sync.
  - apply Hsame, Registry_execute_resume.
  - apply Hsame, Registry_cancel_sync.
  - apply Hsame, Registry_cancel_resume.
  - by intros k q Hk.
  - apply Hsame. unfold Query.resultSet_fetch. apply Registry_fetch.
Qed.

Lemma runOps_registry ops : ∀ w, registry_grows w (runOps ops w).
Proof.
  induction ops as [|o ops IH]; intros w k q Hk; [done|].
  apply (IH (runOp o w)). by apply runOp_registry.
Qed.

(** ** Execution options *)

Lemma helper_setExecutionOptions_found w file options pid stub :
  directory w !! toString file = Some pid →
  queryProviders w !! pid = Some stub →
  ServiceHelpers.setExecutionOptions file options w =
    (upd_trace
       (λ t, t ++ [Called (provider stub) (SetExecutionOptions (toString file) options)])
       w, inr ()).
Proof.
  intros Hd Hp. unfold ServiceHelpers.setExecutionOptions.
  unfold mbind, M_bind. by rewrite (withProvider_found _ _ _ _ Hd Hp).
Qed.

(** C6: [setExecutionOptions] of a query returns without a call to any
    provider and without a change of the state, whatever the options,
    also when the document of the query resolves to a registered
    provider; the helper of the service that forwards the options to
    that provider, which the query does not call, would have recorded the
    call. *)
Theorem setExecutionOptions_not_forwarded w this q options pid stub :
  queryHeap w !! this = Some q →
  directory w !! toString (associatedFile q) = Some pid →
  queryProviders w !! pid = Some stub →
  Query.setExecutionOptions options this w = (w, inr ()) ∧
  ServiceHelpers.setExecutionOptions (associatedFile q) options w =
    (upd_trace
       (λ t, t ++ [Called (provider stub)
                     (SetExecutionOptions (toString (associatedFile q)) options)])
       w, inr ()) ∧
  trace (Query.setExecutionOptions options this w).1 ≠
    trace (ServiceHelpers.setExecutionOptions (associatedFile q) options w).1.
Proof.
  intros Hq Hd Hp. split_and!.
  - done.
  - by apply helper_setExecutionOptions_found with pid.
  - rewrite (helper_setExecutionOptions_found _ _ _ _ _ Hd Hp).
    cbn [fst trace upd_trace Query.setExecutionOptions mret M_ret].
    intros Heq. apply (f_equal length) in Heq.
    rewrite length_app in Heq. simpl in Heq. lia.
Qed.

Lemma setExecutionOptions_not_forwarded_witness :
  Query.setExecutionOptions {[ "rowCount" := SNumber 10 ]} 0%nat
      (Scenario.world Scenario.idle true) =
    (Scenario.world Scenario.idle true, inr ()) ∧
  ServiceHelpers.setExecutionOptions Scenario.fileA {[ "rowCount" := SNumber 10 ]}
      (Scenario.world Scenario.idle true) =
    (upd_trace
       (λ t, t ++ [Called Scenario.mssql
                     (SetExecutionOptions "file:///a.sql" {[ "rowCount" := SNumber 10 ]})])
       (Scenario.world Scenario.idle true), inr ()).
Proof.
  destruct (setExecutionOptions_not_forwarded (Scenario.world Scenario.idle true)
              0%nat Scenario.idle {[ "rowCount" := SNumber 10 ]} "MSSQL"
              (mkStub Scenario.mssql (mkDisposable Scenario.mssql 0%nat))
              eq_refl eq_refl eq_refl) as (H1 & H2 & _).
  split; [exact H1 | exact H2].
Defined.

(** ** Every state that the service reaches is well formed *)

Global Instance within_refl : Reflexive within.
Proof. intros w. unfold within. split_and!; [done..|]. intros i q Hq. by exists q. Qed.

Global Instance within_trans : Transitive within.
Proof.
  intros w1 w2 w3 (H1 & H2 & H3 & H4 & H5 & H6) (H1' & H2' & H3' & H4' & H5' & H6').
  unfold within. split_and!; [congruence..|lia|].
  intros i q3 Hq3. destruct (H6' i q3 Hq3) as (q2 & Hq2 & Hsub').
  destruct (H6 i q2 Hq2) as (q1 & Hq1 & Hsub). exists q1. split; [done|].
  by etrans.
Qed.

Lemma within_wf w w' : within w w' → wf w → wf w'.
Proof.
  intros (H1 & H2 & H3 & H4 & H5 & H6) (Hreg & Hal & Htok). split_and!.
  - intros k q Hk. rewrite H1 in Hk. rewrite H4. by eapply Hreg.
  - intros i q' Hq'. destruct (H6 i q' Hq') as (q & Hq & Hsub).
    specialize (Hal i q Hq). unfold allocated in *.
    rewrite Forall_forall in Hal. apply Forall_forall. intros r Hr.
    specialize (Hal r (Hsub r Hr)). lia.
  - intros o ls l Hls Hl. rewrite H2 in Hls. rewrite H3. by eapply Htok.
Qed.

Lemma within_trace (f : list Effect → list Effect) w : within w (upd_trace f w).
Proof. unfold within. split_and!; [done..|]. intros i q Hq. by exists q. Qed.

Lemma within_assign this (f : Query → Query) :
  (∀ q, _resultSets (f q) ⊆ _resultSets q) → Preserves within (assign this f).
Proof.
  intros Hf w. unfold within. cbn [assign modify fst queries listeners nextToken
    queryHeap resultSetHeap upd_queryHeap].
  split_and!; [done..|by rewrite length_alter|done|].
  intros i q' Hq'. rewrite list_lookup_alter in Hq'. case_decide; [subst|by exists q'].
  destruct (queryHeap w !! i) as [q|]; simplify_eq/=. exists q. split; [done|apply Hf].
Qed.

Lemma within_replace r (f : IResultSet → IResultSet) w :
  within w (upd_resultSetHeap (alter f r) w).
Proof.
  unfold within. cbn [queries listeners nextToken queryHeap resultSetHeap
    upd_resultSetHeap].
  split_and!; [done..|by rewrite length_alter|]. intros i q Hq. by exists q.
Qed.

Create HintDb within.

(** As [preserves], with the assignments of the methods. *)
Ltac stays_within :=
  preserves;
  repeat match goal with
  | |- Preserves within (assign _ _) =>
      apply within_assign; intros ?; simpl; set_solver
  | |- within _ (upd_trace _ _) => apply within_trace
  | |- within _ (upd_resultSetHeap (alter _ _) _) => apply within_replace
  | |- Preserves _ _ => solve [auto with within]
  end.

Lemma Within_withProvider file : Preserves within (ServiceHelpers.withProvider file).
Proof. unfold ServiceHelpers.withProvider. stays_within. Qed.
#[local] Hint Resolve Within_withProvider : within.

Lemma Within_executeQuery file : Preserves within (ServiceHelpers.executeQuery file).
Proof. unfold ServiceHelpers.executeQuery. stays_within. Qed.

Lemma Within_cancelQuery file : Preserves within (ServiceHelpers.cancelQuery file).
Proof. unfold ServiceHelpers.cancelQuery. stays_within. Qed.

Lemma Within_fetchData file params : Preserves within (ServiceHelpers.fetchData file params).
Proof. unfold ServiceHelpers.fetchData. stays_within. Qed.
#[local] Hint Resolve Within_executeQuery Within_cancelQuery Within_fetchData : within.

Lemma Within_setState s this : Preserves within (Query.setState s this).
Proof. unfold Query.setState. stays_within. Qed.
#[local] Hint Resolve Within_setState : within.

Lemma Within_handleMessage e this : Preserves within (Query.handleMessage e this).
Proof. unfold Query.handleMessage. stays_within. Qed.
#[local] Hint Resolve Within_handleMessage : within.

Lemma Within_execute_sync this : Preserves within (Query.execute_sync this).
Proof. unfold Query.execute_sync. stays_within. Qed.

Lemma Within_execute_resume now this : Preserves within (Query.execute_resume now this).
Proof. unfold Query.execute_resume. stays_within. Qed.

Lemma Within_cancel_sync this : Preserves within (Query.cancel_sync this).
Proof. unfold Query.cancel_sync. stays_within. Qed.

Lemma Within_cancel_resume message this :
  Preserves within (Query.cancel_resume message this).
Proof. unfold Query.cancel_resume. stays_within. Qed.

Lemma Within_fetch params this : Preserves within (Query.fetch params this).
Proof. unfold Query.fetch. stays_within. Qed.

Lemma Within_handleResultSetUpdated e this :
  Preserves within (Query.handleResultSetUpdated e this).
Proof. unfold Query.handleResultSetUpdated. cbv zeta. stays_within. Qed.

Lemma Within_handleQueryComplete this : Preserves within (Query.handleQueryComplete this).
Proof. unfold Query.handleQueryComplete. stays_within. Qed.

Lemma Within_handleBatchStart index t this :
  Preserves within (Query.handleBatchStart index t this).
Proof. unfold Query.handleBatchStart. stays_within. Qed.

Lemma Within_handleBatchEnd t this : Preserves within (Query.handleBatchEnd t this).
Proof. unfold Query.handleBatchEnd. stays_within. Qed.

Lemma Within_findQuery c : Preserves within (QueryService.findQuery c).
Proof. unfold QueryService.findQuery. stays_within. Qed.

(** A result-set-available event is the one step that gives a query a
    new entry; the object is pushed on the heap first. *)
Lemma wf_handleResultSetAvailable e this w :
  wf w → wf (Query.handleResultSetAvailable e this w).1.
Proof.
  intros (Hreg & Hal & Htok).
  destruct (queryHeap w !! this) as [q|] eqn:Hq.
  - rewrite (handleResultSetAvailable_at _ _ _ _ Hq). cbn [fst].
    unfold wf, allocated, tokens_fresh.
    cbn [queries listeners nextToken queryHeap resultSetHeap upd_trace
         upd_queryHeap upd_resultSetHeap].
    split_and!.
    + intros k q0 Hk. rewrite length_insert. by eapply Hreg.
    + intros i q' Hq'. rewrite length_app. cbn [length].
      destruct (decide (this = i)) as [->|Hne].
      * rewrite list_lookup_insert_eq in Hq' by (by eapply lookup_lt_Some).
        simplify_eq/=. apply Forall_app. split.
        -- eapply Forall_impl; [exact (Hal i q Hq)|]. simpl; intros; lia.
        -- apply Forall_singleton. lia.
      * rewrite list_lookup_insert_ne in Hq' by done.
        eapply Forall_impl; [exact (Hal i q' Hq')|]. simpl; intros; lia.
    + exact Htok.
  - unfold Query.handleResultSetAvailable. munfold. cbn [fst]. wsimpl.
    unfold wf, allocated, tokens_fresh. destruct w as [dir provs qs qh rh ls nt tr].
    cbn [queries listeners nextToken queryHeap resultSetHeap] in *.
    rewrite Hq. cbn [fst queries listeners nextToken queryHeap resultSetHeap].
    split_and!; [done| |done].
    intros i q' Hq'. rewrite length_app.
    eapply Forall_impl; [exact (Hal i q' Hq')|]. simpl; intros; lia.
Qed.

Lemma wf_listener ev w : wf w → wf (QueryService.listener ev w).1.
Proof.
  intros Hwf.
  assert (Hw : ∀ m : M unit, Preserves within m → wf (m w).1).
  { intros m Hm. apply (within_wf w); [apply Hm | done]. }
  pose proof Within_findQuery. pose proof Within_handleMessage.
  pose proof Within_handleResultSetUpdated. pose proof Within_handleBatchStart.
  pose proof Within_handleBatchEnd. pose proof Within_handleQueryComplete.
  destruct ev as [c m|c e|c e|c t i|c t|c]; cbn [QueryService.listener];
    try (apply Hw;
         unfold QueryService.onMessage, QueryService.onResultSetUpdated,
           QueryService.onBatchStart, QueryService.onBatchComplete,
           QueryService.onQueryComplete;
         apply Preserves_bind; [apply _..|done|done]).
  unfold QueryService.onResultSetAvailable, mbind, M_bind.
  destruct (queries w !! c) as [q|] eqn:Hc.
  - rewrite (findQuery_at _ _ _ Hc). by apply wf_handleResultSetAvailable.
  - by rewrite (findQuery_missing _ _ Hc).
Qed.

Lemma wf_deliver ls ev : ∀ w, wf w → wf (QueryService.deliver ls ev w).1.
Proof.
  induction ls as [|[k t] ls IH]; intros w Hwf; [done|].
  cbn [QueryService.deliver]. destruct (decide _); [|by apply IH].
  pose proof (wf_listener ev w Hwf) as Hl.
  destruct (QueryService.listener ev w) as [w' r].
  specialize (IH w' Hl). by destruct (QueryService.deliver ls ev w') as [w'' rs].
Qed.

Lemma wf_createOrGetQuery uri forceNew w :
  wf w → wf (QueryService.createOrGetQuery uri forceNew w).1.
Proof.
  intros (Hreg & Hal & Htok).
  destruct (queries w !! toString uri) as [q|] eqn:Hq.
  - by rewrite (createOrGetQuery_existing _ _ _ _ Hq).
  - rewrite (createOrGetQuery_new _ _ _ Hq). cbn [fst].
    unfold wf, allocated, tokens_fresh.
    cbn [queries listeners nextToken queryHeap resultSetHeap upd_queries upd_queryHeap].
    split_and!; [| |done].
    + intros k q0 Hk. rewrite length_app; cbn [length].
      destruct (decide (toString uri = k)) as [<-|Hne].
      * rewrite lookup_insert_eq in Hk. simplify_eq. lia.
      * rewrite lookup_insert_ne in Hk by done. specialize (Hreg k q0 Hk). lia.
    + intros i q' Hq'. apply lookup_snoc_Some in Hq' as [[_ Hq']|[_ <-]].
      * by eapply Hal.
      * apply Forall_nil_2.
Qed.

Lemma wf_registerProvider p w : wf w → wf (QueryService.registerProvider p w).1.
Proof.
  intros (Hreg & Hal & Htok). rewrite registerProvider_at. cbn [fst].
  unfold wf, allocated, tokens_fresh in *.
  cbn [queries listeners nextToken queryHeap resultSetHeap].
  split_and!; [done..|].
  intros o ls l Hls Hl. destruct (decide (obj p = o)) as [<-|Hne].
  - rewrite lookup_insert_eq in Hls. simplify_eq.
    apply elem_of_app in Hl as [Hl|Hl].
    + unfold QueryService.listenersOf in Hl.
      destruct (listeners w !! obj p) as [ls0|] eqn:Hls0; simpl in Hl.
      * specialize (Htok _ _ _ Hls0 Hl). lia.
      * by apply elem_of_nil in Hl.
    + unfold sixListeners in Hl. apply list_elem_of_fmap in Hl as (k & -> & _).
      simpl. lia.
  - rewrite lookup_insert_ne in Hls by done. specialize (Htok _ _ _ Hls Hl). lia.
Qed.

Lemma wf_dispose d w : wf w → wf (QueryService.dispose d w).1.
Proof.
  intros (Hreg & Hal & Htok). rewrite dispose_at. cbn [fst].
  unfold wf, allocated, tokens_fresh in *.
  cbn [queries listeners nextToken queryHeap resultSetHeap].
  split_and!; [done..|].
  intros o ls l Hls Hl. rewrite lookup_alter in Hls. case_decide; [subst|by eapply Htok].
  destruct (listeners w !! obj (d_provider d)) as [ls0|] eqn:Hls0; simplify_eq/=.
  unfold withoutToken in Hl. apply list_elem_of_filter in Hl as [_ Hl].
  by eapply Htok.
Qed.

Lemma wf_runOp o w : wf w → wf (runOp o w).
Proof.
  intros Hwf.
  assert (Hw : ∀ m : M unit, Preserves within m → wf (m w).1).
  { intros m Hm. apply (within_wf w); [apply Hm | done]. }
  destruct o; cbn [runOp].
  - by apply wf_createOrGetQuery.
  - by apply wf_registerProvider.
  - by apply wf_dispose.
  - by apply wf_deliver.
  - apply Hw, Within_execute_sync.
  - apply Hw, Within_execute_resume.
  - apply Hw, Within_cancel_sync.
  - apply Hw, Within_cancel_resume.
  - done.
  - apply Hw, Within_fetch.
Qed.

Lemma wf_initial dir : wf (initial dir).
Proof.
  unfold wf, initial, tokens_fresh; cbn [queries queryHeap listeners nextToken].
  split_and!.
  - intros k q Hk. by rewrite lookup_empty in Hk.
  - intros i q Hq. by rewrite lookup_nil in Hq.
  - intros o ls l Hls. by rewrite lookup_empty in Hls.
Qed.

Lemma wf_runOps ops : ∀ w, wf w → wf (runOps ops w).
Proof.
  induction ops as [|o ops IH]; intros w Hwf; [done|].
  apply (IH (runOp o w)). by apply wf_runOp.
Qed.

(** Whatever happens to a service from its creation on, its state is well
    formed: the hypotheses [allocated] and [tokens_fresh] of the
    statements above hold of every state it reaches. *)
Lemma wf_reachable dir ops : wf (runOps ops (initial dir)).
Proof. apply wf_runOps, wf_initial. Qed.

(** ** Asking twice for the query of a document *)

(** C9: the second of two calls of [createOrGetQuery] for one document
    returns the location that the first one returned, whatever happened
    to the service in between, and changes nothing: the query is the same
    object and holds what it has accumulated (in a well-formed state it
    is an object of the heap). This is so for every value of [forceNew]
    in either call; with [forceNew] set the second call creates no query,
    it returns the existing one. *)
Theorem createOrGetQuery_twice uri forceNew1 forceNew2 ops w :
  let w2 := runOps ops (QueryService.createOrGetQuery uri forceNew1 w).1 in
  ∃ q, (QueryService.createOrGetQuery uri forceNew1 w).2 = inr q ∧
       QueryService.createOrGetQuery uri forceNew2 w2 = (w2, inr q) ∧
       (wf w → is_Some (queryHeap w2 !! q)).
Proof.
  intros w2.
  destruct (createOrGetQuery_registered uri forceNew1 w) as (q & Hr & Hq).
  assert (Hq2 : queries w2 !! toString uri = Some q) by by apply runOps_registry.
  exists q. split_and!; [done| |].
  - by apply createOrGetQuery_existing.
  - intros Hwf. apply lookup_lt_is_Some_2.
    assert (Hwf2 : wf w2) by by apply wf_runOps, wf_createOrGetQuery.
    destruct Hwf2 as (Hreg & _). by eapply Hreg.
Qed.

Lemma createOrGetQuery_twice_witness :
  let w2 :=
    runOps [OpEmit Scenario.mssql
              (EvMessage "file:///a.sql" (inl (mkMessage "late" None)))]
      (QueryService.createOrGetQuery Scenario.fileA None
         (Scenario.world Scenario.idle true)).1 in
  QueryService.createOrGetQuery Scenario.fileA (Some true) w2 = (w2, inr 0%nat) ∧
  queryHeap w2 !! 0%nat =
    Some (mkQuery Scenario.fileA NOT_EXECUTING
            [Scenario.hello; mkMessage "late" None] [0%nat] (Some 5) (Some 9)).
Proof.
  intros w2.
  destruct (createOrGetQuery_twice Scenario.fileA None (Some true)
              [OpEmit Scenario.mssql
                 (EvMessage "file:///a.sql" (inl (mkMessage "late" None)))]
              (Scenario.world Scenario.idle true)) as (q & Hq & H2 & _).
  vm_compute in Hq. injection Hq as <-.
  split; [exact H2 | reflexivity].
Defined.

(** * Further properties *)

(** ** Events of an unknown connection *)

(** X1: a provider event whose correlation key is the key of no query
    is not dropped: its listener throws "Could not find query with
    connection ..." and nothing of the state has changed. *)
Theorem listener_unknown_connection ev w :
  queries w !! connectionIdOf ev = None →
  QueryService.listener ev w =
    (w, inl (Error ("Could not find query with connection " +:+ connectionIdOf ev))).
Proof.
  intros Hc. destruct ev; cbn [QueryService.listener connectionIdOf] in *;
    unfold QueryService.onMessage, QueryService.onResultSetAvailable,
      QueryService.onResultSetUpdated, QueryService.onBatchStart,
      QueryService.onBatchComplete, QueryService.onQueryComplete, mbind, M_bind;
    by rewrite (findQuery_missing _ _ Hc).
Qed.

Lemma listener_unknown_connection_witness :
  QueryService.listener
      (EvResultSetAvailable "file:///b.sql" (mkSummary 0 0 5 [] false))
      (Scenario.world Scenario.running true) =
    (Scenario.world Scenario.running true,
     inl (Error "Could not find query with connection file:///b.sql")).
Proof.
  apply (listener_unknown_connection
           (EvResultSetAvailable "file:///b.sql" (mkSummary 0 0 5 [] false))
           (Scenario.world Scenario.running true)).
  reflexivity.
Defined.

(** ** Cancellation *)

Lemma handleMessage_at w this q e :
  queryHeap w !! this = Some q →
  Query.handleMessage e this w =
    (upd_trace (λ t, t ++ [Fired this (OnMessage e)])
       (upd_queryHeap <[this := set_messages (_messages q ++ pushed e) q]> w),
     inr ()).
Proof.
  intros Hq. unfold Query.handleMessage.
  unfold mbind at 1, M_bind at 1. rewrite (this_at _ _ _ Hq).
  destruct e as [m|ms]; munfold; rewrite (upd_queryHeap_alter _ _ _ _ Hq);
    reflexivity.
Qed.

Lemma cancel_resume_at w this q message :
  queryHeap w !! this = Some q →
  Query.cancel_resume message this w =
    (upd_trace
       (λ t, t ++ Fired this (OnMessage (inl (mkMessage message None)))
                    :: leftExecuting this (_state q))
       (upd_queryHeap <[this := cancelled message q]> w), inr ()).
Proof.
  intros Hq. unfold Query.cancel_resume, mbind, M_bind.
  rewrite (handleMessage_at _ _ _ _ Hq).
  assert (Hlt : (this < length (queryHeap w))%nat) by by eapply lookup_lt_Some.
  erewrite setState_at by (simpl; by apply list_lookup_insert_eq).
  destruct q as [f s m r st en], w as [dir provs qs qh rh ls nt tr].
  unfold leftExecuting, cancelled, set_messages, set_state, pushed.
  destruct s; simpl in *; wsimpl.
  - by rewrite list_insert_insert_eq, <- app_assoc.
  - done.
Qed.

Lemma cancelQuery_found w file pid stub :
  directory w !! toString file = Some pid →
  queryProviders w !! pid = Some stub →
  ServiceHelpers.cancelQuery file w =
    (upd_trace (λ t, t ++ [Called (provider stub) (CancelQuery (toString file))]) w,
     inr ()).
Proof.
  intros Hd Hp. unfold ServiceHelpers.cancelQuery.
  unfold mbind, M_bind. by rewrite (withProvider_found _ _ _ _ Hd Hp).
Qed.

(** X2: [cancel] does not look at the state of the query. With a
    provider to resolve, its synchronous part calls [cancelQuery] on that
    provider and changes nothing else, whether the query is EXECUTING or
    not. When the provider has answered, the text of the answer is
    pushed as one message without an error flag and notified as that one
    message, and the state is NOT_EXECUTING; a state change is notified,
    after the message, only if the query was EXECUTING. Result sets and
    the two times are kept. *)
Theorem cancel_is_optimistic w this q pid stub :
  queryHeap w !! this = Some q →
  directory w !! toString (associatedFile q) = Some pid →
  queryProviders w !! pid = Some stub →
  Query.cancel_sync this w =
    (upd_trace
       (λ t, t ++ [Called (provider stub) (CancelQuery (toString (associatedFile q)))])
       w, inr ()) ∧
  ∀ message w2 q2,
    queryHeap w2 !! this = Some q2 →
    Query.cancel_resume message this w2 =
      (upd_trace
         (λ t, t ++ Fired this (OnMessage (inl (mkMessage message None)))
                      :: leftExecuting this (_state q2))
         (upd_queryHeap
            <[this := mkQuery (associatedFile q2) NOT_EXECUTING
                        (_messages q2 ++ [mkMessage message None])
                        (_resultSets q2) (_startTime q2) (_endTime q2)]> w2),
       inr ()).
Proof.
  intros Hq Hd Hp. split.
  - unfold Query.cancel_sync, mbind, M_bind. rewrite (this_at _ _ _ Hq).
    by apply cancelQuery_found with pid.
  - intros message w2 q2 Hq2. by apply cancel_resume_at.
Qed.

Lemma cancel_is_optimistic_witness :
  Query.cancel_sync 0%nat (Scenario.world Scenario.idle true) =
    (upd_trace (λ t, t ++ [Called Scenario.mssql (CancelQuery "file:///a.sql")])
       (Scenario.world Scenario.idle true), inr ()) ∧
  Query.cancel_resume "Query cancelled" 0%nat (Scenario.world Scenario.running true) =
    (upd_trace
       (λ t, t ++ [Fired 0%nat (OnMessage (inl (mkMessage "Query cancelled" None)));
                   Fired 0%nat (DidStateChange NOT_EXECUTING)])
       (upd_queryHeap
          <[0%nat := mkQuery Scenario.fileA NOT_EXECUTING
                       [Scenario.hello; mkMessage "Query cancelled" None]
                       [0%nat] (Some 5) (Some 9)]>
          (Scenario.world Scenario.running true)), inr ()).
Proof.
  destruct (cancel_is_optimistic (Scenario.world Scenario.idle true) 0%nat
              Scenario.idle "MSSQL"
              (mkStub Scenario.mssql (mkDisposable Scenario.mssql 0%nat))
              eq_refl eq_refl eq_refl) as (Hs & Hr).
  split; [exact Hs|].
  exact (Hr "Query cancelled" (Scenario.world Scenario.running true)
           Scenario.running eq_refl).
Defined.

Lemma cancelQuery_missing w file :
  directory w !! toString file ≫= (λ p, queryProviders w !! p) = None →
  ServiceHelpers.cancelQuery file w =
    (w, inl (Error ("Query provider could not be found: "
                      +:+ default "undefined" (directory w !! toString file)))).
Proof.
  intros H. unfold ServiceHelpers.cancelQuery.
  unfold mbind, M_bind. by rewrite (withProvider_missing _ _ H).
Qed.

Lemma fetchData_missing w file params :
  directory w !! toString file ≫= (λ p, queryProviders w !! p) = None →
  ServiceHelpers.fetchData file params w =
    (w, inl (Error ("Query provider could not be found: "
                      +:+ default "undefined" (directory w !! toString file)))).
Proof.
  intros H. unfold ServiceHelpers.fetchData.
  unfold mbind, M_bind. by rewrite (withProvider_missing _ _ H).
Qed.

(** X3: with no provider to resolve for the document of a query,
    [cancel] and [fetch] reject with the error "Query provider could not
    be found: ..." and, unlike [execute], leave the whole state as it
    was: no message is pushed and an EXECUTING query stays EXECUTING. *)
Theorem cancel_fetch_no_provider w this q :
  queryHeap w !! this = Some q →
  directory w !! toString (associatedFile q)
    ≫= (λ p, queryProviders w !! p) = None →
  let e := Error ("Query provider could not be found: "
                    +:+ default "undefined"
                          (directory w !! toString (associatedFile q))) in
  Query.cancel_sync this w = (w, inl e) ∧
  ∀ params, Query.fetch params this w = (w, inl e).
Proof.
  intros Hq Hn e. split.
  - unfold Query.cancel_sync, mbind, M_bind. rewrite (this_at _ _ _ Hq).
    by apply cancelQuery_missing.
  - intros params. unfold Query.fetch, mbind, M_bind. rewrite (this_at _ _ _ Hq).
    by apply fetchData_missing.
Qed.

Lemma cancel_fetch_no_provider_witness :
  Query.cancel_sync 0%nat (Scenario.world Scenario.running false) =
    (Scenario.world Scenario.running false,
     inl (Error "Query provider could not be found: MSSQL")) ∧
  Query.fetch (mkFetchParams 0 0 0 50) 0%nat (Scenario.world Scenario.running false) =
    (Scenario.world Scenario.running false,
     inl (Error "Query provider could not be found: MSSQL")).
Proof.
  destruct (cancel_fetch_no_provider (Scenario.world Scenario.running false) 0%nat
              Scenario.running eq_refl eq_refl) as (Hc & Hf).
  split; [exact Hc | exact (Hf (mkFetchParams 0 0 0 50))].
Defined.

(** ** Completion *)

Lemma handleQueryComplete_at w this q :
  queryHeap w !! this = Some q →
  Query.handleQueryComplete this w =
    (upd_trace
       (λ t, t ++ leftExecuting this (_state q) ++ [Fired this OnQueryComplete])
       (upd_queryHeap <[this := completed_ q]> w), inr ()).
Proof.
  intros Hq. unfold Query.handleQueryComplete, mbind, M_bind.
  rewrite (setState_at _ _ _ _ Hq).
  destruct q as [f s m r st en], w as [dir provs qs qh rh ls nt tr].
  unfold leftExecuting, completed_, set_state, fire, modify.
  destruct s; simpl in *; wsimpl.
  - by rewrite <- app_assoc.
  - by rewrite list_insert_id.
Qed.

(** X4: a query-complete event leaves the query NOT_EXECUTING and always
    notifies the completion, last; a state change is notified before it
    only if the query was EXECUTING, so a completion that arrives after
    a cancellation, or twice, changes no state. The end time recorded by
    a batch-end event, which the getter hides while the query is
    EXECUTING, is what the getter answers once the completion has been
    handled. *)
Theorem completion_reveals_endTime w c this q t :
  queries w !! c = Some this →
  queryHeap w !! this = Some q →
  QueryService.onQueryComplete c w =
    (upd_trace
       (λ tr, tr ++ leftExecuting this (_state q) ++ [Fired this OnQueryComplete])
       (upd_queryHeap
          <[this := mkQuery (associatedFile q) NOT_EXECUTING (_messages q)
                      (_resultSets q) (_startTime q) (_endTime q)]> w), inr ()) ∧
  (∃ q1, queryHeap (QueryService.onBatchComplete c t w).1 !! this = Some q1 ∧
         (Query.state q = EXECUTING → Query.endTime q1 = None)) ∧
  (∃ q2, queryHeap (dispatchAll [EvBatchComplete c t; EvQueryComplete c] w) !! this
           = Some q2 ∧
         Query.state q2 = NOT_EXECUTING ∧ Query.endTime q2 = Some t).
Proof.
  intros Hc Hq.
  assert (Hlt : (this < length (queryHeap w))%nat) by by eapply lookup_lt_Some.
  assert (Hend : QueryService.onBatchComplete c t w =
            (upd_queryHeap <[this := set_endTime (Some t) q]> w, inr ())).
  { unfold QueryService.onBatchComplete, mbind, M_bind.
    rewrite (findQuery_at _ _ _ Hc). by apply handleBatchEnd_at. }
  split_and!.
  - unfold QueryService.onQueryComplete, mbind, M_bind.
    rewrite (findQuery_at _ _ _ Hc). by apply handleQueryComplete_at.
  - rewrite Hend. eexists. split; [by eapply upd_queryHeap_lookup|].
    intros Hs. unfold Query.endTime, Query.state in *; simpl. by rewrite Hs.
  - unfold dispatchAll; cbn [foldl QueryService.listener]. rewrite Hend. cbn [fst].
    unfold QueryService.onQueryComplete, mbind, M_bind.
    rewrite (findQuery_at _ c this) by done.
    erewrite handleQueryComplete_at by (by eapply upd_queryHeap_lookup).
    eexists. split; [simpl; by apply list_lookup_insert_eq; rewrite length_insert|].
    done.
Qed.

Lemma completion_reveals_endTime_witness :
  ∃ q2, queryHeap
          (dispatchAll [EvBatchComplete "file:///a.sql" 75;
                        EvQueryComplete "file:///a.sql"]
             (Scenario.world Scenario.fresh true)) !! 0%nat = Some q2 ∧
        Query.state q2 = NOT_EXECUTING ∧ Query.endTime q2 = Some 75.
Proof.
  destruct (completion_reveals_endTime (Scenario.world Scenario.fresh true)
              "file:///a.sql" 0%nat Scenario.fresh 75 eq_refl eq_refl)
    as (_ & _ & H).
  exact H.
Defined.

(** X5: a query that has completed, or that has been cancelled, can be
    executed again, whatever its state was before: with a provider to
    resolve, [execute] is accepted, calls [runQuery], and the query
    starts from no message, no result set and no time. *)
Theorem execute_again w this q pid stub :
  queryHeap w !! this = Some q →
  directory w !! toString (associatedFile q) = Some pid →
  queryProviders w !! pid = Some stub →
  (∃ w', Query.execute_sync this (Query.handleQueryComplete this w).1 = (w', inr ()) ∧
         queryHeap w' !! this =
           Some (mkQuery (associatedFile q) NOT_EXECUTING [] [] None None) ∧
         last (trace w') =
           Some (Called (provider stub) (RunQuery (toString (associatedFile q))))) ∧
  (∀ message,
     ∃ w', Query.execute_sync this (Query.cancel_resume message this w).1 = (w', inr ()) ∧
           queryHeap w' !! this =
             Some (mkQuery (associatedFile q) NOT_EXECUTING [] [] None None) ∧
           last (trace w') =
             Some (Called (provider stub) (RunQuery (toString (associatedFile q))))).
Proof.
  intros Hq Hd Hp.
  assert (Hlt : (this < length (queryHeap w))%nat) by by eapply lookup_lt_Some.
  assert (Hgo : ∀ w1 q1, queryHeap w1 !! this = Some q1 →
            Query.state q1 = NOT_EXECUTING →
            associatedFile q1 = associatedFile q →
            directory w1 = directory w → queryProviders w1 = queryProviders w →
            ∃ w', Query.execute_sync this w1 = (w', inr ()) ∧
                  queryHeap w' !! this =
                    Some (mkQuery (associatedFile q) NOT_EXECUTING [] [] None None) ∧
                  last (trace w') =
                    Some (Called (provider stub)
                            (RunQuery (toString (associatedFile q))))).
  { intros w1 q1 Hq1 Hs Hf Hdir Hprov.
    rewrite (execute_sync_clears _ _ _ Hq1) by (rewrite Hs; discriminate).
    rewrite (executeQuery_found _ _ pid stub);
      [|by rewrite Hf; simpl; rewrite Hdir|by simpl; rewrite Hprov].
    eexists. split; [done|]. split.
    - simpl. rewrite list_lookup_insert_eq by (by eapply lookup_lt_Some).
      unfold cleared. unfold Query.state in Hs. by rewrite Hs, Hf.
    - simpl. by rewrite last_snoc, Hf. }
  split.
  - rewrite (handleQueryComplete_at _ _ _ Hq). cbn [fst].
    eapply Hgo; [simpl; by apply list_lookup_insert_eq|done..].
  - intros message. rewrite (cancel_resume_at _ _ _ _ Hq). cbn [fst].
    eapply Hgo; [simpl; by apply list_lookup_insert_eq|done..].
Qed.

Lemma execute_again_witness :
  ∃ w', Query.execute_sync 0%nat
          (Query.handleQueryComplete 0%nat (Scenario.world Scenario.running true)).1 =
          (w', inr ()) ∧
        queryHeap w' !! 0%nat =
          Some (mkQuery Scenario.fileA NOT_EXECUTING [] [] None None).
Proof.
  destruct (execute_again (Scenario.world Scenario.running true) 0%nat
              Scenario.running "MSSQL"
              (mkStub Scenario.mssql (mkDisposable Scenario.mssql 0%nat))
              eq_refl eq_refl eq_refl) as ((w' & H1 & H2 & _) & _).
  exists w'. split; [exact H1 | exact H2].
Defined.

(** ** A query is found as soon as it exists *)

(** X6: the query that [createOrGetQuery] returns for a document is the
    one that the events carrying the string of that document as their
    correlation key are routed to, from the return of the call on. *)
Theorem created_query_is_routable uri forceNew w :
  ∃ q, (QueryService.createOrGetQuery uri forceNew w).2 = inr q ∧
       QueryService.findQuery (toString uri)
           (QueryService.createOrGetQuery uri forceNew w).1 =
         ((QueryService.createOrGetQuery uri forceNew w).1, inr q) ∧
       (queries w !! toString uri = None →
          QueryService.findQuery (toString uri) w =
            (w, inl (Error ("Could not find query with connection " +:+ toString uri)))
          ∧ q = length (queryHeap w)
          ∧ queryHeap (QueryService.createOrGetQuery uri forceNew w).1 !! q =
              Some (mkQuery uri NOT_EXECUTING [] [] None None)).
Proof.
  destruct (createOrGetQuery_registered uri forceNew w) as (q & Hr & Hq).
  exists q. split_and!; [done|by apply findQuery_at|].
  intros Hnone. split; [by apply findQuery_missing|].
  rewrite (createOrGetQuery_new _ _ _ Hnone) in Hr |- *. simplify_eq/=.
  split; [done|]. by apply list_lookup_middle.
Qed.

Lemma created_query_is_routable_witness :
  QueryService.findQuery "file:///b.sql" (Scenario.world Scenario.idle true) =
    (Scenario.world Scenario.idle true,
     inl (Error "Could not find query with connection file:///b.sql")) ∧
  QueryService.findQuery "file:///b.sql"
      (QueryService.createOrGetQuery (mkURI "file:///b.sql") None
         (Scenario.world Scenario.idle true)).1 =
    ((QueryService.createOrGetQuery (mkURI "file:///b.sql") None
        (Scenario.world Scenario.idle true)).1, inr 1%nat).
Proof.
  destruct (created_query_is_routable (mkURI "file:///b.sql") None
              (Scenario.world Scenario.idle true)) as (q & Hq & Hfind & Hnew).
  destruct (Hnew eq_refl) as (Hbefore & -> & _).
  split; [exact Hbefore | exact Hfind].
Defined.

(** ** Result set objects keep their shape *)

Global Instance same_shape_refl : Reflexive same_shape.
Proof. by intros rs. Qed.

Global Instance same_shape_trans : Transitive same_shape.
Proof.
  intros a b c (H1 & H2 & H3 & H4 & H5) (H1' & H2' & H3' & H4' & H5').
  unfold same_shape. split_and!; congruence.
Qed.

Global Instance objects_kept_refl : Reflexive objects_kept.
Proof. intros w r rs Hr. by exists rs. Qed.

Global Instance objects_kept_trans : Transitive objects_kept.
Proof.
  intros w1 w2 w3 H12 H23 r rs Hr.
  destruct (H12 r rs Hr) as (rs2 & Hr2 & Hs2).
  destruct (H23 r rs2 Hr2) as (rs3 & Hr3 & Hs3).
  exists rs3. split; [done|]. by etrans.
Qed.

Lemma objects_kept_same w w' :
  resultSetHeap w' = resultSetHeap w → objects_kept w w'.
Proof. intros H r rs Hr. exists rs. by rewrite H. Qed.

Lemma objects_kept_push (new : IResultSet) w :
  objects_kept w (upd_resultSetHeap (λ h, h ++ [new]) w).
Proof.
  intros r rs Hr. exists rs. split; [|done]. simpl.
  rewrite lookup_app_l; [done|]. by eapply lookup_lt_Some.
Qed.

Lemma objects_kept_alter (f : IResultSet → IResultSet) r0 w :
  (∀ rs, same_shape rs (f rs)) →
  objects_kept w (upd_resultSetHeap (alter f r0) w).
Proof.
  intros Hf r rs Hr. simpl. rewrite list_lookup_alter. case_decide.
  - subst. rewrite Hr. simpl. eauto.
  - by exists rs.
Qed.

Create HintDb objects.

(** As [preserves], with what the methods do to the heap of result
    sets. *)
Ltac keeps_objects :=
  preserves;
  repeat match goal with
  | |- Preserves objects_kept (assign _ _) => apply Preserves_modify; intros ?
  | |- objects_kept _ (upd_resultSetHeap (alter _ _) _) =>
      by apply objects_kept_alter
  | |- objects_kept _ (upd_resultSetHeap _ _) => apply objects_kept_push
  | |- objects_kept _ _ => by apply objects_kept_same
  | |- Preserves objects_kept _ => solve [auto with objects]
  end.


Lemma Objects_withProvider file : Preserves objects_kept (ServiceHelpers.withProvider file).
Proof. unfold ServiceHelpers.withProvider. keeps_objects. Qed.
#[local] Hint Resolve Objects_withProvider : objects.

Lemma Objects_executeQuery file : Preserves objects_kept (ServiceHelpers.executeQuery file).
Proof. unfold ServiceHelpers.executeQuery. keeps_objects. Qed.

Lemma Objects_cancelQuery file : Preserves objects_kept (ServiceHelpers.cancelQuery file).
Proof. unfold ServiceHelpers.cancelQuery. keeps_objects. Qed.

Lemma Objects_fetchData file params :
  Preserves objects_kept (ServiceHelpers.fetchData file params).
Proof. unfold ServiceHelpers.fetchData. keeps_objects. Qed.
#[local] Hint Resolve Objects_executeQuery Objects_cancelQuery Objects_fetchData
  : objects.

Lemma Objects_setState s this : Preserves objects_kept (Query.setState s this).
Proof. unfold Query.setState. keeps_objects. Qed.
#[local] Hint Resolve Objects_setState : objects.

Lemma Objects_handleMessage e this : Preserves objects_kept (Query.handleMessage e this).
Proof. unfold Query.handleMessage. keeps_objects. Qed.
#[local] Hint Resolve Objects_handleMessage : objects.

Lemma Objects_execute_sync this : Preserves objects_kept (Query.execute_sync this).
Proof. unfold Query.execute_sync. keeps_objects. Qed.

Lemma Objects_execute_resume now this :
  Preserves objects_kept (Query.execute_resume now this).
Proof. unfold Query.execute_resume. keeps_objects. Qed.

Lemma Objects_cancel_sync this : Preserves objects_kept (Query.cancel_sync this).
Proof. unfold Query.cancel_sync. keeps_objects. Qed.

Lemma Objects_cancel_resume message this :
  Preserves objects_kept (Query.cancel_resume message this).
Proof. unfold Query.cancel_resume. keeps_objects. Qed.

Lemma Objects_fetch params this : Preserves objects_kept (Query.fetch params this).
Proof. unfold Query.fetch. keeps_objects. Qed.

Lemma Objects_handleResultSetAvailable e this :
  Preserves objects_kept (Query.handleResultSetAvailable e this).
Proof. unfold Query.handleResultSetAvailable. keeps_objects. Qed.

Lemma Objects_handleResultSetUpdated e this :
  Preserves objects_kept (Query.handleResultSetUpdated e this).
Proof. unfold Query.handleResultSetUpdated. cbv zeta. keeps_objects. Qed.

Lemma Objects_handleQueryComplete this :
  Preserves objects_kept (Query.handleQueryComplete this).
Proof. unfold Query.handleQueryComplete. keeps_objects. Qed.

Lemma Objects_handleBatchStart index t this :
  Preserves objects_kept (Query.handleBatchStart index t this).
Proof. unfold Query.handleBatchStart. keeps_objects. Qed.

Lemma Objects_handleBatchEnd t this :
  Preserves objects_kept (Query.handleBatchEnd t this).
Proof. unfold Query.handleBatchEnd. keeps_objects. Qed.

Lemma Objects_findQuery c : Preserves objects_kept (QueryService.findQuery c).
Proof. unfold QueryService.findQuery. keeps_objects. Qed.

#[local] Hint Resolve Objects_handleResultSetAvailable Objects_handleResultSetUpdated
  Objects_handleQueryComplete Objects_handleBatchStart Objects_handleBatchEnd
  Objects_findQuery : objects.

Lemma Objects_listener ev : Preserves objects_kept (QueryService.listener ev).
Proof.
  destruct ev; cbn [QueryService.listener];
    unfold QueryService.onMessage, QueryService.onResultSetAvailable,
      QueryService.onResultSetUpdated, QueryService.onBatchStart,
      QueryService.onBatchComplete, QueryService.onQueryComplete; keeps_objects.
Qed.

Lemma Objects_deliver ls ev : ∀ w, objects_kept w (QueryService.deliver ls ev w).1.
Proof.
  induction ls as [|[k t] ls IH]; intros w; [done|].
  cbn [QueryService.deliver]. destruct (decide _); [|apply IH].
  pose proof (Objects_listener ev w) as Hl.
  destruct (QueryService.listener ev w) as [w' r].
  specialize (IH w'). destruct (QueryService.deliver ls ev w') as [w'' rs].
  simpl in *. by etrans.
Qed.

Lemma Objects_runOp o w : objects_kept w (runOp o w).
Proof.
  destruct o; cbn [runOp].
  - destruct (queries w !! toString uri) as [q|] eqn:Hq.
    + by rewrite (createOrGetQuery_existing _ _ _ _ Hq).
    + rewrite (createOrGetQuery_new _ _ _ Hq). by apply objects_kept_same.
  - rewrite registerProvider_at. by apply objects_kept_same.
  - rewrite dispose_at. by apply objects_kept_same.
  - apply Objects_deliver.
  - apply Objects_execute_sync.
  - apply Objects_execute_resume.
  - apply Objects_cancel_sync.
  - apply Objects_cancel_resume.
  - done.
  - apply Objects_fetch.
Qed.

Lemma Objects_runOps ops : ∀ w, objects_kept w (runOps ops w).
Proof.
  induction ops as [|o ops IH]; intros w; [done|].
  etrans; [apply (Objects_runOp o)|apply IH].
Qed.

(** X7: whatever happens to the service, a result set object that has
    been created stays, and only its row count and its completion flag
    change: its identity, its columns and the query and indices that its
    [fetch] is bound to are those it was created with. *)
Theorem resultSet_shape_is_stable ops w r rs :
  resultSetHeap w !! r = Some rs →
  ∃ rs', resultSetHeap (runOps ops w) !! r = Some rs' ∧
         rs_id rs' = rs_id rs ∧ rs_columns rs' = rs_columns rs ∧
         rs_fetch_this rs' = rs_fetch_this rs ∧
         rs_fetch_resultIndex rs' = rs_fetch_resultIndex rs ∧
         rs_fetch_batchIndex rs' = rs_fetch_batchIndex rs.
Proof.
  intros Hr. destruct (Objects_runOps ops w r rs Hr) as (rs' & Hr' & Hs).
  by exists rs'.
Qed.

Lemma resultSet_shape_is_stable_witness :
  ∃ rs', resultSetHeap
           (runOps [OpEmit Scenario.mssql
                      (EvResultSetUpdated "file:///a.sql" (mkSummary 0 0 10 [] true));
                    OpExecute 0%nat]
              (Scenario.world Scenario.idle true)) !! 0%nat = Some rs' ∧
         rs_id rs' = "0_0" ∧ rs_columns rs' = [] ∧
         rs_fetch_this rs' = 0%nat ∧
         rs_fetch_resultIndex rs' = 0 ∧ rs_fetch_batchIndex rs' = 0.
Proof.
  exact (resultSet_shape_is_stable
           [OpEmit Scenario.mssql
              (EvResultSetUpdated "file:///a.sql" (mkSummary 0 0 10 [] true));
            OpExecute 0%nat]
           (Scenario.world Scenario.idle true) 0%nat Scenario.rs00 eq_refl).
Defined.

(** ** Fetching the rows of a result set *)

Lemma fetchData_found w file params pid stub :
  directory w !! toString file = Some pid →
  queryProviders w !! pid = Some stub →
  ServiceHelpers.fetchData file params w =
    (upd_trace (λ t, t ++ [Called (provider stub) (FetchSubset (toString file) params)]) w,
     inr ()).
Proof.
  intros Hd Hp. unfold ServiceHelpers.fetchData.
  unfold mbind, M_bind. by rewrite (withProvider_found _ _ _ _ Hd Hp).
Qed.

(** X8: the result set object that a result-set-available event creates
    is bound to the query the event was routed to and to the two indices
    of the event. Whatever happens to the service afterwards, [fetch] on
    that object asks the provider resolved for the document of that
    query for the rows of these two indices, from the offset and for the
    count it is given, under the string of the document as correlation
    key, and changes nothing else. *)
Theorem fetch_is_bound_to_announcement w c this q e :
  queries w !! c = Some this →
  queryHeap w !! this = Some q →
  let r := length (resultSetHeap w) in
  let w1 := (QueryService.onResultSetAvailable c e w).1 in
  resultSetHeap w1 !! r = Some (announced this e) ∧
  last (trace w1) = Some (Fired this (OnResultSetAvailable r)) ∧
  ∀ ops rs w2 q2 pid stub offset count,
    resultSetHeap (runOps ops w1) !! r = Some rs →
    queryHeap w2 !! this = Some q2 →
    directory w2 !! toString (associatedFile q2) = Some pid →
    queryProviders w2 !! pid = Some stub →
    Query.resultSet_fetch rs offset count w2 =
      (upd_trace
         (λ t, t ++ [Called (provider stub)
                       (FetchSubset (toString (associatedFile q2))
                          (mkFetchParams (resultIndex e) (batchIndex e) offset count))])
         w2, inr ()).
Proof.
  intros Hc Hq r w1.
  assert (Hw1 : QueryService.onResultSetAvailable c e w =
            (upd_trace (λ t, t ++ [Fired this (OnResultSetAvailable r)])
               (upd_queryHeap
                  <[this := set_resultSets (_resultSets q ++ [r]) q]>
                  (upd_resultSetHeap (λ h, h ++ [announced this e]) w)), inr ())).
  { unfold QueryService.onResultSetAvailable, mbind, M_bind.
    rewrite (findQuery_at _ _ _ Hc). by apply handleResultSetAvailable_at. }
  assert (Hr : resultSetHeap w1 !! r = Some (announced this e)).
  { subst w1. rewrite Hw1. simpl. by apply list_lookup_middle. }
  split_and!; [done| |].
  - subst w1. rewrite Hw1. simpl. by rewrite last_snoc.
  - intros ops rs w2 q2 pid stub offset count Hrs Hq2 Hd Hp.
    destruct (Objects_runOps ops w1 r _ Hr) as (rs' & Hrs' & H1 & H2 & H3 & H4 & H5).
    simplify_eq. unfold Query.resultSet_fetch, Query.fetch, mbind, M_bind.
    rewrite H3, H4, H5. cbn [announced rs_fetch_this rs_fetch_resultIndex
      rs_fetch_batchIndex].
    rewrite (this_at _ _ _ Hq2). by apply fetchData_found with pid.
Qed.

Lemma fetch_is_bound_to_announcement_witness :
  let w1 :=
    (QueryService.onResultSetAvailable "file:///a.sql" (mkSummary 3 1 5 [] false)
       (Scenario.world Scenario.fresh true)).1 in
  resultSetHeap w1 !! 1%nat =
    Some (mkResultSet [] "3_1" 5 (Some false) 0%nat 3 1) ∧
  Query.resultSet_fetch (mkResultSet [] "3_1" 5 (Some false) 0%nat 3 1) 100 50 w1 =
    (upd_trace
       (λ t, t ++ [Called Scenario.mssql
                     (FetchSubset "file:///a.sql" (mkFetchParams 3 1 100 50))])
       w1, inr ()).
Proof.
  intros w1.
  destruct (fetch_is_bound_to_announcement (Scenario.world Scenario.fresh true)
              "file:///a.sql" 0%nat Scenario.fresh (mkSummary 3 1 5 [] false)
              eq_refl eq_refl) as (Hr & _ & Hfetch).
  split; [exact Hr|].
  exact (Hfetch [] _ w1 (set_resultSets [1%nat] Scenario.fresh) "MSSQL"
           (mkStub Scenario.mssql (mkDisposable Scenario.mssql 0%nat)) 100 50
           Hr eq_refl eq_refl eq_refl).
Defined.

(** ** An identity announced twice *)

Lemma findResultSet_first id h (before : list loc) r after :
  Forall (λ x, rs_id <$> h !! x ≠ Some id) before →
  rs_id <$> h !! r = Some id →
  Query.findResultSet id h (before ++ r :: after) = Some r.
Proof.
  intros Hn Hr. induction before as [|x before IH]; simpl.
  - rewrite findResultSet_cons. by rewrite decide_True.
  - inversion_clear Hn. rewrite findResultSet_cons, decide_False by done. by apply IH.
Qed.

(** X9: when one identity is announced twice, the query holds two result
    sets of that identity, and an update of that identity reaches the
    first of them only: the second keeps the row count and the
    completion flag it was announced with. *)
Theorem update_reaches_first_duplicate w c this q e1 e2 e3 :
  queries w !! c = Some this →
  queryHeap w !! this = Some q →
  allocated w q →
  let id := Query.encodeId (resultIndex e1) (batchIndex e1) in
  Forall (λ r, rs_id <$> resultSetHeap w !! r ≠ Some id) (_resultSets q) →
  resultIndex e2 = resultIndex e1 → batchIndex e2 = batchIndex e1 →
  resultIndex e3 = resultIndex e1 → batchIndex e3 = batchIndex e1 →
  let w3 :=
    dispatchAll [EvResultSetAvailable c e1; EvResultSetAvailable c e2;
                 EvResultSetUpdated c e3] w in
  ∃ q3, queryHeap w3 !! this = Some q3 ∧
        Query.resultSets w3 q3 =
          Query.resultSets w q ++
            [mkResultSet (columns e1) id (rowCount e3) (Some (completed e3))
               this (resultIndex e1) (batchIndex e1);
             mkResultSet (columns e2) id (rowCount e2) (Some (completed e2))
               this (resultIndex e1) (batchIndex e1)].
Proof.
  intros Hc Hq Hal id Hn Hr2 Hb2 Hr3 Hb3 w3.
  assert (Hlt : (this < length (queryHeap w))%nat) by by eapply lookup_lt_Some.
  set (h := resultSetHeap w). set (n := length h).
  set (a1 := announced this e1). set (a2 := announced this e2).
  set (q1 := set_resultSets (_resultSets q ++ [n]) q).
  set (q2 := set_resultSets ((_resultSets q ++ [n]) ++ [S n]) q).
  assert (Hid2 : Query.encodeId (resultIndex e2) (batchIndex e2) = id)
    by (by rewrite Hr2, Hb2).
  assert (Hid3 : Query.encodeId (resultIndex e3) (batchIndex e3) = id)
    by (by rewrite Hr3, Hb3).
  assert (H1 : QueryService.listener (EvResultSetAvailable c e1) w =
            (upd_trace (λ t, t ++ [Fired this (OnResultSetAvailable n)])
               (upd_queryHeap <[this := q1]>
                  (upd_resultSetHeap (λ h, h ++ [a1]) w)), inr ())).
  { cbn [QueryService.listener].
    unfold QueryService.onResultSetAvailable, mbind, M_bind.
    rewrite (findQuery_at _ _ _ Hc). by apply handleResultSetAvailable_at. }
  unfold w3, dispatchAll. cbn [foldl]. rewrite H1. cbn [fst].
  match goal with |- context [QueryService.listener (EvResultSetAvailable c e2) ?x] =>
    set (w1 := x) end.
  assert (Hq1 : queryHeap w1 !! this = Some q1).
  { subst w1. simpl. by apply list_lookup_insert_eq. }
  assert (Hlen1 : length (resultSetHeap w1) = S n).
  { subst w1 n h. simpl. rewrite length_app. simpl. lia. }
  assert (H2 : QueryService.listener (EvResultSetAvailable c e2) w1 =
            (upd_trace (λ t, t ++ [Fired this (OnResultSetAvailable (S n))])
               (upd_queryHeap <[this := q2]>
                  (upd_resultSetHeap (λ h, h ++ [a2]) w1)), inr ())).
  { cbn [QueryService.listener].
    unfold QueryService.onResultSetAvailable, mbind, M_bind.
    rewrite (findQuery_at _ c this) by done.
    rewrite (handleResultSetAvailable_at _ _ _ _ Hq1), Hlen1.
    subst q1 q2 w1. unfold set_resultSets; simpl.
    unfold upd_trace, upd_queryHeap, upd_resultSetHeap; simpl.
    by rewrite list_insert_insert_eq. }
  rewrite H2. cbn [fst].
  match goal with |- context [QueryService.listener (EvResultSetUpdated c e3) ?x] =>
    set (w2 := x) end.
  assert (Hq2 : queryHeap w2 !! this = Some q2).
  { subst w2 w1. simpl. apply list_lookup_insert_eq. by rewrite length_insert. }
  assert (Hh2 : resultSetHeap w2 = (h ++ [a1]) ++ [a2]) by done.
  assert (Hfind : Query.findResultSet
            (Query.encodeId (resultIndex e3) (batchIndex e3))
            (resultSetHeap w2) (_resultSets q2) = Some n).
  { rewrite Hid3, Hh2. subst q2. cbn [_resultSets set_resultSets].
    rewrite <- (app_assoc (_resultSets q)). apply findResultSet_first.
    - unfold allocated in Hal. rewrite Forall_forall in Hal.
      rewrite Forall_forall in Hn. apply Forall_forall. intros x Hx.
      specialize (Hal x Hx). specialize (Hn x Hx). fold h n in Hal, Hn.
      by rewrite !lookup_app_l by (rewrite ?length_app; simpl; lia).
    - rewrite lookup_app_l by (rewrite length_app; simpl; fold n; lia).
      by rewrite list_lookup_middle. }
  assert (Hn2 : resultSetHeap w2 !! n = Some a1).
  { rewrite Hh2. rewrite lookup_app_l by (rewrite length_app; simpl; fold n; lia).
    by apply list_lookup_middle. }
  assert (H3 : QueryService.listener (EvResultSetUpdated c e3) w2 =
            (upd_trace (λ t, t ++ [Fired this (OnResultSetUpdated n)])
               (upd_resultSetHeap
                  <[n := set_completed (Some (completed e3))
                           (set_rowCount (rowCount e3) a1)]> w2), inr ())).
  { cbn [QueryService.listener].
    unfold QueryService.onResultSetUpdated, mbind, M_bind.
    rewrite (findQuery_at _ c this) by done.
    by apply handleResultSetUpdated_some with q2. }
  rewrite H3. cbn [fst]. exists q2. split; [done|].
  unfold Query.resultSets. cbn [resultSetHeap upd_trace upd_resultSetHeap].
  rewrite Hh2. subst q2. cbn [_resultSets set_resultSets].
  rewrite <- (app_assoc (_resultSets q)), omap_app. f_equal.
  - apply list_omap_ext, Forall2_same_length_lookup. split; [done|].
    intros i x x' Hx Hx'. simplify_eq.
    assert (x < n)%nat by (by eapply Forall_lookup_1 in Hal).
    rewrite list_lookup_insert_ne by lia.
    by rewrite !lookup_app_l by (rewrite ?length_app; simpl; fold h n; lia).
  - cbn [omap list_omap app].
    rewrite list_lookup_insert_eq by (rewrite !length_app; simpl; fold h n; lia).
    rewrite list_lookup_insert_ne by lia.
    rewrite (list_lookup_middle (h ++ [a1]) [] a2 (S n))
      by (rewrite length_app; simpl; fold h n; lia).
    subst a1 a2 id. unfold announced, set_completed, set_rowCount; simpl.
    by rewrite Hr2, Hb2.
Qed.

Lemma update_reaches_first_duplicate_witness :
  ∃ q3, queryHeap
          (dispatchAll
             [EvResultSetAvailable "file:///a.sql" (mkSummary 0 0 5 [] false);
              EvResultSetAvailable "file:///a.sql" (mkSummary 0 0 7 [] false);
              EvResultSetUpdated "file:///a.sql" (mkSummary 0 0 9 [] true)]
             (Scenario.world Scenario.fresh true)) !! 0%nat = Some q3 ∧
        Query.resultSets
          (dispatchAll
             [EvResultSetAvailable "file:///a.sql" (mkSummary 0 0 5 [] false);
              EvResultSetAvailable "file:///a.sql" (mkSummary 0 0 7 [] false);
              EvResultSetUpdated "file:///a.sql" (mkSummary 0 0 9 [] true)]
             (Scenario.world Scenario.fresh true)) q3 =
          [mkResultSet [] "0_0" 9 (Some true) 0%nat 0 0;
           mkResultSet [] "0_0" 7 (Some false) 0%nat 0 0].
Proof.
  exact (update_reaches_first_duplicate (Scenario.world Scenario.fresh true)
           "file:///a.sql" 0%nat Scenario.fresh
           (mkSummary 0 0 5 [] false) (mkSummary 0 0 7 [] false)
           (mkSummary 0 0 9 [] true)
           eq_refl eq_refl (Forall_nil_2 _) (Forall_nil_2 _)
           eq_refl eq_refl eq_refl eq_refl).
Defined.

(** ** Registering and revoking *)

Lemma deliver_app l1 l2 ev : ∀ w,
  QueryService.deliver (l1 ++ l2) ev w =
    let (w', rs1) := QueryService.deliver l1 ev w in
    let (w'', rs2) := QueryService.deliver l2 ev w' in
    (w'', rs1 ++ rs2).
Proof.
  induction l1 as [|[k t] l1 IH]; intros w.
  - simpl. by destruct (QueryService.deliver l2 ev w).
  - cbn [app QueryService.deliver]. destruct (decide _); [|apply IH].
    destruct (QueryService.listener ev w) as [w' r]. rewrite IH.
    destruct (QueryService.deliver l1 ev w') as [w1 rs1].
    by destruct (QueryService.deliver l2 ev w1) as [w2 rs2].
Qed.

(** X10: registering a provider under an identity that is free and then
    invoking the handle of that registration leaves the registry of
    providers and the listeners of every provider as they were: in
    between, the documents of the identity resolve to the provider;
    afterwards they resolve to none, and an event that the provider
    emits reaches no listener of the service. *)
Theorem register_then_dispose w p :
  tokens_fresh w →
  queryProviders w !! id p = None →
  let w1 := (QueryService.registerProvider p w).1 in
  let d := mkDisposable p (nextToken w) in
  let w2 := (QueryService.dispose d w1).1 in
  (QueryService.registerProvider p w).2 = inr d ∧
  (∀ file, directory w !! toString file = Some (id p) →
     ServiceHelpers.withProvider file w1 = (w1, inr p)) ∧
  queryProviders w2 = queryProviders w ∧
  (∀ p', QueryService.listenersOf w2 p' = QueryService.listenersOf w p') ∧
  (∀ file, directory w !! toString file = Some (id p) →
     ServiceHelpers.withProvider file w2 =
       (w2, inl (Error ("Query provider could not be found: " +:+ id p)))) ∧
  (∀ ev, QueryService.listenersOf w p = [] → QueryService.emit p ev w2 = (w2, [])).
Proof.
  intros Hfresh Hfree w1 d w2.
  assert (Hreg : queryProviders w2 = queryProviders w).
  { subst w2 w1 d. rewrite dispose_at, registerProvider_at.
    cbn [fst queryProviders d_provider].
    by rewrite delete_insert_eq, delete_id. }
  assert (Hls : ∀ p', QueryService.listenersOf w2 p' = QueryService.listenersOf w p').
  { intros p'. subst w2 w1 d. rewrite listenersOf_dispose, listenersOf_register.
    cbn [d_provider d_token]. case_decide as Ho; [|done].
    rewrite withoutToken_app, withoutToken_six, app_nil_r.
    unfold QueryService.listenersOf. rewrite Ho.
    fold (QueryService.listenersOf w p). by apply withoutToken_fresh. }
  assert (Hdir : directory w2 = directory w).
  { subst w2 w1 d. by rewrite dispose_at, registerProvider_at. }
  split_and!; [apply registerProvider_result| |done|done| |].
  - intros file Hd.
    apply (withProvider_found w1 file (id p)
             (mkStub p (mkDisposable p (nextToken w)))).
    + subst w1. by rewrite registerProvider_directory.
    + subst w1. rewrite registerProvider_queryProviders. apply lookup_insert_eq.
  - intros file Hd. rewrite withProvider_missing.
    + by rewrite Hdir, Hd.
    + rewrite Hdir, Hd. change (queryProviders w2 !! id p = None). by rewrite Hreg.
  - intros ev Hnone. unfold QueryService.emit. by rewrite Hls, Hnone.
Qed.

Lemma register_then_dispose_witness :
  let w2 :=
    (QueryService.dispose (mkDisposable Scenario.mssql 0%nat)
       (QueryService.registerProvider Scenario.mssql
          (Scenario.world Scenario.running false)).1).1 in
  queryProviders w2 = ∅ ∧
  QueryService.emit Scenario.mssql (EvQueryComplete "file:///a.sql") w2 = (w2, []).
Proof.
  intros w2.
  assert (Hfresh : tokens_fresh (Scenario.world Scenario.running false)).
  { intros o ls l Hls. vm_compute in Hls. discriminate. }
  destruct (register_then_dispose (Scenario.world Scenario.running false)
              Scenario.mssql Hfresh eq_refl) as (_ & _ & Hreg & _ & _ & Hemit).
  split; [exact Hreg | exact (Hemit _ eq_refl)].
Defined.

(** X11: a provider object that is registered twice has twelve
    listeners: each event it emits is handled twice, one time after the
    other, so a message it emits is pushed twice. Invoking the handle of
    the first registration leaves the six listeners of the second, and
    deletes the entry of the registry, which the second registration had
    written. *)
Theorem same_provider_registered_twice w p :
  tokens_fresh w →
  QueryService.listenersOf w p = [] →
  let w2 := (QueryService.registerProvider p (QueryService.registerProvider p w).1).1 in
  let w3 := (QueryService.dispose (mkDisposable p (nextToken w)) w2).1 in
  QueryService.listenersOf w2 p =
    sixListeners (nextToken w) ++ sixListeners (S (nextToken w)) ∧
  (∀ ev, QueryService.emit p ev w2 =
           let (w', r) := QueryService.listener ev w2 in
           let (w'', r') := QueryService.listener ev w' in
           (w'', [r; r'])) ∧
  QueryService.listenersOf w3 p = sixListeners (S (nextToken w)) ∧
  queryProviders w3 !! id p = None.
Proof.
  intros Hfresh Hnone w2 w3.
  assert (Hl2 : QueryService.listenersOf w2 p =
                sixListeners (nextToken w) ++ sixListeners (S (nextToken w))).
  { subst w2. rewrite !listenersOf_register, registerProvider_nextToken.
    rewrite !decide_True by done. by rewrite Hnone. }
  split_and!; [done| | |].
  - intros ev. unfold QueryService.emit. rewrite Hl2, deliver_app, deliver_six.
    destruct (QueryService.listener ev w2) as [w' r]. rewrite deliver_six.
    by destruct (QueryService.listener ev w') as [w'' r'].
  - subst w3. rewrite listenersOf_dispose. cbn [d_provider d_token].
    rewrite decide_True by done. rewrite Hl2, withoutToken_app, withoutToken_six.
    cbn [app]. apply filter_all, Forall_forall. intros l Hl.
    unfold sixListeners in Hl. apply list_elem_of_fmap in Hl as (k & -> & _).
    simpl. lia.
  - subst w3. rewrite dispose_at. cbn [fst queryProviders d_provider].
    apply lookup_delete_eq.
Qed.

Lemma same_provider_registered_twice_witness :
  let w2 :=
    (QueryService.registerProvider Scenario.mssql
       (QueryService.registerProvider Scenario.mssql
          (Scenario.world Scenario.fresh false)).1).1 in
  ∃ q, queryHeap
         (QueryService.emit Scenario.mssql
            (EvMessage "file:///a.sql" (inl Scenario.hello)) w2).1 !! 0%nat = Some q ∧
       Query.messages q = [Scenario.hello; Scenario.hello].
Proof.
  intros w2.
  assert (Hfresh : tokens_fresh (Scenario.world Scenario.fresh false)).
  { intros o ls l Hls. vm_compute in Hls. discriminate. }
  destruct (same_provider_registered_twice (Scenario.world Scenario.fresh false)
              Scenario.mssql Hfresh eq_refl) as (_ & Hemit & _).
  fold w2 in Hemit. rewrite (Hemit (EvMessage "file:///a.sql" (inl Scenario.hello))).
  eexists. split; reflexivity.
Defined.

(** ** Messages arrive in order *)

(** Unfolds the methods down to the assignments, the notifications and
    the calls they are made of. *)
Ltac unfold_methods :=
  unfold QueryService.onMessage, QueryService.onResultSetAvailable,
    QueryService.onResultSetUpdated, QueryService.onBatchStart,
    QueryService.onBatchComplete, QueryService.onQueryComplete,
    Query.resultSet_fetch, Query.execute_sync, Query.execute_resume,
    Query.cancel_sync, Query.cancel_resume, Query.fetch, Query.setExecutionOptions,
    Query.handleMessage, Query.handleResultSetAvailable,
    Query.handleResultSetUpdated, Query.handleQueryComplete,
    Query.handleBatchStart, Query.handleBatchEnd,
    ServiceHelpers.executeQuery, ServiceHelpers.cancelQuery,
    ServiceHelpers.fetchData, ServiceHelpers.setExecutionOptions,
    ServiceHelpers.withProvider, QueryService.findQuery;
  cbv zeta.

Global Instance same_messages_refl : Reflexive same_messages.
Proof. by intros w. Qed.

Global Instance same_messages_trans : Transitive same_messages.
Proof.
  intros w1 w2 w3 (H1 & H2 & H3) (H1' & H2' & H3'). split_and!.
  - congruence.
  - intros i. by rewrite H2', H2.
  - intros i. by rewrite H3', H3.
Qed.

Lemma same_messages_fire this ev w :
  (∀ m, ev ≠ OnMessage m) →
  same_messages w (upd_trace (λ t, t ++ [Fired this ev]) w).
Proof.
  intros Hev. split_and!; [done..|]. intros i. simpl.
  unfold messagesNotified. rewrite omap_app. simpl.
  destruct ev; try by rewrite app_nil_r. by destruct (Hev e).
Qed.

Lemma same_messages_call p c w :
  same_messages w (upd_trace (λ t, t ++ [Called p c]) w).
Proof.
  split_and!; [done..|]. intros i. simpl.
  unfold messagesNotified. rewrite omap_app. simpl. by rewrite app_nil_r.
Qed.

Lemma same_messages_assign this (f : Query → Query) w :
  (∀ q, _messages (f q) = _messages q) →
  same_messages w (upd_queryHeap (alter f this) w).
Proof.
  intros Hf. split_and!; [done| |done]. intros i. simpl.
  rewrite list_lookup_alter. case_decide; [subst|done].
  destruct (queryHeap w !! i); simpl; [|done]. by rewrite Hf.
Qed.

Lemma same_messages_objects (f : list IResultSet → list IResultSet) w :
  same_messages w (upd_resultSetHeap f w).
Proof. done. Qed.

Ltac keeps_messages :=
  unfold_methods; unfold Query.setState; preserves;
  repeat match goal with
  | |- Preserves same_messages (assign _ _) => apply Preserves_modify; intros ?
  | |- same_messages _ (upd_trace (λ t, t ++ [Fired _ _]) _) =>
      by apply same_messages_fire
  | |- same_messages _ (upd_trace (λ t, t ++ [Called _ _]) _) =>
      apply same_messages_call
  | |- same_messages _ (upd_queryHeap (alter _ _) _) => by apply same_messages_assign
  | |- same_messages _ (upd_resultSetHeap _ _) => apply same_messages_objects
  end.

Lemma Messages_other_listener ev :
  kindOf ev ≠ KMessage → Preserves same_messages (QueryService.listener ev).
Proof.
  intros Hk. destruct ev; try done; cbn [QueryService.listener]; keeps_messages.
Qed.

(** The step of one event, seen from the query at [this]. *)
Lemma messages_step ev w this q :
  queryHeap w !! this = Some q →
  queries (QueryService.listener ev w).1 = queries w ∧
  ∃ q', queryHeap (QueryService.listener ev w).1 !! this = Some q' ∧
        _messages q' = _messages q ++ concat (pushed <$> payloadsTo w this [ev]) ∧
        messagesNotified this (trace (QueryService.listener ev w).1) =
          messagesNotified this (trace w) ++ payloadsTo w this [ev].
Proof.
  intros Hq.
  assert (Hsame : ∀ w', same_messages w w' →
            queries w' = queries w ∧
            ∃ q', queryHeap w' !! this = Some q' ∧
                  _messages q' = _messages q ++ [] ∧
                  messagesNotified this (trace w') = messagesNotified this (trace w) ++ []).
  { intros w' (H1 & H2 & H3). split; [done|]. specialize (H2 this).
    rewrite Hq in H2. destruct (queryHeap w' !! this) as [q'|]; [|done].
    exists q'. injection H2 as H2. by rewrite !app_nil_r. }
  destruct (decide (kindOf ev = KMessage)) as [Hk|Hk];
    [|destruct ev; try done; by apply Hsame, Messages_other_listener].
  destruct ev as [c m| | | | |]; try done. clear Hk.
  cbn [QueryService.listener]. unfold QueryService.onMessage, mbind, M_bind.
  unfold payloadsTo. cbn [omap list_omap].
  destruct (queries w !! c) as [q0|] eqn:Hc.
  - rewrite (findQuery_at _ _ _ Hc).
    destruct (queryHeap w !! q0) as [Q0|] eqn:Hq0.
    + rewrite (handleMessage_at _ _ _ _ Hq0). cbn [fst]. split; [done|].
      destruct (decide (q0 = this)) as [->|Hne].
      * rewrite decide_True by done. simplify_eq.
        eexists. split; [by eapply upd_queryHeap_lookup|].
        cbn [fmap list_fmap concat]. rewrite app_nil_r. split; [done|].
        simpl. unfold messagesNotified. rewrite omap_app. simpl.
        by rewrite decide_True.
      * rewrite decide_False by congruence. exists q. simpl.
        rewrite list_lookup_insert_ne by done. rewrite !app_nil_r.
        split_and!; [done..|].
        unfold messagesNotified. rewrite omap_app. simpl.
        rewrite decide_False by done. by rewrite app_nil_r.
    + assert (q0 ≠ this) by congruence. rewrite decide_False by congruence.
      unfold Query.handleMessage, mbind, M_bind, this_. rewrite Hq0.
      by apply Hsame.
  - rewrite (findQuery_missing _ _ Hc). rewrite decide_False by congruence.
    by apply Hsame.
Qed.

Lemma payloadsTo_registry w w' this evs :
  queries w' = queries w → payloadsTo w' this evs = payloadsTo w this evs.
Proof. intros H. unfold payloadsTo. by rewrite H. Qed.

(** X12: after any sequence of dispatched provider events, the messages
    of a query are those it had, followed by the messages of the message
    events routed to it, in the order of the events and of the arrays
    they carry; and the subscribers of the query have been notified of
    exactly the payloads of these events, each one as it came (one
    message or one array), in the same order. No other event pushes or
    notifies a message. *)
Theorem messages_are_appended_in_order evs w this q :
  queryHeap w !! this = Some q →
  ∃ q', queryHeap (dispatchAll evs w) !! this = Some q' ∧
        _messages q' = _messages q ++ concat (pushed <$> payloadsTo w this evs) ∧
        messagesNotified this (trace (dispatchAll evs w)) =
          messagesNotified this (trace w) ++ payloadsTo w this evs.
Proof.
  revert w q. induction evs as [|ev evs IH]; intros w q Hq.
  - exists q. unfold payloadsTo; simpl. by rewrite !app_nil_r.
  - destruct (messages_step ev w this q Hq) as (Hreg & q1 & Hq1 & Hm1 & Hn1).
    destruct (IH _ q1 Hq1) as (q' & Hq' & Hm' & Hn').
    exists q'. change (dispatchAll (ev :: evs) w)
      with (dispatchAll evs (QueryService.listener ev w).1).
    rewrite (payloadsTo_registry _ _ _ _ Hreg) in Hm', Hn'.
    split_and!; [done| |].
    + rewrite Hm', Hm1, <- app_assoc. f_equal.
      rewrite <- concat_app, <- fmap_app. do 2 f_equal.
      unfold payloadsTo. by rewrite <- omap_app.
    + rewrite Hn', Hn1, <- app_assoc. f_equal.
      unfold payloadsTo. by rewrite <- omap_app.
Qed.

Lemma messages_are_appended_in_order_witness :
  ∃ q', queryHeap
          (dispatchAll
             [EvMessage "file:///a.sql" (inr [mkMessage "a" None; mkMessage "b" None]);
              EvBatchComplete "file:///a.sql" 10;
              EvMessage "file:///a.sql" (inl (mkMessage "c" (Some true)))]
             (Scenario.world Scenario.running true)) !! 0%nat = Some q' ∧
        _messages q' =
          [Scenario.hello; mkMessage "a" None; mkMessage "b" None;
           mkMessage "c" (Some true)] ∧
        messagesNotified 0%nat
          (trace
             (dispatchAll
                [EvMessage "file:///a.sql" (inr [mkMessage "a" None; mkMessage "b" None]);
                 EvBatchComplete "file:///a.sql" 10;
                 EvMessage "file:///a.sql" (inl (mkMessage "c" (Some true)))]
                (Scenario.world Scenario.running true))) =
          [inr [mkMessage "a" None; mkMessage "b" None];
           inl (mkMessage "c" (Some true))].
Proof.
  exact (messages_are_appended_in_order
           [EvMessage "file:///a.sql" (inr [mkMessage "a" None; mkMessage "b" None]);
            EvBatchComplete "file:///a.sql" 10;
            EvMessage "file:///a.sql" (inl (mkMessage "c" (Some true)))]
           (Scenario.world Scenario.running true) 0%nat Scenario.running eq_refl).
Defined.

(** ** Queries and their documents *)

Global Instance files_kept_refl : Reflexive files_kept.
Proof. intros w i Q HQ. by exists Q. Qed.

Global Instance files_kept_trans : Transitive files_kept.
Proof.
  intros w1 w2 w3 H12 H23 i Q HQ.
  destruct (H12 i Q HQ) as (Q2 & HQ2 & Hf2).
  destruct (H23 i Q2 HQ2) as (Q3 & HQ3 & Hf3).
  exists Q3. split; [done|congruence].
Qed.

Lemma files_kept_same w w' : queryHeap w' = queryHeap w → files_kept w w'.
Proof. intros H i Q HQ. exists Q. by rewrite H. Qed.

Lemma files_kept_assign this (f : Query → Query) w :
  (∀ q, associatedFile (f q) = associatedFile q) →
  files_kept w (upd_queryHeap (alter f this) w).
Proof.
  intros Hf i Q HQ. simpl. rewrite list_lookup_alter. case_decide.
  - subst. rewrite HQ. simpl. eauto.
  - by exists Q.
Qed.

Ltac keeps_files :=
  unfold_methods; unfold Query.setState; preserves;
  repeat match goal with
  | |- Preserves files_kept (assign _ _) => apply Preserves_modify; intros ?
  | |- files_kept _ (upd_queryHeap (alter _ _) _) => by apply files_kept_assign
  | |- files_kept _ _ => by apply files_kept_same
  end.

Lemma Files_listener ev : Preserves files_kept (QueryService.listener ev).
Proof. destruct ev; cbn [QueryService.listener]; keeps_files. Qed.

Lemma Files_deliver ls ev : ∀ w, files_kept w (QueryService.deliver ls ev w).1.
Proof.
  induction ls as [|[k t] ls IH]; intros w; [done|].
  cbn [QueryService.deliver]. destruct (decide _); [|apply IH].
  pose proof (Files_listener ev w) as Hl.
  destruct (QueryService.listener ev w) as [w' r].
  specialize (IH w'). destruct (QueryService.deliver ls ev w') as [w'' rs].
  simpl in *. by etrans.
Qed.

Lemma Files_runOp o w : files_kept w (runOp o w).
Proof.
  destruct o as [uri f|p|d|p ev|this|now this|this|msg this|opts this|rs offset count];
    cbn [runOp].
  - destruct (queries w !! toString uri) as [q|] eqn:Hq.
    + by rewrite (createOrGetQuery_existing _ _ _ _ Hq).
    + rewrite (createOrGetQuery_new _ _ _ Hq). intros i Q HQ. exists Q.
      split; [|done]. simpl. rewrite lookup_app_l; [done|]. by eapply lookup_lt_Some.
  - rewrite registerProvider_at. by apply files_kept_same.
  - rewrite dispose_at. by apply files_kept_same.
  - apply Files_deliver.
  - assert (H : Preserves files_kept (Query.execute_sync this)) by keeps_files. apply H.
  - assert (H : Preserves files_kept (Query.execute_resume now this)) by keeps_files.
    apply H.
  - assert (H : Preserves files_kept (Query.cancel_sync this)) by keeps_files. apply H.
  - assert (H : Preserves files_kept (Query.cancel_resume msg this))
      by keeps_files. apply H.
  - done.
  - assert (H : Preserves files_kept (Query.resultSet_fetch rs offset count))
      by keeps_files. apply H.
Qed.

Lemma Files_runOps ops : ∀ w, files_kept w (runOps ops w).
Proof.
  induction ops as [|o ops IH]; intros w; [done|].
  etrans; [apply (Files_runOp o)|apply IH].
Qed.

(** X13: whatever happens to the service, a query object stays and its
    document is the one it was created for: no operation removes a query
    or assigns its [associatedFile]. *)
Theorem query_document_is_permanent ops w i Q :
  queryHeap w !! i = Some Q →
  ∃ Q', queryHeap (runOps ops w) !! i = Some Q' ∧
        associatedFile Q' = associatedFile Q.
Proof. apply Files_runOps. Qed.

Lemma query_document_is_permanent_witness :
  ∃ Q', queryHeap
          (runOps [OpExecute 0%nat; OpExecuteAnswered 1000 0%nat;
                   OpEmit Scenario.mssql (EvQueryComplete "file:///a.sql");
                   OpCreateOrGetQuery (mkURI "file:///b.sql") None]
             (Scenario.world Scenario.idle true)) !! 0%nat = Some Q' ∧
        associatedFile Q' = Scenario.fileA.
Proof.
  exact (query_document_is_permanent
           [OpExecute 0%nat; OpExecuteAnswered 1000 0%nat;
            OpEmit Scenario.mssql (EvQueryComplete "file:///a.sql");
            OpCreateOrGetQuery (mkURI "file:///b.sql") None]
           (Scenario.world Scenario.idle true) 0%nat Scenario.idle eq_refl).
Defined.

Lemma coherent_step w w' :
  queries w' = queries w → files_kept w w' → coherent w → coherent w'.
Proof.
  intros Hreg Hfiles Hco k q Hk. rewrite Hreg in Hk.
  destruct (Hco k q Hk) as (Q & HQ & Hf).
  destruct (Hfiles q Q HQ) as (Q' & HQ' & Hf'). exists Q'. split; [done|congruence].
Qed.

Lemma coherent_runOp o w : coherent w → coherent (runOp o w).
Proof.
  intros Hco.
  assert (Hm : ∀ m : M unit, Preserves same_registry m → runOp o w = (m w).1 →
            coherent (runOp o w)).
  { intros m Hm Heq. apply (coherent_step w); [|apply Files_runOp|done].
    rewrite Heq. apply Hm. }
  destruct o as [uri f|p|d|p ev|this|now this|this|msg this|opts this|rs offset count];
    try (by eapply Hm; [|reflexivity];
    first [apply Registry_execute_sync | apply Registry_execute_resume
          | apply Registry_cancel_sync | apply Registry_cancel_resume
          | apply Registry_fetch]).
  - cbn [runOp]. destruct (queries w !! toString uri) as [q|] eqn:Hq.
    + by rewrite (createOrGetQuery_existing _ _ _ _ Hq).
    + rewrite (createOrGetQuery_new _ _ _ Hq). cbn [fst]. intros k q Hk.
      cbn [queries queryHeap upd_queries upd_queryHeap] in *.
      destruct (decide (toString uri = k)) as [<-|Hne].
      * rewrite lookup_insert_eq in Hk. simplify_eq.
        eexists. split; [by apply list_lookup_middle|done].
      * rewrite lookup_insert_ne in Hk by done.
        destruct (Hco k q Hk) as (Q & HQ & Hf). exists Q. split; [|done].
        rewrite lookup_app_l; [done|]. by eapply lookup_lt_Some.
  - apply (coherent_step w); [|apply Files_runOp|done].
    cbn [runOp]. by rewrite registerProvider_at.
  - apply (coherent_step w); [|apply Files_runOp|done].
    cbn [runOp]. by rewrite dispose_at.
  - apply (coherent_step w); [|apply Files_runOp|done].
    cbn [runOp]. apply deliver_registry.
  - done.
Qed.

Lemma coherent_runOps ops : ∀ w, coherent w → coherent (runOps ops w).
Proof.
  induction ops as [|o ops IH]; intros w Hco; [done|].
  apply (IH (runOp o w)). by apply coherent_runOp.
Qed.

Lemma coherent_initial dir : coherent (initial dir).
Proof.
  intros k q Hk. unfold initial in Hk. cbn [queries] in Hk.
  by rewrite lookup_empty in Hk.
Qed.

(** X14: in every state that a service reaches from its creation, the
    query that the registry holds under a key is the query of the
    document of that key. So the queries of two documents with different
    strings are different objects, and one query is never registered
    under two keys. *)
Theorem registry_is_coherent dir ops k q :
  let w := runOps ops (initial dir) in
  queries w !! k = Some q →
  (∃ Q, queryHeap w !! q = Some Q ∧ toString (associatedFile Q) = k) ∧
  (∀ k', queries w !! k' = Some q → k' = k).
Proof.
  intros w Hk.
  assert (Hco : coherent w) by apply coherent_runOps, coherent_initial.
  split; [by apply Hco|].
  intros k' Hk'. destruct (Hco k q Hk) as (Q & HQ & Hf).
  destruct (Hco k' q Hk') as (Q' & HQ' & Hf'). congruence.
Qed.

Lemma registry_is_coherent_witness :
  let w :=
    runOps [OpCreateOrGetQuery (mkURI "file:///a.sql") None;
            OpCreateOrGetQuery (mkURI "file:///b.sql") (Some true);
            OpCreateOrGetQuery (mkURI "file:///a.sql") (Some true)]
      (initial ∅) in
  ∃ Q, queryHeap w !! 1%nat = Some Q ∧
       toString (associatedFile Q) = "file:///b.sql".
Proof.
  intros w.
  destruct (registry_is_coherent ∅
              [OpCreateOrGetQuery (mkURI "file:///a.sql") None;
               OpCreateOrGetQuery (mkURI "file:///b.sql") (Some true);
               OpCreateOrGetQuery (mkURI "file:///a.sql") (Some true)]
              "file:///b.sql" 1%nat eq_refl) as (H & _).
  exact H.
Defined.

(** ** The correlation key *)

Lemma listener_routes ev w this :
  queries w !! connectionIdOf ev = Some this →
  QueryService.listener ev w = handlerOf ev this w.
Proof.
  intros Hc. destruct ev; cbn [QueryService.listener connectionIdOf handlerOf] in *;
    unfold QueryService.onMessage, QueryService.onResultSetAvailable,
      QueryService.onResultSetUpdated, QueryService.onBatchStart,
      QueryService.onBatchComplete, QueryService.onQueryComplete, mbind, M_bind;
    by rewrite (findQuery_at _ _ _ Hc).
Qed.

(** X15: in every state that a service reaches from its creation, the
    correlation key that [execute], [cancel] and [fetch] of a query hand
    to the provider is the key under which the registry holds that
    query; so the events that the provider tags with the key it was
    given are handled by the methods of that same query. *)
Theorem correlation_key_routes_back dir ops k this pid stub :
  let w := runOps ops (initial dir) in
  queries w !! k = Some this →
  directory w !! k = Some pid →
  queryProviders w !! pid = Some stub →
  ∃ Q, queryHeap w !! this = Some Q ∧
       (Query.state Q = NOT_EXECUTING →
          Query.execute_sync this w =
            (upd_trace (λ t, t ++ [Called (provider stub) (RunQuery k)])
               (upd_queryHeap <[this := cleared Q]> w), inr ())) ∧
       Query.cancel_sync this w =
         (upd_trace (λ t, t ++ [Called (provider stub) (CancelQuery k)]) w, inr ()) ∧
       (∀ params,
          Query.fetch params this w =
            (upd_trace (λ t, t ++ [Called (provider stub) (FetchSubset k params)]) w,
             inr ())) ∧
       (∀ ev w', queries w' = queries w → connectionIdOf ev = k →
          QueryService.listener ev w' = handlerOf ev this w').
Proof.
  intros w Hk Hd Hp.
  assert (Hco : coherent w) by apply coherent_runOps, coherent_initial.
  destruct (Hco k this Hk) as (Q & HQ & Hf). exists Q. split_and!; [done| | | |].
  - intros Hs. rewrite (execute_sync_clears _ _ _ HQ) by (rewrite Hs; discriminate).
    rewrite (executeQuery_found _ _ pid stub); [by rewrite Hf|by rewrite Hf|done].
  - unfold Query.cancel_sync, mbind, M_bind. rewrite (this_at _ _ _ HQ).
    rewrite (cancelQuery_found _ _ pid stub); [by rewrite Hf|by rewrite Hf|done].
  - intros params. unfold Query.fetch, mbind, M_bind. rewrite (this_at _ _ _ HQ).
    rewrite (fetchData_found _ _ _ pid stub); [by rewrite Hf|by rewrite Hf|done].
  - intros ev w' Hreg Hev. apply listener_routes. by rewrite Hreg, Hev.
Qed.

Lemma correlation_key_routes_back_witness :
  let w :=
    runOps [OpCreateOrGetQuery (mkURI "file:///a.sql") None;
            OpRegisterProvider Scenario.mssql]
      (initial {[ "file:///a.sql" := "MSSQL" ]}) in
  Query.execute_sync 0%nat w =
    (upd_trace (λ t, t ++ [Called Scenario.mssql (RunQuery "file:///a.sql")])
       (upd_queryHeap
          <[0%nat := mkQuery (mkURI "file:///a.sql") NOT_EXECUTING [] [] None None]> w),
     inr ()) ∧
  QueryService.listener (EvQueryComplete "file:///a.sql") w =
    Query.handleQueryComplete 0%nat w.
Proof.
  intros w.
  destruct (correlation_key_routes_back {[ "file:///a.sql" := "MSSQL" ]}
              [OpCreateOrGetQuery (mkURI "file:///a.sql") None;
               OpRegisterProvider Scenario.mssql]
              "file:///a.sql" 0%nat "MSSQL"
              (mkStub Scenario.mssql (mkDisposable Scenario.mssql 0%nat))
              ltac:(vm_compute; reflexivity) ltac:(vm_compute; reflexivity)
              ltac:(vm_compute; reflexivity)) as (Q & HQ & Hexec & _ & _ & Hroute).
  vm_compute in HQ. injection HQ as <-.
  split; [exact (Hexec eq_refl)|].
  exact (Hroute (EvQueryComplete "file:///a.sql") w eq_refl eq_refl).
Defined.

(** ** Notifications of state follow the state *)

Global Instance keeps_protocol_refl : Reflexive keeps_protocol.
Proof. intros w Hp. exact Hp. Qed.

Global Instance keeps_protocol_trans : Transitive keeps_protocol.
Proof. intros w1 w2 w3 H12 H23 H. by apply H23, H12. Qed.

Lemma statesNotified_app i (t t' : list Effect) :
  statesNotified i (t ++ t') = statesNotified i t ++ statesNotified i t'.
Proof. apply omap_app. Qed.

Lemma quiet_protocol w w' : quiet w w' → keeps_protocol w w'.
Proof.
  intros (Hs & Ht) Hp this. specialize (Hp this). specialize (Hs this).
  rewrite (Ht this). destruct Hp as [Halt Hlast]. split; [done|].
  destruct (queryHeap w !! this) as [Q|], (queryHeap w' !! this) as [Q'|];
    simplify_eq/=; congruence.
Qed.

Lemma quiet_fire this ev w :
  (∀ s, ev ≠ DidStateChange s) →
  quiet w (upd_trace (λ t, t ++ [Fired this ev]) w).
Proof.
  intros Hev. split; [done|]. intros i. simpl. rewrite statesNotified_app.
  unfold statesNotified at 2. simpl.
  destruct ev; try by rewrite app_nil_r. by destruct (Hev s).
Qed.

Lemma quiet_call p c w : quiet w (upd_trace (λ t, t ++ [Called p c]) w).
Proof.
  split; [done|]. intros i. simpl. rewrite statesNotified_app. simpl.
  by rewrite app_nil_r.
Qed.

Lemma quiet_assign this (f : Query → Query) w :
  (∀ q, _state (f q) = _state q) → quiet w (upd_queryHeap (alter f this) w).
Proof.
  intros Hf. split; [|done]. intros i. simpl.
  rewrite list_lookup_alter. case_decide; [subst|done].
  destruct (queryHeap w !! i); simpl; [|done]. by rewrite Hf.
Qed.

Lemma quiet_objects (f : list IResultSet → list IResultSet) w :
  quiet w (upd_resultSetHeap f w).
Proof. done. Qed.

Lemma alternates_snoc l : ∀ prev s,
  alternates prev l → s ≠ default prev (last l) → alternates prev (l ++ [s]).
Proof.
  induction l as [|x l IH]; intros prev s Halt Hs; simpl in *.
  - done.
  - destruct Halt as [Hx Halt]. split; [done|]. apply IH; [done|].
    rewrite last_cons in Hs. by destruct (last l).
Qed.

Lemma statesNotified_changed i this s (t : list Effect) :
  statesNotified i (t ++ [Fired this (DidStateChange s)]) =
    statesNotified i t ++ if decide (this = i) then [s] else [].
Proof.
  rewrite statesNotified_app. f_equal. unfold statesNotified. simpl.
  by destruct (decide (this = i)).
Qed.

(** [setState] is the one place that assigns the state, and it notifies
    in the same breath. *)
Lemma protocol_setState s this : Preserves keeps_protocol (Query.setState s this).
Proof.
  intros w Hp. destruct (queryHeap w !! this) as [Q|] eqn:HQ; last first.
  { unfold Query.setState, mbind, M_bind, this_. by rewrite HQ. }
  rewrite (setState_at _ _ _ _ HQ). destruct (decide _) as [Hne|]; [|done].
  cbn [fst]. intros i. specialize (Hp i). cbn [trace queryHeap upd_trace upd_queryHeap].
  rewrite !statesNotified_changed.
  destruct (decide (this = i)) as [->|Hi].
  - rewrite HQ in Hp. destruct Hp as [Halt Hlast].
    rewrite list_lookup_insert_eq by (by eapply lookup_lt_Some).
    split.
    + apply alternates_snoc; [done|]. by rewrite <- Hlast.
    + by rewrite last_snoc.
  - rewrite !app_nil_r. by rewrite list_lookup_insert_ne.
Qed.

Ltac keeps_the_protocol :=
  unfold_methods; preserves;
  repeat match goal with
  | |- Preserves keeps_protocol (Query.setState _ _) => apply protocol_setState
  | |- Preserves keeps_protocol (assign _ _) => apply Preserves_modify; intros ?
  | |- keeps_protocol _ (upd_trace (λ t, t ++ [Fired _ _]) _) =>
      by apply quiet_protocol, quiet_fire
  | |- keeps_protocol _ (upd_trace (λ t, t ++ [Called _ _]) _) =>
      apply quiet_protocol, quiet_call
  | |- keeps_protocol _ (upd_queryHeap (alter _ _) _) =>
      by apply quiet_protocol, quiet_assign
  | |- keeps_protocol _ (upd_resultSetHeap _ _) => apply quiet_protocol, quiet_objects
  end.

Lemma Protocol_listener ev : Preserves keeps_protocol (QueryService.listener ev).
Proof. destruct ev; cbn [QueryService.listener]; keeps_the_protocol. Qed.

Lemma Protocol_deliver ls ev : ∀ w, keeps_protocol w (QueryService.deliver ls ev w).1.
Proof.
  induction ls as [|[k t] ls IH]; intros w; [done|].
  cbn [QueryService.deliver]. destruct (decide _); [|apply IH].
  pose proof (Protocol_listener ev w) as Hl.
  destruct (QueryService.listener ev w) as [w' r].
  specialize (IH w'). destruct (QueryService.deliver ls ev w') as [w'' rs].
  simpl in *. by etrans.
Qed.

Lemma Protocol_createOrGetQuery uri forceNew w :
  keeps_protocol w (QueryService.createOrGetQuery uri forceNew w).1.
Proof.
  destruct (queries w !! toString uri) as [q|] eqn:Hq.
  - by rewrite (createOrGetQuery_existing _ _ _ _ Hq).
  - rewrite (createOrGetQuery_new _ _ _ Hq). cbn [fst]. intros Hp this.
    specialize (Hp this). cbn [trace queryHeap upd_queries upd_queryHeap].
    destruct Hp as [Halt Hlast]. split; [done|].
    destruct (decide (this < length (queryHeap w))%nat) as [Hlt|Hge].
    + by rewrite lookup_app_l.
    + rewrite lookup_ge_None_2 in Hlast by lia.
      destruct (decide (this = length (queryHeap w))) as [->|Hne].
      * rewrite list_lookup_middle by done. by rewrite Hlast.
      * rewrite lookup_ge_None_2; [done|]. rewrite length_app; simpl; lia.
Qed.

Lemma Protocol_runOp o w : keeps_protocol w (runOp o w).
Proof.
  destruct o as [uri f|p|d|p ev|this|now this|this|msg this|opts this|rs offset count];
    cbn [runOp].
  - apply Protocol_createOrGetQuery.
  - rewrite registerProvider_at. by intros Hp.
  - rewrite dispose_at. by intros Hp.
  - apply Protocol_deliver.
  - assert (H : Preserves keeps_protocol (Query.execute_sync this))
      by keeps_the_protocol. apply H.
  - assert (H : Preserves keeps_protocol (Query.execute_resume now this))
      by keeps_the_protocol. apply H.
  - assert (H : Preserves keeps_protocol (Query.cancel_sync this))
      by keeps_the_protocol. apply H.
  - assert (H : Preserves keeps_protocol (Query.cancel_resume msg this))
      by keeps_the_protocol. apply H.
  - done.
  - assert (H : Preserves keeps_protocol (Query.resultSet_fetch rs offset count))
      by keeps_the_protocol. apply H.
Qed.

Lemma Protocol_runOps ops : ∀ w, protocol w → protocol (runOps ops w).
Proof.
  induction ops as [|o ops IH]; intros w Hp; [done|].
  apply (IH (runOp o w)). by apply Protocol_runOp.
Qed.

Lemma protocol_initial dir : protocol (initial dir).
Proof. intros this. unfold initial. by cbn [trace queryHeap]. Qed.

(** X16: in every state that a service reaches from its creation, the
    states that a query has notified to the subscribers of its state
    changes alternate, the first one being EXECUTING, and the last one
    notified is the state of the query (a query that has notified
    nothing is NOT_EXECUTING): a change of state is never missed and
    never notified twice. *)
Theorem state_notifications_follow_state dir ops this Q :
  let w := runOps ops (initial dir) in
  queryHeap w !! this = Some Q →
  alternates NOT_EXECUTING (statesNotified this (trace w)) ∧
  Query.state Q = default NOT_EXECUTING (last (statesNotified this (trace w))).
Proof.
  intros w HQ.
  assert (Hp : protocol w) by apply Protocol_runOps, protocol_initial.
  specialize (Hp this). by rewrite HQ in Hp.
Qed.

Lemma state_notifications_follow_state_witness :
  let w :=
    runOps [OpCreateOrGetQuery (mkURI "file:///a.sql") None;
            OpRegisterProvider Scenario.mssql;
            OpExecute 0%nat; OpExecuteAnswered 1000 0%nat;
            OpEmit Scenario.mssql (EvQueryComplete "file:///a.sql");
            OpCancelAnswered "cancelled" 0%nat;
            OpExecute 0%nat; OpExecuteAnswered 2000 0%nat]
      (initial {[ "file:///a.sql" := "MSSQL" ]}) in
  statesNotified 0%nat (trace w) = [EXECUTING; NOT_EXECUTING; EXECUTING] ∧
  ∃ Q, queryHeap w !! 0%nat = Some Q ∧ Query.state Q = EXECUTING.
Proof.
  intros w.
  assert (HQ : queryHeap w !! 0%nat =
               Some (mkQuery (mkURI "file:///a.sql") EXECUTING [] [] (Some 2000) None))
    by (vm_compute; reflexivity).
  destruct (state_notifications_follow_state {[ "file:///a.sql" := "MSSQL" ]}
              [OpCreateOrGetQuery (mkURI "file:///a.sql") None;
               OpRegisterProvider Scenario.mssql;
               OpExecute 0%nat; OpExecuteAnswered 1000 0%nat;
               OpEmit Scenario.mssql (EvQueryComplete "file:///a.sql");
               OpCancelAnswered "cancelled" 0%nat;
               OpExecute 0%nat; OpExecuteAnswered 2000 0%nat]
              0%nat _ HQ) as (_ & Hlast).
  split; [vm_compute; reflexivity|].
  eexists. split; [exact HQ|exact Hlast].
Defined.

(** ** Queries do not share result sets, events touch one query *)

Lemma owned_step w w' :
  wf w → owned w → within w w' → objects_kept w w' → owned w'.
Proof.
  intros (_ & Hal & _) Hown (_ & _ & _ & _ & _ & Hin) Hobj i Q' r rs' HQ' Hr Hrs'.
  destruct (Hin i Q' HQ') as (Q & HQ & Hsub).
  assert (Hr0 : r ∈ _resultSets Q) by by apply Hsub.
  assert (Hlt : (r < length (resultSetHeap w))%nat).
  { specialize (Hal i Q HQ). unfold allocated in Hal.
    rewrite Forall_forall in Hal. by apply Hal. }
  destruct (lookup_lt_is_Some_2 _ _ Hlt) as [rs Hrs].
  destruct (Hobj r rs Hrs) as (rs'' & Hrs'' & _ & _ & Hthis & _).
  simplify_eq. rewrite Hthis. by eapply Hown.
Qed.

Lemma owned_handleResultSetAvailable e this w :
  wf w → owned w → owned (Query.handleResultSetAvailable e this w).1.
Proof.
  intros (_ & Hal & _) Hown.
  assert (Hold : ∀ i Q r rs new,
            queryHeap w !! i = Some Q → r ∈ _resultSets Q →
            (resultSetHeap w ++ [new]) !! r = Some rs → rs_fetch_this rs = i).
  { intros i Q r rs new HQ Hr Hrs. specialize (Hal i Q HQ). unfold allocated in Hal.
    rewrite Forall_forall in Hal. specialize (Hal r Hr).
    rewrite lookup_app_l in Hrs by done. by eapply Hown. }
  destruct (queryHeap w !! this) as [q|] eqn:Hq.
  - rewrite (handleResultSetAvailable_at _ _ _ _ Hq). cbn [fst].
    intros i Q' r rs' HQ' Hr Hrs'.
    cbn [queryHeap resultSetHeap upd_trace upd_queryHeap upd_resultSetHeap] in *.
    destruct (decide (this = i)) as [->|Hne].
    + rewrite list_lookup_insert_eq in HQ' by (by eapply lookup_lt_Some).
      simplify_eq. cbn [_resultSets set_resultSets] in Hr.
      apply elem_of_app in Hr as [Hr|Hr]; [by eapply Hold|].
      apply list_elem_of_singleton in Hr as ->.
      rewrite list_lookup_middle in Hrs' by done. by simplify_eq.
    + rewrite list_lookup_insert_ne in HQ' by done. by eapply Hold.
  - unfold Query.handleResultSetAvailable. munfold. cbn [fst].
    destruct w as [dir provs qs qh rh ls nt tr]. wsimpl.
    cbn [queryHeap resultSetHeap] in *. rewrite Hq. cbn [fst].
    intros i Q' r rs' HQ' Hr Hrs'. cbn [queryHeap resultSetHeap] in *.
    by eapply Hold.
Qed.

Lemma Within_listener ev :
  kindOf ev ≠ KResultSetAvailable → Preserves within (QueryService.listener ev).
Proof.
  intros Hk.
  pose proof Within_findQuery. pose proof Within_handleMessage.
  pose proof Within_handleResultSetUpdated. pose proof Within_handleBatchStart.
  pose proof Within_handleBatchEnd. pose proof Within_handleQueryComplete.
  destruct ev; try done; cbn [QueryService.listener];
    unfold QueryService.onMessage, QueryService.onResultSetUpdated,
      QueryService.onBatchStart, QueryService.onBatchComplete,
      QueryService.onQueryComplete;
    (apply Preserves_bind; [apply _..|done|done]).
Qed.

Lemma owned_listener ev w : wf w → owned w → owned (QueryService.listener ev w).1.
Proof.
  intros Hwf Hown.
  destruct (decide (kindOf ev = KResultSetAvailable)) as [Hk|Hk].
  - destruct ev as [|c e| | | |]; try done. cbn [QueryService.listener].
    unfold QueryService.onResultSetAvailable, mbind, M_bind.
    destruct (queries w !! c) as [q|] eqn:Hc.
    + rewrite (findQuery_at _ _ _ Hc). by apply owned_handleResultSetAvailable.
    + by rewrite (findQuery_missing _ _ Hc).
  - apply (owned_step w); [done..|by apply Within_listener|apply Objects_listener].
Qed.

Lemma sound_deliver ls ev : ∀ w,
  wf w → owned w → owned (QueryService.deliver ls ev w).1.
Proof.
  induction ls as [|[k t] ls IH]; intros w Hwf Hown; [done|].
  cbn [QueryService.deliver]. destruct (decide _); [|by apply IH].
  pose proof (wf_listener ev w Hwf) as Hwf'.
  pose proof (owned_listener ev w Hwf Hown) as Hown'.
  destruct (QueryService.listener ev w) as [w' r].
  specialize (IH w' Hwf' Hown').
  by destruct (QueryService.deliver ls ev w') as [w'' rs].
Qed.

Lemma owned_runOp o w : wf w → owned w → owned (runOp o w).
Proof.
  intros Hwf Hown.
  assert (Hm : ∀ m : M unit, Preserves within m → Preserves objects_kept m →
            owned (m w).1).
  { intros m H1 H2. apply (owned_step w); [done..|apply H1|apply H2]. }
  destruct o as [uri f|p|d|p ev|this|now this|this|msg this|opts this|rs offset count];
    cbn [runOp].
  - destruct (queries w !! toString uri) as [q|] eqn:Hq.
    + by rewrite (createOrGetQuery_existing _ _ _ _ Hq).
    + rewrite (createOrGetQuery_new _ _ _ Hq). cbn [fst].
      intros i Q r rs HQ Hr Hrs.
      cbn [queryHeap resultSetHeap upd_queries upd_queryHeap] in *.
      apply lookup_snoc_Some in HQ as [[_ HQ]|[_ <-]].
      * by eapply Hown.
      * by apply elem_of_nil in Hr.
  - rewrite registerProvider_at. exact Hown.
  - rewrite dispose_at. exact Hown.
  - by apply sound_deliver.
  - apply Hm; [apply Within_execute_sync|apply Objects_execute_sync].
  - apply Hm; [apply Within_execute_resume|apply Objects_execute_resume].
  - apply Hm; [apply Within_cancel_sync|apply Objects_cancel_sync].
  - apply Hm; [apply Within_cancel_resume|apply Objects_cancel_resume].
  - done.
  - apply Hm; [apply Within_fetch|apply Objects_fetch].
Qed.

Lemma owned_runOps ops : ∀ w, wf w → owned w → owned (runOps ops w).
Proof.
  induction ops as [|o ops IH]; intros w Hwf Hown; [done|].
  apply (IH (runOp o w)); [by apply wf_runOp|by apply owned_runOp].
Qed.

Lemma owned_initial dir : owned (initial dir).
Proof. intros i Q r rs HQ. unfold initial in HQ. by cbn [queryHeap] in HQ. Qed.

(** X17: in every state that a service reaches from its creation, each
    entry of the result sets of a query is a result set object that this
    query created: the object exists, its [fetch] is bound to the query,
    and no other query holds it. *)
Theorem resultSets_are_not_shared dir ops i Q r :
  let w := runOps ops (initial dir) in
  queryHeap w !! i = Some Q →
  r ∈ _resultSets Q →
  (∃ rs, resultSetHeap w !! r = Some rs ∧ rs_fetch_this rs = i) ∧
  (∀ j Q', queryHeap w !! j = Some Q' → r ∈ _resultSets Q' → j = i).
Proof.
  intros w HQ Hr.
  assert (Hwf : wf w) by apply wf_reachable.
  assert (Hown : owned w) by (apply owned_runOps; [apply wf_initial|apply owned_initial]).
  assert (Hlt : (r < length (resultSetHeap w))%nat).
  { destruct Hwf as (_ & Hal & _). specialize (Hal i Q HQ). unfold allocated in Hal.
    rewrite Forall_forall in Hal. by apply Hal. }
  destruct (lookup_lt_is_Some_2 _ _ Hlt) as [rs Hrs]. split.
  - exists rs. split; [done|]. by eapply Hown.
  - intros j Q' HQ' Hr'. rewrite <- (Hown i Q r rs HQ Hr Hrs). symmetry.
    by eapply Hown.
Qed.

Lemma resultSets_are_not_shared_witness :
  let w :=
    runOps [OpCreateOrGetQuery (mkURI "file:///a.sql") None;
            OpCreateOrGetQuery (mkURI "file:///b.sql") None;
            OpRegisterProvider Scenario.mssql;
            OpEmit Scenario.mssql
              (EvResultSetAvailable "file:///b.sql" (mkSummary 0 0 5 [] false))]
      (initial ∅) in
  ∃ rs, resultSetHeap w !! 0%nat = Some rs ∧ rs_fetch_this rs = 1%nat.
Proof.
  intros w.
  destruct (resultSets_are_not_shared ∅
              [OpCreateOrGetQuery (mkURI "file:///a.sql") None;
               OpCreateOrGetQuery (mkURI "file:///b.sql") None;
               OpRegisterProvider Scenario.mssql;
               OpEmit Scenario.mssql
                 (EvResultSetAvailable "file:///b.sql" (mkSummary 0 0 5 [] false))]
              1%nat (mkQuery (mkURI "file:///b.sql") NOT_EXECUTING [] [0%nat] None None)
              0%nat ltac:(vm_compute; reflexivity)
              ltac:(apply list_elem_of_singleton; reflexivity)) as (H & _).
  exact H.
Defined.

Global Instance only_at_refl this : Reflexive (only_at this).
Proof. by intros w. Qed.

Global Instance only_at_trans this : Transitive (only_at this).
Proof.
  intros w1 w2 w3 (H1 & H2 & H3 & H4 & H5) (H1' & H2' & H3' & H4' & H5').
  unfold only_at. split_and!; [congruence..|].
  intros i Hi. by rewrite H5', H5.
Qed.

Lemma only_at_assign this (f : Query → Query) w :
  only_at this w (upd_queryHeap (alter f this) w).
Proof.
  unfold only_at. split_and!; [done..|]. intros i Hi. simpl.
  by rewrite list_lookup_alter_ne.
Qed.

Ltac touches_one :=
  unfold_methods; unfold Query.setState; preserves;
  repeat match goal with
  | |- Preserves (only_at _) (assign _ _) => apply Preserves_modify; intros ?
  | |- only_at _ _ (upd_queryHeap (alter _ _) _) => apply only_at_assign
  | |- only_at _ _ _ => done
  end.

Lemma OnlyAt_handler ev this : Preserves (only_at this) (handlerOf ev this).
Proof. destruct ev; cbn [handlerOf]; touches_one. Qed.

Lemma resultSets_after_replace (h : list IResultSet) r (rs' : IResultSet)
    (refs : list loc) :
  r ∉ refs →
  omap (λ x, <[r := rs']> h !! x) refs = omap (λ x, h !! x) refs.
Proof.
  intros Hr. apply list_omap_ext, Forall2_same_length_lookup. split; [done|].
  intros i x x' Hx Hx'. simplify_eq.
  rewrite list_lookup_insert_ne; [done|]. intros ->. apply Hr.
  by eapply list_elem_of_lookup_2.
Qed.

(** X18: in every state that a service reaches from its creation, the
    handling of a provider event changes the query that the key of the
    event is routed to and nothing of any other query: every other
    query object is as before, with the same result sets in the same
    condition, and the registries and the listeners are as before. *)
Theorem events_touch_one_query dir ops ev this i Q :
  let w := runOps ops (initial dir) in
  queries w !! connectionIdOf ev = Some this →
  i ≠ this →
  queryHeap w !! i = Some Q →
  queryHeap (QueryService.listener ev w).1 !! i = Some Q ∧
  Query.resultSets (QueryService.listener ev w).1 Q = Query.resultSets w Q ∧
  queries (QueryService.listener ev w).1 = queries w ∧
  queryProviders (QueryService.listener ev w).1 = queryProviders w ∧
  listeners (QueryService.listener ev w).1 = listeners w.
Proof.
  intros w Hc Hi HQ.
  assert (Hwf : wf w) by apply wf_reachable.
  assert (Hown : owned w) by (apply owned_runOps; [apply wf_initial|apply owned_initial]).
  destruct Hwf as (Hreg & Hal & _).
  assert (HalQ : Forall (λ r, (r < length (resultSetHeap w))%nat) (_resultSets Q))
    by apply (Hal i Q HQ).
  destruct (lookup_lt_is_Some_2 _ _ (Hreg _ _ Hc)) as [q Hq].
  pose proof (OnlyAt_handler ev this w) as (_ & H2 & H3 & H4 & H5).
  rewrite <- (listener_routes ev w this Hc) in H2, H3, H4, H5.
  split_and!; [by rewrite H5| |done..].
  unfold Query.resultSets.
  destruct (decide (kindOf ev = KResultSetAvailable)) as [Hk|Hk];
    [|destruct (decide (kindOf ev = KResultSetUpdated)) as [Hk'|Hk']].
  - destruct ev as [|c e| | | |]; try done. cbn [connectionIdOf] in Hc.
    cbn [QueryService.listener]. unfold QueryService.onResultSetAvailable, mbind, M_bind.
    rewrite (findQuery_at _ _ _ Hc), (handleResultSetAvailable_at _ _ _ _ Hq).
    cbn [fst resultSetHeap upd_trace upd_queryHeap upd_resultSetHeap].
    by apply resultSets_after_push.
  - destruct ev as [| |c e| | |]; try done. cbn [connectionIdOf] in Hc.
    cbn [QueryService.listener]. unfold QueryService.onResultSetUpdated, mbind, M_bind.
    rewrite (findQuery_at _ _ _ Hc).
    destruct (Query.findResultSet (Query.encodeId (resultIndex e) (batchIndex e))
                (resultSetHeap w) (_resultSets q)) as [r|] eqn:Hf.
    + destruct (findResultSet_Some _ _ _ _ Hf) as (Hin & rs & Hr & _).
      rewrite (handleResultSetUpdated_some _ _ _ _ _ _ Hq Hf Hr).
      cbn [fst resultSetHeap upd_trace upd_resultSetHeap].
      apply resultSets_after_replace. intros Hin'.
      apply Hi. rewrite <- (Hown this q r rs Hq Hin Hr).
      symmetry. exact (Hown i Q r rs HQ Hin' Hr).
    + by rewrite (handleResultSetUpdated_none _ _ _ _ Hq Hf).
  - destruct (Keeps_plain_listener ev Hk Hk' w) as (_ & Hh & _). by rewrite Hh.
Qed.

Lemma events_touch_one_query_witness :
  let w :=
    runOps [OpCreateOrGetQuery (mkURI "file:///a.sql") None;
            OpCreateOrGetQuery (mkURI "file:///b.sql") None;
            OpRegisterProvider Scenario.mssql;
            OpEmit Scenario.mssql
              (EvResultSetAvailable "file:///a.sql" (mkSummary 0 0 5 [] false))]
      (initial ∅) in
  let w' :=
    (QueryService.listener
       (EvResultSetUpdated "file:///b.sql" (mkSummary 0 0 9 [] true)) w).1 in
  queryHeap w' !! 0%nat =
    Some (mkQuery (mkURI "file:///a.sql") NOT_EXECUTING [] [0%nat] None None) ∧
  Query.resultSets w'
      (mkQuery (mkURI "file:///a.sql") NOT_EXECUTING [] [0%nat] None None) =
    [mkResultSet [] "0_0" 5 (Some false) 0%nat 0 0].
Proof.
  intros w w'.
  destruct (events_touch_one_query ∅
              [OpCreateOrGetQuery (mkURI "file:///a.sql") None;
               OpCreateOrGetQuery (mkURI "file:///b.sql") None;
               OpRegisterProvider Scenario.mssql;
               OpEmit Scenario.mssql
                 (EvResultSetAvailable "file:///a.sql" (mkSummary 0 0 5 [] false))]
              (EvResultSetUpdated "file:///b.sql" (mkSummary 0 0 9 [] true))
              1%nat 0%nat
              (mkQuery (mkURI "file:///a.sql") NOT_EXECUTING [] [0%nat] None None)
              ltac:(vm_compute; reflexivity) ltac:(discriminate)
              ltac:(vm_compute; reflexivity)) as (H1 & H2 & _).
  split; [exact H1|]. fold w w' in H2. rewrite H2. vm_compute. reflexivity.
Defined.
